(** * The IAM policy document model of [aws/iam_policy_model.go]

    A shallow embedding of the policy document structs, of their custom
    JSON encoders and decoders and of [DeDupSids], together with the
    properties of the codec that the specification states.

    Conventions of the embedding.
    - A JSON text is represented by its syntax tree [json]: the encoder's
      bytes are the compact rendering of the tree it builds, the decoder
      works on the tree that [encoding/json] parses.  Strings are byte
      strings, compared bytewise as Go compares them.
    - A JSON number is an integer literal [JNum n]; [json.Unmarshal]
      turns it into the nearest float64, and fails when there is none.
      In what an encoder writes, [JNum n] is the literal that
      [json.Marshal] writes for the float64 [n].
    - A value of type [interface{}] is an [iface]: the dynamic types that
      [encoding/json] stores ([nil], [bool], [float64], [string],
      [[]interface{}], [map[string]interface{}]), the [[]string] that
      [iamPolicyDecodeConfigStringList] builds, and [IOther] for a value
      of any other type, known by what [json.Marshal] makes of it.
    - Code that can fail returns an [outcome]: a value, an [error] that
      the caller receives, or a panic.
    - [sort.Sort] reorders the slice it is given.  Every [[]string] owns
      its backing array; an encoder returns, next to its result, the state
      in which it leaves the structure it was given.
    - The order in which [range] visits a Go map is not specified: a
      decoder returns the list of all the results it may produce. *)

From Stdlib Require Import String Ascii ZArith OrderedTypeEx.
From stdpp Require Import gmap strings list sorting list_monad.

Set Warnings "-register-all".
Local Open Scope string_scope.
Local Open Scope list_scope.

(** ** Strings and their order *)

(** [a >= b] on Go strings: bytewise lexicographic comparison. *)
Definition str_ge (a b : string) : Prop := String.leb b a = true.
Definition str_le (a b : string) : Prop := String.leb a b = true.

#[global] Instance str_ge_dec a b : Decision (str_ge a b).
Proof. unfold str_ge. apply _. Defined.
#[global] Instance str_le_dec a b : Decision (str_le a b).
Proof. unfold str_le. apply _. Defined.

(** [sort.Sort(sort.Reverse(sort.StringSlice(i)))]: the elements of [i] in
    descending order.  The library's algorithm is not stable, but equal
    strings cannot be told apart, so the result is the one descending
    arrangement of the elements (see [sort_desc_unique]). *)
Definition sort_desc (i : list string) : list string := merge_sort str_ge i.

(** ** Results of fallible code *)

Inductive error :=
| UnmarshalTypeError          (* encoding/json: value does not fit the Go type *)
| UnsupportedDataType         (* fmt.Errorf in IAMPolicyStatementPrincipalSet.UnmarshalJSON *)
| MarshalError.               (* encoding/json: value that cannot be written *)

(** The dynamic type of the value that an [interface{}] holds. *)
Inductive dyn_type :=
| TNil                        (* the nil interface *)
| TBool | TFloat64 | TString
| TStrings                    (* []string *)
| TArr                        (* []interface{} *)
| TMap                        (* map[string]interface{} *)
| TOther.                     (* any other type *)

Inductive panic :=
| PanicMsg (msg : string)     (* panic("...") *)
| InterfaceConversion (found wanted : dyn_type)
                              (* x.(T) on a value that is not a T: the
                                 runtime error names the type of x and T *)
| NilDereference
| IndexOutOfRange.

Inductive outcome (A : Type) :=
| Ok (a : A)
| Err (e : error)
| Panic (p : panic).
Arguments Ok {A} a.
Arguments Err {A} e.
Arguments Panic {A} p.

(** Sequencing: an error or a panic ends the computation. *)
#[global] Instance outcome_ret : MRet outcome := fun A a => Ok a.
#[global] Instance outcome_bind : MBind outcome := fun A B f r =>
  match r with
  | Ok a => f a
  | Err e => Err e
  | Panic x => Panic x
  end.

Definition is_Ok {A} (r : outcome A) : Prop :=
  match r with Ok _ => True | _ => False end.
Definition is_Panic {A} (r : outcome A) : Prop :=
  match r with Panic _ => True | _ => False end.

(** ** Dynamic values and JSON trees *)

Inductive json :=
| JNull
| JBool (b : bool)
| JNum (n : Z)
| JStr (s : string)
| JArr (l : list json)
| JObj (kvs : list (string * json)).     (* members in document order *)

Inductive iface :=
| INil                                   (* nil *)
| IBool (b : bool)
| INum (n : Z)                           (* the float64 of value n *)
| IStr (s : string)                      (* string *)
| IStrings (l : list string)             (* []string of elements l; in a set an
                                            empty one, nil or not: the encoders
                                            of sets do not tell them apart *)
| IArr (l : list iface)                  (* []interface{} *)
| IMap (m : gmap string iface)           (* map[string]interface{} *)
| IOther (m : outcome json).             (* a value of any other type: a channel,
                                            a NaN, an int, and in a field of
                                            actions or resources a nil []string,
                                            written [null]; m is what
                                            json.Marshal makes of it *)

Definition dyn_type_of (v : iface) : dyn_type :=
  match v with
  | INil => TNil
  | IBool _ => TBool
  | INum _ => TFloat64
  | IStr _ => TString
  | IStrings _ => TStrings
  | IArr _ => TArr
  | IMap _ => TMap
  | IOther _ => TOther
  end.


(** The map that a JSON object denotes: a repeated name keeps its last
    value. *)
Definition members_to_map {A} (kvs : list (string * A)) : gmap string A :=
  fold_left (fun m kv => <[kv.1 := kv.2]> m) kvs ∅.

(** The float64 nearest to the integer [n], ties going to the even
    mantissa, when it is finite: [strconv.ParseFloat], by which
    [json.Unmarshal] converts a number for an [interface{}], fails on a
    literal that rounds to an infinity. *)
Definition float64_of (n : Z) : option Z :=
  let a := Z.abs n in
  let k := (Z.log2 a - 52)%Z in
  if (k <=? 0)%Z then Some n
  else
    let q := Z.shiftr a k in
    let r := Z.land a (Z.ones k) in
    let half := Z.shiftl 1 (k - 1) in
    let q' := if (half <? r)%Z || ((r =? half)%Z && Z.odd q) then (q + 1)%Z else q in
    let f := Z.shiftl q' k in
    if (2 ^ 1024 <=? f)%Z then None else Some (Z.sgn n * f)%Z.

(** Whether every number of a JSON value has a float64. *)
Fixpoint numbers_fit (j : json) : bool :=
  match j with
  | JNum n => bool_decide (is_Some (float64_of n))
  | JArr l => forallb numbers_fit l
  | JObj kvs => forallb (fun kv => numbers_fit kv.2) kvs
  | _ => true
  end.

(** The value that [json.Unmarshal] builds for an [interface{}]: a
    number becomes its float64, and nil when it has none (the call then
    returns an error, see [numbers_fit]). *)
Fixpoint unmarshal_any (j : json) : iface :=
  match j with
  | JNull => INil
  | JBool b => IBool b
  | JNum n => match float64_of n with Some f => INum f | None => INil end
  | JStr s => IStr s
  | JArr l => IArr (map unmarshal_any l)
  | JObj kvs => IMap (members_to_map (map (fun kv => (kv.1, unmarshal_any kv.2)) kvs))
  end.

(** [json.Marshal] writes the entries of a map sorted by key. *)
Definition key_le {A} (x y : string * A) : Prop := str_le x.1 y.1.
#[global] Instance key_le_dec {A} (x y : string * A) : Decision (key_le x y).
Proof. unfold key_le. apply _. Defined.

Definition sorted_members {A} (m : gmap string A) : list (string * A) :=
  merge_sort key_le (map_to_list m).

(** What [json.Marshal] writes for the value held by an [interface{}],
    when it writes it. *)
Fixpoint marshal_any (v : iface) : json :=
  match v with
  | INil => JNull
  | IBool b => JBool b
  | INum n => JNum n
  | IStr s => JStr s
  | IStrings l => JArr (map JStr l)
  | IArr l => JArr (map marshal_any l)
  | IMap m => JObj (sorted_members (marshal_any <$> m))
  | IOther m => match m with Ok j => j | _ => JNull end
  end.

(** The results of a sequence of steps: the first error or panic ends
    it. *)
Fixpoint sequence {A} (l : list (outcome A)) : outcome (list A) :=
  match l with
  | [] => Ok []
  | r :: l' => a ← r; l'' ← sequence l'; Ok (a :: l'')
  end.

Definition member {A} (kr : string * outcome A) : outcome (string * A) :=
  a ← kr.2; Ok (kr.1, a).

(** [json.Marshal] of the value held by an [interface{}]: the elements
    of an array in order and the entries of a map in the order of their
    keys, up to the first value that cannot be written. *)
Fixpoint json_Marshal (v : iface) : outcome json :=
  match v with
  | IArr l => js ← sequence (map json_Marshal l); Ok (JArr js)
  | IMap m =>
      kvs ← sequence (map member (sorted_members (json_Marshal <$> m)));
      Ok (JObj kvs)
  | IOther m => m
  | _ => Ok (marshal_any v)
  end.

(** ** The document model *)

(** [Type] and [Variable] are reserved words here: the two fields are
    [Type'] and [Variable']. *)
Record IAMPolicyStatementPrincipal := {
  Type' : string;
  Identifiers : iface
}.

Record IAMPolicyStatementCondition := {
  Test : string;
  Variable' : string;
  Values : iface
}.

Definition IAMPolicyStatementPrincipalSet := list IAMPolicyStatementPrincipal.
Definition IAMPolicyStatementConditionSet := list IAMPolicyStatementCondition.

Record IAMPolicyStatement := {
  Sid : string;
  Effect : string;
  Actions : iface;
  NotActions : iface;
  Resources : iface;
  NotResources : iface;
  Principals : IAMPolicyStatementPrincipalSet;
  NotPrincipals : IAMPolicyStatementPrincipalSet;
  Conditions : IAMPolicyStatementConditionSet
}.

(** [Statements] is a slice of pointers: [None] is the nil slice, and a
    [None] element is a nil pointer. *)
Record IAMPolicyDoc := {
  Version : string;
  Id : string;
  Statements : option (list (option IAMPolicyStatement))
}.

(** ** Grouping identifiers by key

    The body of the [switch] in both [MarshalJSON] loops: [raw] is the map
    under construction, [key] is [p.Type] (or [c.Variable]) and [v] is
    [p.Identifiers] (or [c.Values]).  Returns the new [raw] and the state
    in which [v] is left: a [[]string] has been sorted in place. *)

(** [raw[key] = append(raw[key].([]string), i...)] *)
Definition append_strings (raw : gmap string iface) (key : string)
    (i : list string) : outcome (gmap string iface) :=
  match raw !! key with
  | Some (IStrings cur) => Ok (<[key := IStrings (cur ++ i)]> raw)
  | Some v => Panic (InterfaceConversion (dyn_type_of v) TStrings)
  | None => Panic (InterfaceConversion TNil TStrings)
  end.

Definition group_value (msg : string) (raw : gmap string iface)
    (key : string) (v : iface) : outcome (gmap string iface) * iface :=
  match v with
  | IStrings i =>
      let raw1 :=
        match raw !! key with
        | None => <[key := IStrings []]> raw     (* make([]string, 0, len(i)) *)
        | Some _ => raw
        end in
      let i' := sort_desc i in                   (* sort.Sort(sort.Reverse(...)) *)
      (append_strings raw1 key i', IStrings i')
  | IStr i => (Ok (<[key := IStr i]> raw), v)
  | _ => (Panic (PanicMsg msg), v)
  end.

Module PrincipalSet.

Definition panic_msg : string :=
  "Unsupported data type for IAMPolicyStatementPrincipalSet".

(** The special case at the head of [MarshalJSON]. *)
Definition is_wildcard (ps : IAMPolicyStatementPrincipalSet) : bool :=
  match ps with
  | [p] =>
      (String.eqb (Type' p) "AWS" || String.eqb (Type' p) "*") &&
      match Identifiers p with
      | IStr sv => String.eqb sv "*"
      | IStrings [av0] => String.eqb av0 "*"
      | _ => false
      end
  | _ => false
  end.

(** [for _, p := range ps { switch ... }] *)
Fixpoint group (raw : gmap string iface) (ps : IAMPolicyStatementPrincipalSet)
    : outcome (gmap string iface) * IAMPolicyStatementPrincipalSet :=
  match ps with
  | [] => (Ok raw, [])
  | p :: rest =>
      let '(r, ids) := group_value panic_msg raw (Type' p) (Identifiers p) in
      let p' := {| Type' := Type' p; Identifiers := ids |} in
      match r with
      | Ok raw' => let '(r', rest') := group raw' rest in (r', p' :: rest')
      | Err e => (Err e, p' :: rest)
      | Panic x => (Panic x, p' :: rest)
      end
  end.

(** [json.Marshal(&raw)]: the loop leaves strings and lists of strings in
    [raw], which [json.Marshal] always writes. *)
Definition marshal_raw (raw : gmap string iface) : json :=
  JObj (sorted_members (marshal_any <$> raw)).

(** The encoder: its result and the principal set as it leaves it. *)
Definition MarshalJSON (ps : IAMPolicyStatementPrincipalSet)
    : outcome json * IAMPolicyStatementPrincipalSet :=
  if is_wildcard ps then (Ok (JStr "*"), ps)
  else
    let '(r, ps') := group ∅ ps in
    match r with
    | Ok raw => (Ok (marshal_raw raw), ps')
    | Err e => (Err e, ps')
    | Panic x => (Panic x, ps')
    end.

(** The decoder, one result per order in which [range] may visit the
    decoded object. *)
Definition UnmarshalJSON (b : json) : list (outcome IAMPolicyStatementPrincipalSet) :=
  if numbers_fit b then
    match unmarshal_any b with
    | IStr _ => [Ok [ {| Type' := "*"; Identifiers := IStrings ["*"] |} ]]
    | IMap data =>
        (fun visit =>
           Ok (map (fun kv => {| Type' := kv.1; Identifiers := kv.2 |}) visit))
          <$> permutations (map_to_list data)
    | _ => [Err UnsupportedDataType]
    end
  else [Err UnmarshalTypeError].              (* the error of json.Unmarshal *)

End PrincipalSet.

Module ConditionSet.

Definition panic_msg : string :=
  "Unsupported data type for IAMPolicyStatementConditionSet".

(** One turn of the loop of [MarshalJSON]; [raw[c.Test]] is created
    before the [switch]. *)
Definition group_condition (raw : gmap string (gmap string iface))
    (c : IAMPolicyStatementCondition)
    : outcome (gmap string (gmap string iface)) * IAMPolicyStatementCondition :=
  let inner := default ∅ (raw !! Test c) in
  let '(r, vs) := group_value panic_msg inner (Variable' c) (Values c) in
  let c' := {| Test := Test c; Variable' := Variable' c; Values := vs |} in
  match r with
  | Ok inner' => (Ok (<[Test c := inner']> raw), c')
  | Err e => (Err e, c')
  | Panic x => (Panic x, c')
  end.

Fixpoint group (raw : gmap string (gmap string iface))
    (cs : IAMPolicyStatementConditionSet)
    : outcome (gmap string (gmap string iface)) * IAMPolicyStatementConditionSet :=
  match cs with
  | [] => (Ok raw, [])
  | c :: rest =>
      let '(r, c') := group_condition raw c in
      match r with
      | Ok raw' => let '(r', rest') := group raw' rest in (r', c' :: rest')
      | Err e => (Err e, c' :: rest)
      | Panic x => (Panic x, c' :: rest)
      end
  end.

(** [json.Marshal(&raw)]: here too the leaves are strings and lists of
    strings. *)
Definition marshal_raw (raw : gmap string (gmap string iface)) : json :=
  JObj (sorted_members
          ((fun inner => JObj (sorted_members (marshal_any <$> inner))) <$> raw)).

Definition MarshalJSON (cs : IAMPolicyStatementConditionSet)
    : outcome json * IAMPolicyStatementConditionSet :=
  let '(r, cs') := group ∅ cs in
  match r with
  | Ok raw => (Ok (marshal_raw raw), cs')
  | Err e => (Err e, cs')
  | Panic x => (Panic x, cs')
  end.

(** [json.Unmarshal(b, &data)] with
    [data map[string]map[string]interface{}]. *)
Definition unmarshal_inner (j : json) : option (gmap string iface) :=
  match j with
  | JNull => Some ∅
  | JObj kvs => Some (members_to_map (map (fun kv => (kv.1, unmarshal_any kv.2)) kvs))
  | _ => None
  end.

Definition unmarshal_maps (b : json)
    : outcome (gmap string (gmap string iface)) :=
  match b with
  | JNull => Ok ∅
  | JObj kvs =>
      match mapM (fun kv => (fun m => (kv.1, m)) <$> unmarshal_inner kv.2) kvs with
      | Some kms => Ok (members_to_map kms)
      | None => Err UnmarshalTypeError
      end
  | _ => Err UnmarshalTypeError
  end.

(** The error is that of a value that is not a map where one is
    expected, or of a number that has no float64. *)
Definition unmarshal_data (b : json)
    : outcome (gmap string (gmap string iface)) :=
  if numbers_fit b then unmarshal_maps b else Err UnmarshalTypeError.

(** [v.(string)] *)
Definition assert_string (v : iface) : outcome string :=
  match v with
  | IStr s => Ok s
  | _ => Panic (InterfaceConversion (dyn_type_of v) TString)
  end.

(** [for _, v := range var_values.([]interface{}) { values = append(values, v.(string)) }] *)
Fixpoint assert_strings (values : list string) (l : list iface)
    : outcome (list string) :=
  match l with
  | [] => Ok values
  | v :: l' => s ← assert_string v; assert_strings (values ++ [s]) l'
  end.

(** The [switch] on one leaf. *)
Definition visit_leaf (out : IAMPolicyStatementConditionSet)
    (test_key var_key : string) (var_values : iface)
    : outcome IAMPolicyStatementConditionSet :=
  match var_values with
  | IStr s =>
      Ok (out ++ [ {| Test := test_key; Variable' := var_key;
                      Values := IStrings [s] |} ])
  | IArr l =>
      values ← assert_strings [] l;
      Ok (out ++ [ {| Test := test_key; Variable' := var_key;
                      Values := IStrings values |} ])
  | _ => Ok out
  end.

Fixpoint visit_vars (out : IAMPolicyStatementConditionSet) (test_key : string)
    (vars : list (string * iface)) : outcome IAMPolicyStatementConditionSet :=
  match vars with
  | [] => Ok out
  | (var_key, var_values) :: vars' =>
      out' ← visit_leaf out test_key var_key var_values;
      visit_vars out' test_key vars'
  end.

(** Both loops, along a given order of visit. *)
Fixpoint visit_tests (out : IAMPolicyStatementConditionSet)
    (tests : list (string * list (string * iface)))
    : outcome IAMPolicyStatementConditionSet :=
  match tests with
  | [] => Ok out
  | (test_key, vars) :: tests' =>
      out' ← visit_vars out test_key vars;
      visit_tests out' tests'
  end.

(** The orders in which the two nested [range] loops may visit [data]. *)
Definition visit_orders (data : gmap string (gmap string iface))
    : list (list (string * list (string * iface))) :=
  tests ← permutations (map_to_list data);
  mapM (fun tm : string * gmap string iface =>
          (fun vars => (tm.1, vars)) <$> permutations (map_to_list tm.2))
       tests.

Definition UnmarshalJSON (b : json) : list (outcome IAMPolicyStatementConditionSet) :=
  match unmarshal_data b with
  | Ok data => visit_tests [] <$> visit_orders data
  | Err e => [Err e]
  | Panic x => [Panic x]
  end.

End ConditionSet.


(** ** [iamPolicyDecodeConfigStringList] *)

(** [ret[i] = vI.(string)] for each element, from index [i] on. *)
Fixpoint fill_strings (ret : list string) (i : nat) (lI : list iface)
    : outcome (list string) :=
  match lI with
  | [] => Ok ret
  | vI :: lI' =>
      s ← ConditionSet.assert_string vI;
      fill_strings (<[i := s]> ret) (S i) lI'
  end.

(** The result, and the argument slice as the call leaves it: the function
    only writes to [ret]. *)
Definition iamPolicyDecodeConfigStringList (lI : list iface)
    : outcome iface * list iface :=
  match lI with
  | [v] => (s ← ConditionSet.assert_string v; Ok (IStr s), lI)
  | _ =>
      (ret ← fill_strings (replicate (length lI) "") 0 lI;
       Ok (IStrings (sort_desc ret)), lI)
  end.

(** ** [DeDupSids] *)

Record dedup_state := {
  stmts : list (option IAMPolicyStatement);   (* self.Statements *)
  sidsSeen : gmap string bool
}.

(** One turn of the loop, for the index [i] of [range]; [l] is
    [len(self.Statements) - 1] as computed before the loop. *)
Definition DeDupSids_step (l : Z) (st : dedup_state) (i : nat)
    : outcome dedup_state :=
  let idx := (l - Z.of_nat i)%Z in
  if (idx <? 0)%Z then Panic IndexOutOfRange
  else
    let k := Z.to_nat idx in
    match stmts st !! k with
    | None => Panic IndexOutOfRange
    | Some None => Panic NilDereference
    | Some (Some s) =>
        let sid := Sid s in
        if Nat.ltb 0 (String.length sid) then
          let stmts' :=
            if default false (sidsSeen st !! sid)
            then take k (stmts st) ++ drop (S k) (stmts st)
            else stmts st in
          Ok {| stmts := stmts'; sidsSeen := <[sid := true]> (sidsSeen st) |}
        else Ok st
    end.

Fixpoint DeDupSids_loop (l : Z) (st : dedup_state) (range : list nat)
    : outcome dedup_state :=
  match range with
  | [] => Ok st
  | i :: range' => st' ← DeDupSids_step l st i; DeDupSids_loop l st' range'
  end.

Definition DeDupSids (self : IAMPolicyDoc) : outcome IAMPolicyDoc :=
  match Statements self with
  | None => Ok self                          (* nil slice: no turn *)
  | Some statements =>
      let l := (Z.of_nat (length statements) - 1)%Z in
      st ← DeDupSids_loop l {| stmts := statements; sidsSeen := ∅ |}
                          (seq 0 (length statements));
      Ok {| Version := Version self; Id := Id self;
            Statements := Some (stmts st) |}
  end.

(** The statements that the specification says survive: a statement is
    dropped when its sid is not empty and occurs again later. *)
Fixpoint last_occurrences (ss : list IAMPolicyStatement) : list IAMPolicyStatement :=
  match ss with
  | [] => []
  | s :: rest =>
      if bool_decide (Sid s ≠ "" ∧ Sid s ∈ Sid <$> rest)
      then last_occurrences rest
      else s :: last_occurrences rest
  end.

(** ** [json.Marshal] of a document *)

(** A [string] field tagged [omitempty]. *)
Definition omitempty_string (name s : string) : list (string * json) :=
  if String.eqb s "" then [] else [(name, JStr s)].

(** An [interface{}] field tagged [omitempty]: empty when it is nil. *)
Definition omitempty_iface (name : string) (v : iface)
    : outcome (list (string * json)) :=
  match v with
  | INil => Ok []
  | _ => j ← json_Marshal v; Ok [(name, j)]
  end.

(** A field tagged [omitempty] whose type is a slice with a [MarshalJSON]
    method: empty when its length is 0, else encoded by the method. *)
Definition omitempty_set {A} (MarshalJSON : list A → outcome json * list A)
    (name : string) (set : list A) : outcome (list (string * json)) * list A :=
  match set with
  | [] => (Ok [], set)
  | _ =>
      let '(r, set') := MarshalJSON set in
      (match r with
       | Ok j => Ok [(name, j)]
       | Err e => Err e
       | Panic x => Panic x
       end, set')
  end.

(** The fields of a statement that come before its sets, in the order
    of the struct. *)
Definition marshal_head (s : IAMPolicyStatement) : outcome (list (string * json)) :=
  a ← omitempty_iface "Action" (Actions s);
  na ← omitempty_iface "NotAction" (NotActions s);
  r ← omitempty_iface "Resource" (Resources s);
  nr ← omitempty_iface "NotResource" (NotResources s);
  Ok ([("Sid", JStr (Sid s))] ++ omitempty_string "Effect" (Effect s) ++
      a ++ na ++ r ++ nr).

(** A statement, field by field in the order of the struct. *)
Definition marshal_statement (s : IAMPolicyStatement)
    : outcome json * IAMPolicyStatement :=
  let leave ps nps cs :=
    {| Sid := Sid s; Effect := Effect s; Actions := Actions s;
       NotActions := NotActions s; Resources := Resources s;
       NotResources := NotResources s;
       Principals := ps; NotPrincipals := nps; Conditions := cs |} in
  match marshal_head s with
  | Ok head =>
      let '(r1, ps) :=
        omitempty_set PrincipalSet.MarshalJSON "Principal" (Principals s) in
      match r1 with
      | Ok f1 =>
          let '(r2, nps) :=
            omitempty_set PrincipalSet.MarshalJSON "NotPrincipal" (NotPrincipals s) in
          match r2 with
          | Ok f2 =>
              let '(r3, cs) :=
                omitempty_set ConditionSet.MarshalJSON "Condition" (Conditions s) in
              match r3 with
              | Ok f3 => (Ok (JObj (head ++ f1 ++ f2 ++ f3)), leave ps nps cs)
              | Err e => (Err e, leave ps nps cs)
              | Panic x => (Panic x, leave ps nps cs)
              end
          | Err e => (Err e, leave ps nps (Conditions s))
          | Panic x => (Panic x, leave ps nps (Conditions s))
          end
      | Err e => (Err e, leave ps (NotPrincipals s) (Conditions s))
      | Panic x => (Panic x, leave ps (NotPrincipals s) (Conditions s))
      end
  | Err e => (Err e, s)
  | Panic x => (Panic x, s)
  end.

(** A [*IAMPolicyStatement]: a nil pointer is written as [null]. *)
Definition marshal_statement_ptr (p : option IAMPolicyStatement)
    : outcome json * option IAMPolicyStatement :=
  match p with
  | None => (Ok JNull, None)
  | Some s => let '(r, s') := marshal_statement s in (r, Some s')
  end.

Fixpoint marshal_statements (l : list (option IAMPolicyStatement))
    : outcome (list json) * list (option IAMPolicyStatement) :=
  match l with
  | [] => (Ok [], [])
  | p :: rest =>
      let '(r, p') := marshal_statement_ptr p in
      match r with
      | Ok j =>
          let '(r', rest') := marshal_statements rest in
          (match r' with
           | Ok js => Ok (j :: js)
           | Err e => Err e
           | Panic x => Panic x
           end, p' :: rest')
      | Err e => (Err e, p' :: rest)
      | Panic x => (Panic x, p' :: rest)
      end
  end.

(** [Encode]: [json.Marshal] of the document, and the document as the
    call leaves it. *)
Definition Encode (d : IAMPolicyDoc) : outcome json * IAMPolicyDoc :=
  let head := omitempty_string "Version" (Version d) ++ omitempty_string "Id" (Id d) in
  match Statements d with
  | None => (Ok (JObj (head ++ [("Statement", JNull)])), d)
  | Some l =>
      let '(r, l') := marshal_statements l in
      (match r with
       | Ok js => Ok (JObj (head ++ [("Statement", JArr js)]))
       | Err e => Err e
       | Panic x => Panic x
       end,
       {| Version := Version d; Id := Id d; Statements := Some l' |})
  end.

(** ** [json.Unmarshal] into a document

    Members are taken in document order and matched with the fields
    without regard to case, as [encoding/json] does; a member that fits
    no field is skipped, and a member that comes twice is decoded twice
    into its field.  A value of the wrong JSON type for a field leaves
    the field as it is and is remembered as the error to report at the
    end; an error of an [UnmarshalJSON] method ends the decoding at once;
    a panic of such a method is not recovered. *)

Definition upper (c : ascii) : ascii :=
  let n := nat_of_ascii c in
  if Nat.leb 97 n && Nat.leb n 122 then ascii_of_nat (n - 32) else c.

(** A name as [encoding/json] compares it: letters in upper case; the
    long s (U+017F, bytes C5 BF) and the Kelvin sign (U+212A, bytes
    E2 84 AA) are the two other characters that fold to a letter. *)
Fixpoint fold_name (s : string) : string :=
  match s with
  | EmptyString => EmptyString
  | String c rest =>
      let plain := String (upper c) (fold_name rest) in
      match rest with
      | String c2 rest2 =>
          if Nat.eqb (nat_of_ascii c) 197 && Nat.eqb (nat_of_ascii c2) 191
          then String "S" (fold_name rest2)
          else
            match rest2 with
            | String c3 rest3 =>
                if Nat.eqb (nat_of_ascii c) 226 && Nat.eqb (nat_of_ascii c2) 132
                   && Nat.eqb (nat_of_ascii c3) 170
                then String "K" (fold_name rest3)
                else plain
            | EmptyString => plain
            end
      | EmptyString => plain
      end
  end.

(** Whether the member name [k] is that of the field [name]. *)
Definition name_eqb (k name : string) : bool :=
  String.eqb (fold_name k) (fold_name name).

Abbreviation dec A := (list (outcome A)) (only parsing).

Definition dec_bind {A B} (m : dec A) (f : A → dec B) : dec B :=
  r ← m;
  match r with
  | Ok a => f a
  | Err e => [Err e]
  | Panic x => [Panic x]
  end.

Notation "x ←! m ; k" := (dec_bind m (fun x => k))
  (at level 20, m at level 100, k at level 200, only parsing, right associativity).

Definition save_error (saved : option error) (e : error) : option error :=
  match saved with
  | None => Some e
  | Some _ => saved
  end.

Definition decode_string (v : json) (old : string) (saved : option error)
    : string * option error :=
  match v with
  | JStr s => (s, saved)
  | JNull => (old, saved)
  | _ => (old, save_error saved UnmarshalTypeError)
  end.

(** Decoding into an [interface{}] field that holds [old]: a number
    that has no float64 leaves the field as it is, or leaves nil in the
    array or map that it is part of. *)
Definition decode_iface (v : json) (old : iface) (saved : option error)
    : iface * option error :=
  if numbers_fit v then (unmarshal_any v, saved)
  else (match v with JNum _ => old | _ => unmarshal_any v end,
        save_error saved UnmarshalTypeError).

Fixpoint decode_members {S} (field : S → string * json → dec S) (st : S)
    (kvs : list (string * json)) : dec S :=
  match kvs with
  | [] => [Ok st]
  | kv :: rest => st' ←! field st kv; decode_members field st' rest
  end.

Definition zero_statement : IAMPolicyStatement :=
  {| Sid := ""; Effect := ""; Actions := INil; NotActions := INil;
     Resources := INil; NotResources := INil;
     Principals := []; NotPrincipals := []; Conditions := [] |}.

Definition decode_statement_field (st : IAMPolicyStatement * option error)
    (kv : string * json) : dec (IAMPolicyStatement * option error) :=
  let '(s, saved) := st in
  let '(k, v) := kv in
  let upd sid eff a na r nr p np c :=
    {| Sid := sid; Effect := eff; Actions := a; NotActions := na;
       Resources := r; NotResources := nr;
       Principals := p; NotPrincipals := np; Conditions := c |} in
  if name_eqb k "Sid" then
    let '(x, saved') := decode_string v (Sid s) saved in
    [Ok (upd x (Effect s) (Actions s) (NotActions s) (Resources s)
             (NotResources s) (Principals s) (NotPrincipals s) (Conditions s), saved')]
  else if name_eqb k "Effect" then
    let '(x, saved') := decode_string v (Effect s) saved in
    [Ok (upd (Sid s) x (Actions s) (NotActions s) (Resources s)
             (NotResources s) (Principals s) (NotPrincipals s) (Conditions s), saved')]
  else if name_eqb k "Action" then
    let '(x, saved') := decode_iface v (Actions s) saved in
    [Ok (upd (Sid s) (Effect s) x (NotActions s) (Resources s)
             (NotResources s) (Principals s) (NotPrincipals s) (Conditions s), saved')]
  else if name_eqb k "NotAction" then
    let '(x, saved') := decode_iface v (NotActions s) saved in
    [Ok (upd (Sid s) (Effect s) (Actions s) x (Resources s)
             (NotResources s) (Principals s) (NotPrincipals s) (Conditions s), saved')]
  else if name_eqb k "Resource" then
    let '(x, saved') := decode_iface v (Resources s) saved in
    [Ok (upd (Sid s) (Effect s) (Actions s) (NotActions s) x
             (NotResources s) (Principals s) (NotPrincipals s) (Conditions s), saved')]
  else if name_eqb k "NotResource" then
    let '(x, saved') := decode_iface v (NotResources s) saved in
    [Ok (upd (Sid s) (Effect s) (Actions s) (NotActions s) (Resources s)
             x (Principals s) (NotPrincipals s) (Conditions s), saved')]
  else if name_eqb k "Principal" then
    ps ←! PrincipalSet.UnmarshalJSON v;
    [Ok (upd (Sid s) (Effect s) (Actions s) (NotActions s) (Resources s)
             (NotResources s) ps (NotPrincipals s) (Conditions s), saved)]
  else if name_eqb k "NotPrincipal" then
    ps ←! PrincipalSet.UnmarshalJSON v;
    [Ok (upd (Sid s) (Effect s) (Actions s) (NotActions s) (Resources s)
             (NotResources s) (Principals s) ps (Conditions s), saved)]
  else if name_eqb k "Condition" then
    cs ←! ConditionSet.UnmarshalJSON v;
    [Ok (upd (Sid s) (Effect s) (Actions s) (NotActions s) (Resources s)
             (NotResources s) (Principals s) (NotPrincipals s) cs, saved)]
  else [Ok (s, saved)].

(** Decoding a JSON value into a statement that holds [s]. *)
Definition decode_statement (v : json) (s : IAMPolicyStatement)
    (saved : option error) : dec (IAMPolicyStatement * option error) :=
  match v with
  | JObj kvs => decode_members decode_statement_field (s, saved) kvs
  | JNull => [Ok (s, saved)]
  | _ => [Ok (s, save_error saved UnmarshalTypeError)]
  end.

(** An element of the [Statement] array, decoded into the pointer [old]
    that the slice holds at its place: [null] gives a nil pointer, any
    other value is decoded into the statement that [old] points to, or
    into a new one when [old] is nil. *)
Definition decode_statement_ptr (v : json) (old : option IAMPolicyStatement)
    (saved : option error) : dec (option IAMPolicyStatement * option error) :=
  match v with
  | JNull => [Ok (None, saved)]
  | _ =>
      st ←! decode_statement v (default zero_statement old) saved;
      [Ok (Some st.1, st.2)]
  end.

(** The elements of the array, decoded one by one into the cells of
    [backing], the array of the slice up to its capacity; the cells past
    its end are nil. *)
Fixpoint decode_statements (l : list json)
    (backing : list (option IAMPolicyStatement)) (saved : option error)
    : dec (list (option IAMPolicyStatement) * option error) :=
  match l with
  | [] => [Ok ([], saved)]
  | v :: l' =>
      st ←! decode_statement_ptr v (mjoin (head backing)) saved;
      rest ←! decode_statements l' (tail backing) st.2;
      [Ok (st.1 :: rest.1, rest.2)]
  end.

Definition zero_doc : IAMPolicyDoc :=
  {| Version := ""; Id := ""; Statements := None |}.

(** The state of the decoding of a document: the document, the cells of
    the array of [Statements] that lie past its length (a "Statement"
    member that comes again is decoded into the slice that is there,
    which is cut to the length of the new array, and it finds these
    cells again when it is longer), and the remembered error. *)
Definition doc_state : Type :=
  IAMPolicyDoc * list (option IAMPolicyStatement) * option error.

Definition decode_doc_field (st : doc_state) (kv : string * json) : dec doc_state :=
  let '(d, hidden, saved) := st in
  let '(k, v) := kv in
  if name_eqb k "Version" then
    let '(x, saved') := decode_string v (Version d) saved in
    [Ok ({| Version := x; Id := Id d; Statements := Statements d |}, hidden, saved')]
  else if name_eqb k "Id" then
    let '(x, saved') := decode_string v (Id d) saved in
    [Ok ({| Version := Version d; Id := x; Statements := Statements d |}, hidden, saved')]
  else if name_eqb k "Statement" then
    match v with
    | JArr l =>
        let backing := default [] (Statements d) ++ hidden in
        r ←! decode_statements l backing saved;
        [Ok ({| Version := Version d; Id := Id d; Statements := Some r.1 |},
             match l with
             | [] => []                       (* a new, empty slice *)
             | _ => drop (length l) backing
             end,
             r.2)]
    | JNull =>
        [Ok ({| Version := Version d; Id := Id d; Statements := None |}, [], saved)]
    | _ => [Ok (d, hidden, save_error saved UnmarshalTypeError)]
    end
  else [Ok (d, hidden, saved)].

(** The end of [json.Unmarshal]: the remembered error, if any. *)
Definition finish {A} (st : A * option error) : dec A :=
  match st.2 with
  | None => [Ok st.1]
  | Some e => [Err e]
  end.

(** [json.Unmarshal(b, &statement)] on a new statement. *)
Definition DecodeStatement (b : json) : dec IAMPolicyStatement :=
  st ←! decode_statement b zero_statement None; finish st.

(** [Decode]: [json.Unmarshal(b, &doc)] on a new document. *)
Definition Decode (b : json) : dec IAMPolicyDoc :=
  match b with
  | JObj kvs =>
      st ←! decode_members decode_doc_field (zero_doc, [], None) kvs;
      finish (st.1.1, st.2)
  | JNull => [Ok zero_doc]
  | _ => [Err UnmarshalTypeError]
  end.


(** ** Notions used to state the properties *)

Definition holds_strings (v : iface) : Prop := ∃ l, v = IStrings l.

(** The identifier lists of the entries of type [T], each one sorted, one
    after the other in the order of the entries. *)
Definition merged (ps : IAMPolicyStatementPrincipalSet) (T : string) : list string :=
  flat_map (fun p =>
              if decide (Type' p = T) then
                match Identifiers p with
                | IStrings l => sort_desc l
                | _ => []
                end
              else []) ps.

(** The members of the object that encodes [ps], when it is one. *)
Definition encoded_members (ps : IAMPolicyStatementPrincipalSet)
    (kvs : list (string * json)) : Prop :=
  (PrincipalSet.MarshalJSON ps).1 = Ok (JObj kvs).

(** C2 as the specification states it: every list under a key of the
    encoding is in descending order. *)
Definition merged_lists_descending (ps : IAMPolicyStatementPrincipalSet) : Prop :=
  ∀ kvs T ids,
    encoded_members ps kvs → (T, JArr (JStr <$> ids)) ∈ kvs → Sorted str_ge ids.

(** What an encoder does to a value it visits. *)
Definition sort_in_place (v : iface) : iface :=
  match v with
  | IStrings l => IStrings (sort_desc l)
  | _ => v
  end.

Definition sort_principal (p : IAMPolicyStatementPrincipal) : IAMPolicyStatementPrincipal :=
  {| Type' := Type' p; Identifiers := sort_in_place (Identifiers p) |}.

Definition sort_condition (c : IAMPolicyStatementCondition) : IAMPolicyStatementCondition :=
  {| Test := Test c; Variable' := Variable' c; Values := sort_in_place (Values c) |}.

(** C7 as the specification states it, for principal sets. *)
Definition encoding_leaves_untouched (ps : IAMPolicyStatementPrincipalSet) : Prop :=
  (PrincipalSet.MarshalJSON ps).2 = ps.

(** The list that [raw] holds under [T], if any. *)
Definition strings_at (raw : gmap string iface) (T : string) : list string :=
  match raw !! T with
  | Some (IStrings l) => l
  | _ => []
  end.

(** What [sidsSeen] holds once the statements [suf] have been visited. *)
Definition seen_all (seen : gmap string bool) (suf : list IAMPolicyStatement) : Prop :=
  ∀ sid, default false (seen !! sid) = true ↔ sid ≠ "" ∧ sid ∈ Sid <$> suf.

(** A statement that has the sid [sid] and nothing else. *)
Definition statement_with_sid (sid : string) : IAMPolicyStatement :=
  {| Sid := sid; Effect := ""; Actions := INil; NotActions := INil;
     Resources := INil; NotResources := INil;
     Principals := []; NotPrincipals := []; Conditions := [] |}.

Definition doc_with_sids (sids : list string) : IAMPolicyDoc :=
  {| Version := ""; Id := "";
     Statements := Some ((fun sid => Some (statement_with_sid sid)) <$> sids) |}.

(** C8 as the specification states it, for the sid of a statement. *)
Definition empty_sid_omitted (s : IAMPolicyStatement) : Prop :=
  Sid s = "" →
  ∀ kvs, (marshal_statement s).1 = Ok (JObj kvs) → "Sid" ∉ kvs.*1.

(** C4 as the specification states it: decoding a statement whose
    "Action" member is [v] fails with an error. *)
Definition action_rejected (v : json) : Prop :=
  ∀ r, r ∈ DecodeStatement (JObj [("Action", v)]) → ∃ e, r = Err e.

(** The statement that holds [v] as its actions and nothing else. *)
Definition statement_with_actions (v : iface) : IAMPolicyStatement :=
  {| Sid := ""; Effect := ""; Actions := v; NotActions := INil;
     Resources := INil; NotResources := INil;
     Principals := []; NotPrincipals := []; Conditions := [] |}.

(** The document of one statement that allows a principal set. *)
Definition doc_with_principals (ps : IAMPolicyStatementPrincipalSet) : IAMPolicyDoc :=
  {| Version := "2012-10-17"; Id := "";
     Statements :=
       Some [Some {| Sid := ""; Effect := "Allow"; Actions := IStr "s3:GetObject";
                     NotActions := INil; Resources := IStr "*"; NotResources := INil;
                     Principals := ps; NotPrincipals := []; Conditions := [] |}] |}.

(** The strings of a [[]interface{}] whose elements are all strings. *)
Definition as_string (v : iface) : option string :=
  match v with
  | IStr s => Some s
  | _ => None
  end.

Definition strings_of (l : list iface) : option (list string) := mapM as_string l.

(** The first element of a [[]interface{}] that is not a string. *)
Fixpoint first_other (l : list iface) : option iface :=
  match l with
  | [] => None
  | IStr _ :: l' => first_other l'
  | v :: _ => Some v
  end.

(** The panic of [v.(string)] on a value that is not a string. *)
Definition not_a_string (v : iface) : panic :=
  InterfaceConversion (dyn_type_of v) TString.

(** The panic of the conversion of the elements of [l], when one of
    them is not a string. *)
Definition bad_element (l : list iface) : panic :=
  not_a_string (default INil (first_other l)).

(** The values of the condition that a leaf gives rise to: a string and
    an array of strings do, no other leaf does. *)
Definition leaf_values (v : iface) : option iface :=
  match v with
  | IStr s => Some (IStrings [s])
  | IArr l => IStrings <$> strings_of l
  | _ => None
  end.

Definition neither_string_nor_array (v : iface) : Prop :=
  match v with
  | IStr _ | IArr _ => False
  | _ => True
  end.

Definition arrays_hold_strings (data : gmap string (gmap string iface)) : Prop :=
  ∀ t inner x l,
    data !! t = Some inner → inner !! x = Some (IArr l) → is_Some (strings_of l).

(** The conditions of one test, along an order of visit of its
    variables. *)
Definition entries_of_vars (t : string) (vars : list (string * iface))
    : IAMPolicyStatementConditionSet :=
  omap (fun xv => (fun vals => {| Test := t; Variable' := xv.1; Values := vals |})
                    <$> leaf_values xv.2) vars.

(** C10 as stated: whenever the two levels of objects are there and some
    leaf is neither a string nor an array, decoding returns a condition
    set. *)
Definition other_leaves_skipped (b : json) : Prop :=
  ∀ data,
    ConditionSet.unmarshal_data b = Ok data →
    (∃ t inner x v, data !! t = Some inner ∧ inner !! x = Some v ∧
                    neither_string_nor_array v) →
    ∀ r, r ∈ ConditionSet.UnmarshalJSON b → is_Ok r.


(** ** Notions used to state further properties *)

(** The value that [iamPolicyDecodeConfigStringList] builds from the
    strings [ss]: the string itself when there is one, their descending
    list otherwise. *)
Definition string_or_list (ss : list string) : iface :=
  match ss with
  | [s] => IStr s
  | _ => IStrings (sort_desc ss)
  end.

(** A value that a call of [iamPolicyDecodeConfigStringList] returned. *)
Definition built_from_config (v : iface) : Prop :=
  ∃ lI, (iamPolicyDecodeConfigStringList lI).1 = Ok v.

(** The sids of the statements of a document, in order. *)
Definition doc_sids (d : IAMPolicyDoc) : list string :=
  match Statements d with
  | Some l => Sid <$> omap id l
  | None => []
  end.

(** The sids that are not empty. *)
Definition nonempty (sids : list string) : list string :=
  filter (fun sid => sid ≠ "") sids.

(** A document one of whose statement pointers is nil. *)
Definition has_nil_statement (d : IAMPolicyDoc) : Prop :=
  ∃ l, Statements d = Some l ∧ None ∈ l.

(** The identifier values that the encoders accept. *)
Definition supported (v : iface) : Prop :=
  match v with
  | IStr _ | IStrings _ => True
  | _ => False
  end.

#[global] Instance supported_dec v : Decision (supported v).
Proof. destruct v; simpl; apply _. Defined.

(** Two identifier values that differ in the order of a list at most. *)
Definition same_identifiers (v w : iface) : Prop :=
  match v, w with
  | IStrings l, IStrings l' => l ≡ₚ l'
  | _, _ => v = w
  end.

Definition same_principal (p q : IAMPolicyStatementPrincipal) : Prop :=
  Type' p = Type' q ∧ same_identifiers (Identifiers p) (Identifiers q).

(** Two principal sets that differ in the order of their entries and in
    the order of the lists of their entries at most. *)
Definition same_principals (ps ps' : IAMPolicyStatementPrincipalSet) : Prop :=
  ∃ ps'', ps ≡ₚ ps'' ∧ Forall2 same_principal ps'' ps'.

(** The map from each type to its value, as the loop builds it from
    entries of distinct types. *)
Definition entry_map (ps : IAMPolicyStatementPrincipalSet) : gmap string iface :=
  list_to_map ((fun p => (Type' p, sort_in_place (Identifiers p))) <$> ps).

(** A string under some type, and later a list under the same type. *)
Definition string_then_list (ps : IAMPolicyStatementPrincipalSet) : Prop :=
  ∃ i j p q s l,
    i < j ∧ ps !! i = Some p ∧ ps !! j = Some q ∧ Type' p = Type' q ∧
    Identifiers p = IStr s ∧ Identifiers q = IStrings l.

(** The map that [json.Unmarshal] builds from the members of an object
    into an [interface{}]. *)
Definition decoded_members (kvs : list (string * json)) : gmap string iface :=
  members_to_map (map (fun kv => (kv.1, unmarshal_any kv.2)) kvs).

(** The principal that [UnmarshalJSON] makes of a member. *)
Definition principal_of (kv : string * iface) : IAMPolicyStatementPrincipal :=
  {| Type' := kv.1; Identifiers := kv.2 |}.


(** The value that a nested map holds under a test and a variable. *)
Definition at_pair (raw : gmap string (gmap string iface)) (t x : string)
    : option iface :=
  inner ← raw !! t; inner !! x.

(** The list that [raw] holds under a test and a variable, if any. *)
Definition strings_at_pair (raw : gmap string (gmap string iface)) (t x : string)
    : list string :=
  match at_pair raw t x with
  | Some (IStrings l) => l
  | _ => []
  end.

Definition pair_of (c : IAMPolicyStatementCondition) : string * string :=
  (Test c, Variable' c).

(** The value lists of the conditions of test [t] and variable [x], each
    one sorted, one after the other in the order of the entries. *)
Definition merged_values (cs : IAMPolicyStatementConditionSet) (t x : string)
    : list string :=
  flat_map (fun c =>
              if decide (pair_of c = (t, x)) then
                match Values c with
                | IStrings l => sort_desc l
                | _ => []
                end
              else []) cs.

(** The JSON values that [json.Unmarshal] takes for a map. *)
Definition object_or_null (j : json) : Prop :=
  match j with
  | JNull | JObj _ => True
  | _ => False
  end.

(** The JSON values that [json.Unmarshal] takes for a
    [map[string]map[string]interface{}]. *)
Definition two_levels (b : json) : Prop :=
  match b with
  | JNull => True
  | JObj kvs => Forall (fun kv => object_or_null kv.2) kvs
  | _ => False
  end.

(** What a leaf of the decoded data becomes in the map that the encoder
    builds from the decoded set: a string a list of one string, an array
    of strings their descending list; any other leaf has no entry. *)
Definition reencoded_leaf (v : iface) : option iface :=
  sort_in_place <$> leaf_values v.

Definition reencoded_test (inner : gmap string iface) : option (gmap string iface) :=
  let m := omap reencoded_leaf inner in
  if decide (size m = 0) then None else Some m.

(** The nested map that the encoder builds from a set decoded from
    [data]: the tests that have a leaf that is a string or an array,
    with these leaves. *)
Definition reencoded (data : gmap string (gmap string iface))
    : gmap string (gmap string iface) :=
  omap reencoded_test data.

(** What [json.Unmarshal] reads from what [json.Marshal] wrote for
    [raw]. *)
Definition read_back (raw : gmap string (gmap string iface))
    : gmap string (gmap string iface) :=
  (fun inner : gmap string iface => unmarshal_any <$> (marshal_any <$> inner))
    <$> raw.

(** [raw[t][x] = v], the inner map being created when it is not there. *)
Definition store_pair (raw : gmap string (gmap string iface)) (t x : string)
    (v : iface) : gmap string (gmap string iface) :=
  <[t := <[x := v]> (default ∅ (raw !! t))]> raw.

(** A string under a test and a variable, and later a list under the
    same test and variable. *)
Definition string_then_list_values (cs : IAMPolicyStatementConditionSet) : Prop :=
  ∃ i j c q s l,
    i < j ∧ cs !! i = Some c ∧ cs !! j = Some q ∧ pair_of c = pair_of q ∧
    Values c = IStr s ∧ Values q = IStrings l.

(** The sets that the encoders take: every entry holds a string or a
    list of strings, and no string is followed by a list for the same
    key. *)
Definition encodable_principals (ps : IAMPolicyStatementPrincipalSet) : Prop :=
  Forall (fun p => supported (Identifiers p)) ps ∧ ¬ string_then_list ps.

Definition encodable_conditions (cs : IAMPolicyStatementConditionSet) : Prop :=
  Forall (fun c => supported (Values c)) cs ∧ ¬ string_then_list_values cs.

(** The values that [json.Marshal] writes. *)
Definition writable (v : iface) : Prop := is_Ok (json_Marshal v).

Definition fields_writable (s : IAMPolicyStatement) : Prop :=
  writable (Actions s) ∧ writable (NotActions s) ∧
  writable (Resources s) ∧ writable (NotResources s).

Definition encodable_statement (s : IAMPolicyStatement) : Prop :=
  fields_writable s ∧
  encodable_principals (Principals s) ∧ encodable_principals (NotPrincipals s) ∧
  encodable_conditions (Conditions s).

(** The statements of a document, nil pointers apart. *)
Definition doc_statements (d : IAMPolicyDoc) : list IAMPolicyStatement :=
  match Statements d with
  | Some l => omap id l
  | None => []
  end.

(** The string that an entry holds for the type [T], if it is of that
    type and holds one. *)
Definition string_of_type (T : string) (p : IAMPolicyStatementPrincipal)
    : option string :=
  if decide (Type' p = T) then as_string (Identifiers p) else None.

(** The string of the last entry of type [T] that holds a string. *)
Definition last_string (ps : IAMPolicyStatementPrincipalSet) (T : string)
    : option string :=
  last (omap (string_of_type T) ps).

(** * Properties *)

(** ** The order on strings and the sorted form *)

Lemma leb_spec (a b : string) :
  String.leb a b = true ↔ a = b ∨ String_as_OT.lt a b.
Proof.
  unfold String.leb.
  destruct (String.compare a b) eqn:Hc; split; intros H; try done.
  - left. by apply String_as_OT.cmp_eq.
  - right. by apply String_as_OT.cmp_lt.
  - destruct H as [->|H%String_as_OT.cmp_lt].
    + assert (String_as_OT.cmp b b = Eq) as Hb by by apply String_as_OT.cmp_eq.
      unfold String_as_OT.cmp in *. congruence.
    + unfold String_as_OT.cmp in *. congruence.
Qed.

Lemma leb_trans (a b c : string) :
  String.leb a b = true → String.leb b c = true → String.leb a c = true.
Proof.
  rewrite !leb_spec. intros [->|Hab] [->|Hbc]; eauto.
  right. eapply String_as_OT.lt_trans; eauto.
Qed.

#[global] Instance str_ge_total : Total str_ge.
Proof. intros a b. unfold str_ge. destruct (String.leb_total a b); auto. Qed.
#[global] Instance str_ge_trans : Transitive str_ge.
Proof. intros a b c ??. unfold str_ge in *. eauto using leb_trans. Qed.
#[global] Instance str_ge_antisym : AntiSymm (=) str_ge.
Proof. intros a b ??. unfold str_ge in *. by apply String.leb_antisym. Qed.
#[global] Instance str_le_total : Total str_le.
Proof. intros a b. unfold str_le. apply String.leb_total. Qed.
#[global] Instance str_le_trans : Transitive str_le.
Proof. intros a b c ??. unfold str_le in *. eauto using leb_trans. Qed.
#[global] Instance key_le_total {A} : Total (@key_le A).
Proof. intros x y. unfold key_le. apply (total str_le). Qed.

Lemma sort_desc_perm (l : list string) : sort_desc l ≡ₚ l.
Proof. apply merge_sort_Permutation. Qed.

Lemma sort_desc_sorted (l : list string) : Sorted str_ge (sort_desc l).
Proof. apply (Sorted_merge_sort str_ge). Qed.

(** Whatever algorithm sorts the slice, the result is [sort_desc]. *)
Lemma sort_desc_unique (l l' : list string) :
  l' ≡ₚ l → Sorted str_ge l' → l' = sort_desc l.
Proof.
  intros Hp Hs. apply (Sorted_unique str_ge); auto using sort_desc_sorted.
  by rewrite sort_desc_perm.
Qed.

Lemma sort_desc_proper (l l' : list string) :
  l ≡ₚ l' → sort_desc l = sort_desc l'.
Proof.
  intros Hp. apply sort_desc_unique; auto using sort_desc_sorted.
  by rewrite sort_desc_perm.
Qed.

Lemma sort_desc_idemp (l : list string) : sort_desc (sort_desc l) = sort_desc l.
Proof. apply sort_desc_proper, sort_desc_perm. Qed.

Lemma sort_desc_singleton (x : string) : sort_desc [x] = [x].
Proof. reflexivity. Qed.

Lemma sort_desc_length (l : list string) : length (sort_desc l) = length l.
Proof. by rewrite sort_desc_perm. Qed.

(** ** Members of an encoded map *)

Lemma sorted_members_perm {A} (m : gmap string A) :
  sorted_members m ≡ₚ map_to_list m.
Proof. apply merge_sort_Permutation. Qed.

Lemma elem_of_sorted_members {A} (m : gmap string A) k v :
  (k, v) ∈ sorted_members m ↔ m !! k = Some v.
Proof. by rewrite sorted_members_perm, elem_of_map_to_list. Qed.

Lemma NoDup_sorted_members {A} (m : gmap string A) :
  NoDup (sorted_members m).*1.
Proof. rewrite sorted_members_perm. apply NoDup_fst_map_to_list. Qed.

Lemma sorted_members_sorted {A} (m : gmap string A) :
  Sorted key_le (sorted_members m).
Proof. apply (Sorted_merge_sort key_le). Qed.

(** ** The loop of [PrincipalSet.MarshalJSON] *)

Lemma group_value_leaves msg raw key v :
  (group_value msg raw key v).2 = sort_in_place v.
Proof. by destruct v. Qed.

Lemma group_cons raw p (ps : IAMPolicyStatementPrincipalSet) :
  (PrincipalSet.group raw (p :: ps)).1 =
    match (group_value PrincipalSet.panic_msg raw (Type' p) (Identifiers p)).1 with
    | Ok raw' => (PrincipalSet.group raw' ps).1
    | Err e => Err e
    | Panic x => Panic x
    end.
Proof.
  simpl.
  destruct (group_value _ raw (Type' p) (Identifiers p)) as [[raw'|e|x] ids]; simpl; try done.
  by destruct (PrincipalSet.group raw' ps).
Qed.

Lemma group_app raw (l1 l2 : IAMPolicyStatementPrincipalSet) :
  (PrincipalSet.group raw (l1 ++ l2)).1 =
    match (PrincipalSet.group raw l1).1 with
    | Ok raw' => (PrincipalSet.group raw' l2).1
    | Err e => Err e
    | Panic x => Panic x
    end.
Proof.
  revert raw. induction l1 as [|p l1 IH]; intros raw; simpl; [done|].
  destruct (group_value _ raw (Type' p) (Identifiers p)) as [[raw'|e|x] ids]; simpl; try done.
  specialize (IH raw').
  destruct (PrincipalSet.group raw' (l1 ++ l2)) as [r1 s1].
  destruct (PrincipalSet.group raw' l1) as [r2 s2]. done.
Qed.

(** The principal set is left with a prefix of its entries sorted: all of
    them when the loop runs to its end. *)
Lemma group_leaves raw (ps : IAMPolicyStatementPrincipalSet) :
  ∃ k, (PrincipalSet.group raw ps).2 = (sort_principal <$> take k ps) ++ drop k ps ∧
       (is_Ok (PrincipalSet.group raw ps).1 → (length ps ≤ k)%nat).
Proof.
  revert raw. induction ps as [|p ps IH]; intros raw; simpl.
  { exists 0. split; [done|]. simpl; lia. }
  pose proof (group_value_leaves PrincipalSet.panic_msg raw (Type' p) (Identifiers p)) as Hl.
  destruct (group_value _ raw (Type' p) (Identifiers p)) as [[raw'|e|x] ids];
    simpl in *; subst ids.
  - destruct (IH raw') as (k & Hk & Hok).
    destruct (PrincipalSet.group raw' ps) as [r s]; simpl in *.
    exists (S k). split; [by rewrite Hk|]. intros H. specialize (Hok H). simpl. lia.
  - exists 1. split; [done|]. done.
  - exists 1. split; [done|]. done.
Qed.

Lemma group_value_lists msg raw key l :
  (∀ k v, raw !! k = Some v → holds_strings v) →
  ∃ cur, (raw !! key = Some (IStrings cur) ∨ raw !! key = None ∧ cur = []) ∧
    (group_value msg raw key (IStrings l)).1 =
      Ok (<[key := IStrings (cur ++ sort_desc l)]> raw).
Proof.
  intros Hraw. simpl. unfold append_strings.
  destruct (raw !! key) as [v|] eqn:Hk.
  - destruct (Hraw _ _ Hk) as [cur ->]. exists cur. rewrite Hk. eauto.
  - exists []. rewrite lookup_insert_eq. split; [eauto|].
    by rewrite insert_insert_eq.
Qed.

Lemma group_lists (ps : IAMPolicyStatementPrincipalSet) raw :
  (∀ p, p ∈ ps → holds_strings (Identifiers p)) →
  (∀ k v, raw !! k = Some v → holds_strings v) →
  ∃ raw', (PrincipalSet.group raw ps).1 = Ok raw' ∧
    (∀ k v, raw' !! k = Some v → holds_strings v) ∧
    ∀ T, raw' !! T =
         if decide (is_Some (raw !! T) ∨ T ∈ Type' <$> ps)
         then Some (IStrings (strings_at raw T ++ merged ps T))
         else None.
Proof.
  revert raw. induction ps as [|p ps IH]; intros raw Hps Hraw.
  { exists raw. split; [done|]. split; [done|]. intros T. simpl.
    unfold strings_at. case_decide as HT.
    - destruct HT as [[v Hv]|HT]; [|by apply elem_of_nil in HT].
      rewrite Hv. destruct (Hraw _ _ Hv) as [l ->]. by rewrite app_nil_r.
    - destruct (raw !! T) eqn:E; [|done]. exfalso. apply HT. eauto. }
  destruct (Hps p) as [l Hl]; [left|].
  destruct (group_value_lists PrincipalSet.panic_msg raw (Type' p) l Hraw)
    as (cur & Hcur & Hgv).
  set (raw1 := <[Type' p := IStrings (cur ++ sort_desc l)]> raw) in *.
  assert (∀ k v, raw1 !! k = Some v → holds_strings v) as Hraw1.
  { intros k v. unfold raw1. rewrite lookup_insert. case_decide.
    - intros [= <-]. by eexists.
    - apply Hraw. }
  destruct (IH raw1) as (raw' & Hg & Hraw' & Hlook); [|done|].
  { intros q Hq. apply Hps. by right. }
  exists raw'. split; [|split; [done|]].
  - rewrite group_cons, Hl, Hgv. done.
  - intros T. rewrite Hlook. unfold strings_at, raw1. simpl merged.
    rewrite Hl, fmap_cons.
    destruct (decide (Type' p = T)) as [HT|HT].
    + subst T. rewrite lookup_insert_eq.
      rewrite decide_True by (left; eauto).
      rewrite decide_True by (right; left).
      destruct Hcur as [Hc|[Hc ->]]; rewrite Hc; by rewrite <-?app_assoc.
    + rewrite lookup_insert_ne by done.
      assert (is_Some (raw !! T) ∨ T ∈ Type' <$> ps ↔
              is_Some (raw !! T) ∨ T ∈ Type' p :: (Type' <$> ps)) as Hiff.
      { rewrite elem_of_cons. split; [intros [?|?]; auto|].
        intros [?|[?|?]]; auto. by subst T. }
      destruct (decide (is_Some (raw !! T) ∨ T ∈ Type' <$> ps)) as [H1|H1].
      * rewrite decide_True by by apply Hiff. done.
      * rewrite decide_False by by rewrite <-Hiff. done.
Qed.

(** ** What the loop of [PrincipalSet.MarshalJSON] stores under a type *)

Lemma string_then_list_cons p (ps : IAMPolicyStatementPrincipalSet) :
  string_then_list (p :: ps) ↔
  (∃ s q l, Identifiers p = IStr s ∧ q ∈ ps ∧ Type' q = Type' p ∧
            Identifiers q = IStrings l) ∨
  string_then_list ps.
Proof.
  split.
  - intros (i & j & p' & q & s & l & Hij & Hp & Hq & HT & Hs & Hl).
    destruct j as [|j]; [lia|]. simpl in Hq. destruct i as [|i].
    + injection Hp as <-. left. exists s, q, l. split; [done|].
      split; [apply list_elem_of_lookup; eauto|]. done.
    + right. exists i, j, p', q, s, l. simpl in Hp. repeat split; try done. lia.
  - intros [(s & q & l & Hs & (j & Hq)%list_elem_of_lookup & HT & Hl)|
            (i & j & p' & q & s & l & Hij & Hp & Hq & HT & Hs & Hl)].
    + exists 0, (S j), p, q, s, l. repeat split; try done. lia.
    + exists (S i), (S j), p', q, s, l. repeat split; try done. lia.
Qed.

Lemma group_value_list msg raw key l :
  (∀ s, raw !! key ≠ Some (IStr s)) → (∀ v, raw !! key = Some v → supported v) →
  (group_value msg raw key (IStrings l)).1 =
    Ok (<[key := IStrings (strings_at raw key ++ sort_desc l)]> raw).
Proof.
  intros Hs Hv. cbn [group_value fst]. unfold append_strings, strings_at.
  destruct (raw !! key) as [v|] eqn:Hk.
  - rewrite Hk. specialize (Hv v eq_refl). destruct v; try done. by destruct (Hs s).
  - rewrite lookup_insert_eq. by rewrite insert_insert_eq.
Qed.

Lemma last_string_cons p (ps : IAMPolicyStatementPrincipalSet) T :
  last_string (p :: ps) T =
    match last_string ps T with
    | Some s => Some s
    | None => string_of_type T p
    end.
Proof.
  unfold last_string. cbn [omap list_omap].
  destruct (string_of_type T p) as [s|]; [|by destruct (last _)].
  by rewrite last_cons.
Qed.

Lemma last_string_other (ps : IAMPolicyStatementPrincipalSet) T :
  T ∉ Type' <$> ps → last_string ps T = None.
Proof.
  induction ps as [|p ps IH]; [done|]. rewrite fmap_cons, not_elem_of_cons.
  intros [Hp Hps]. rewrite last_string_cons, IH by done.
  unfold string_of_type. by rewrite decide_False.
Qed.

Lemma last_string_is_Some (ps : IAMPolicyStatementPrincipalSet) q s :
  q ∈ ps → Identifiers q = IStr s → is_Some (last_string ps (Type' q)).
Proof.
  induction ps as [|p ps IH]; intros Hq Hs; [by apply elem_of_nil in Hq|].
  rewrite last_string_cons. apply elem_of_cons in Hq as [<-|Hq].
  - destruct (last_string ps (Type' q)); [by eexists|].
    unfold string_of_type. rewrite decide_True by done. rewrite Hs. by eexists.
  - destruct (IH Hq Hs) as [s' ->]. by eexists.
Qed.

Lemma merged_other (ps : IAMPolicyStatementPrincipalSet) T :
  T ∉ Type' <$> ps → merged ps T = [].
Proof.
  induction ps as [|p ps IH]; [done|]. rewrite fmap_cons, not_elem_of_cons.
  intros [Hp Hps]. cbn [merged flat_map]. fold (merged ps T).
  rewrite decide_False by done. by apply IH.
Qed.

Lemma merged_cons p (ps : IAMPolicyStatementPrincipalSet) T :
  merged (p :: ps) T =
    (if decide (Type' p = T) then
       match Identifiers p with
       | IStrings l => sort_desc l
       | _ => []
       end
     else []) ++ merged ps T.
Proof. reflexivity. Qed.

(** The loop, on a set that it takes: under each type it leaves the
    string of the last entry of that type that holds one, or else the
    lists of that type, each sorted, one after the other. *)
Lemma group_grouped (ps : IAMPolicyStatementPrincipalSet) raw :
  Forall (fun p => supported (Identifiers p)) ps →
  ¬ string_then_list ps →
  (∀ s q, raw !! Type' q = Some (IStr s) → q ∈ ps → ¬ holds_strings (Identifiers q)) →
  (∀ T v, raw !! T = Some v → supported v) →
  ∃ raw', (PrincipalSet.group raw ps).1 = Ok raw' ∧
    ∀ T, raw' !! T =
         if decide (T ∈ Type' <$> ps) then
           Some (match last_string ps T with
                 | Some s => IStr s
                 | None => IStrings (strings_at raw T ++ merged ps T)
                 end)
         else raw !! T.
Proof.
  revert raw. induction ps as [|p ps IH]; intros raw Hs Hc Hstr Hsup.
  { exists raw. split; [done|]. intros T. rewrite decide_False; [done|].
    apply not_elem_of_nil. }
  apply Forall_cons in Hs as [Hp Hs].
  assert (¬ string_then_list ps) as Hc'.
  { intros H. apply Hc, string_then_list_cons. by right. }
  rewrite group_cons.
  destruct (Identifiers p) as [| | |s|l| | |] eqn:Hi; try done.
  - (* a string *)
    cbn [group_value fst].
    destruct (IH (<[Type' p := IStr s]> raw)) as (raw' & -> & Hlook); [done..| | |].
    { intros s' q. rewrite lookup_insert. case_decide as HT.
      - intros _ Hq [l Hl]. apply Hc, string_then_list_cons. left.
        exists s, q, l. done.
      - intros Hr Hq. apply (Hstr s' q Hr). by right. }
    { intros T v. rewrite lookup_insert. case_decide; [by intros [= <-]|apply Hsup]. }
    exists raw'. split; [done|]. intros T.
    rewrite Hlook, last_string_cons, merged_cons, Hi.
    rewrite fmap_cons. unfold string_of_type, strings_at.
    destruct (decide (Type' p = T)) as [<-|HT].
    + rewrite (decide_True (P := Type' p ∈ _ :: _)) by left. rewrite Hi.
      cbn [as_string]. case_decide as Hin.
      * destruct (last_string ps (Type' p)) as [s'|] eqn:Hlast; [done|].
        exfalso. apply list_elem_of_fmap in Hin as (q & HTq & Hq).
        assert (supported (Identifiers q)) as Hsq
          by (eapply Forall_forall in Hs; [exact Hs|done]).
        destruct (Identifiers q) as [| | |s'|l'| | |] eqn:Hiq; try done.
        -- destruct (last_string_is_Some ps q s' Hq Hiq) as [? Hl].
           rewrite <-HTq in Hl. congruence.
        -- apply Hc, string_then_list_cons. left. exists s, q, l'. done.
      * rewrite last_string_other by done. by rewrite lookup_insert_eq.
    + rewrite lookup_insert_ne by done.
      destruct (decide (T ∈ Type' <$> ps)) as [Hin|Hin].
      * rewrite decide_True by by right.
        by destruct (last_string ps T).
      * rewrite decide_False; [done|]. rewrite not_elem_of_cons. by split.
  - (* a list *)
    rewrite group_value_list.
    2:{ intros s Hr. apply (Hstr s p Hr); [left|]. rewrite Hi. by eexists. }
    2:{ apply Hsup. }
    destruct (IH (<[Type' p := IStrings (strings_at raw (Type' p) ++ sort_desc l)]> raw))
      as (raw' & -> & Hlook); [done..| | |].
    { intros s' q. rewrite lookup_insert. case_decide as HT; [done|].
      intros Hr Hq. apply (Hstr s' q Hr). by right. }
    { intros T v. rewrite lookup_insert. case_decide; [by intros [= <-]|apply Hsup]. }
    exists raw'. split; [done|]. intros T.
    rewrite Hlook, last_string_cons, merged_cons, Hi.
    rewrite fmap_cons. unfold string_of_type.
    destruct (decide (Type' p = T)) as [<-|HT].
    + rewrite (decide_True (P := Type' p ∈ _ :: _)) by left. rewrite Hi.
      cbn [as_string]. unfold strings_at at 1. rewrite lookup_insert_eq.
      case_decide as Hin.
      * destruct (last_string ps (Type' p)); [done|]. by rewrite app_assoc.
      * rewrite last_string_other, merged_other by done. by rewrite app_nil_r.
    + unfold strings_at at 1. rewrite !lookup_insert_ne by done.
      destruct (decide (T ∈ Type' <$> ps)) as [Hin|Hin].
      * rewrite decide_True by by right.
        by destruct (last_string ps T).
      * rewrite decide_False; [done|]. rewrite not_elem_of_cons. by split.
Qed.

Lemma is_wildcard_spec (ps : IAMPolicyStatementPrincipalSet) :
  PrincipalSet.is_wildcard ps = true ↔
  ∃ p, ps = [p] ∧ (Type' p = "AWS" ∨ Type' p = "*") ∧
       (Identifiers p = IStr "*" ∨ Identifiers p = IStrings ["*"]).
Proof.
  split.
  - destruct ps as [|p [|q ps]]; simpl; try done.
    rewrite andb_true_iff, orb_true_iff, !String.eqb_eq.
    intros [HT Hi]. exists p. split; [done|]. split; [done|].
    destruct (Identifiers p) as [| | |sv|[|av0 [|]]| | |]; try done.
    + apply String.eqb_eq in Hi. subst. by left.
    + apply String.eqb_eq in Hi. subst. by right.
  - intros (p & -> & HT & Hi). simpl.
    rewrite andb_true_iff, orb_true_iff, !String.eqb_eq. split; [done|].
    destruct Hi as [-> | ->]; by apply String.eqb_eq.
Qed.

Lemma MarshalJSON_not_wildcard (ps : IAMPolicyStatementPrincipalSet) :
  PrincipalSet.is_wildcard ps = false →
  (PrincipalSet.MarshalJSON ps).1 =
    match (PrincipalSet.group ∅ ps).1 with
    | Ok raw => Ok (PrincipalSet.marshal_raw raw)
    | Err e => Err e
    | Panic x => Panic x
    end.
Proof.
  intros Hw. unfold PrincipalSet.MarshalJSON. rewrite Hw.
  by destruct (PrincipalSet.group ∅ ps) as [[raw|e|x] ps'].
Qed.

Lemma MarshalJSON_leaves (ps : IAMPolicyStatementPrincipalSet) :
  (PrincipalSet.MarshalJSON ps).2 =
    if PrincipalSet.is_wildcard ps then ps else (PrincipalSet.group ∅ ps).2.
Proof.
  unfold PrincipalSet.MarshalJSON. destruct (PrincipalSet.is_wildcard ps); [done|].
  by destruct (PrincipalSet.group ∅ ps) as [[raw|e|x] ps'].
Qed.

(** Once a string is stored under [T], a later list of type [T] makes
    the loop panic. *)
Lemma group_string_then_list (ps : IAMPolicyStatementPrincipalSet) raw T s q l :
  raw !! T = Some (IStr s) →
  q ∈ ps → Type' q = T → Identifiers q = IStrings l →
  is_Panic (PrincipalSet.group raw ps).1.
Proof.
  revert raw s. induction ps as [|p ps IH]; intros raw s Hraw Hq HT Hl.
  { by apply elem_of_nil in Hq. }
  rewrite group_cons.
  destruct (Identifiers p) as [| | |i|i| | |] eqn:Hp; simpl; try done.
  - (* a string: it is stored, and a string stays under [T] *)
    apply elem_of_cons in Hq as [->|Hq]; [congruence|].
    destruct (decide (Type' p = T)) as [<-|Hne].
    + apply (IH _ i); auto. by rewrite lookup_insert_eq.
    + apply (IH _ s); auto. by rewrite lookup_insert_ne.
  - (* a list *)
    destruct (decide (Type' p = T)) as [HpT|Hne].
    + rewrite HpT, Hraw. unfold append_strings. by rewrite Hraw.
    + apply elem_of_cons in Hq as [->|Hq]; [done|].
      destruct (raw !! Type' p) as [v|] eqn:Hv; unfold append_strings.
      * rewrite Hv. destruct v; try done.
        apply (IH _ s); auto. by rewrite lookup_insert_ne.
      * rewrite lookup_insert_eq.
        apply (IH _ s); auto. by rewrite !lookup_insert_ne.
Qed.

(** C2, the example of the specification: what the encoder yields. *)
Example two_AWS_lists_encoding :
  encoded_members
    [ {| Type' := "AWS"; Identifiers := IStrings ["arn:a"] |};
      {| Type' := "AWS"; Identifiers := IStrings ["arn:b"] |} ]
    [("AWS", JArr [JStr "arn:a"; JStr "arn:b"])].
Proof. vm_compute. reflexivity. Qed.

(** C2, counterexample: the two lists of type "AWS" are merged in the
    order of the entries, ["arn:a"; "arn:b"], which is not descending. *)
Lemma two_AWS_lists_not_descending :
  ¬ merged_lists_descending
      [ {| Type' := "AWS"; Identifiers := IStrings ["arn:a"] |};
        {| Type' := "AWS"; Identifiers := IStrings ["arn:b"] |} ].
Proof.
  intros H.
  specialize (H [("AWS", JArr [JStr "arn:a"; JStr "arn:b"])] "AWS" ["arn:a"; "arn:b"]).
  assert (Sorted str_ge ["arn:a"; "arn:b"]) as Hs.
  { apply H; [vm_compute; reflexivity | by left]. }
  inversion Hs as [|?? _ Hhd]; subst. inversion Hhd as [|?? Hge]; subst.
  vm_compute in Hge. discriminate.
Qed.

(** C2, amended: a principal set (other than the wildcard set) whose
    entries hold strings or lists of strings, no string being followed
    by a list of its type, is encoded as an object with one member per
    type, sorted by name.  The value of a type is the concatenation, in
    the order of the entries, of the lists of that type, each list
    sorted in descending order by itself, whatever the entries of the
    other types hold; unless an entry of that type holds a string: then
    it is the string of the last such entry. *)
Theorem MarshalJSON_merges_lists (ps : IAMPolicyStatementPrincipalSet) :
  PrincipalSet.is_wildcard ps = false →
  Forall (fun p => supported (Identifiers p)) ps →
  ¬ string_then_list ps →
  ∃ kvs, encoded_members ps kvs ∧ NoDup kvs.*1 ∧ Sorted key_le kvs ∧
    ∀ T v, (T, v) ∈ kvs ↔
      T ∈ Type' <$> ps ∧
      v = match last_string ps T with
          | Some s => JStr s
          | None => JArr (JStr <$> merged ps T)
          end.
Proof.
  intros Hw Hs Hc.
  destruct (group_grouped ps ∅ Hs Hc) as (raw & Hg & Hlook).
  { intros s q Hr. by rewrite lookup_empty in Hr. }
  { intros T v Hr. by rewrite lookup_empty in Hr. }
  exists (sorted_members (marshal_any <$> raw)).
  split; [|split; [apply NoDup_sorted_members|split; [apply sorted_members_sorted|]]].
  { unfold encoded_members. by rewrite MarshalJSON_not_wildcard, Hg. }
  intros T v. rewrite elem_of_sorted_members, lookup_fmap, Hlook.
  unfold strings_at. rewrite lookup_empty. cbn [app].
  case_decide as HT.
  - cbn [fmap option_fmap option_map]. split.
    + intros [= <-]. split; [done|]. by destruct (last_string ps T).
    + intros [_ ->]. by destruct (last_string ps T).
  - split; [done|]. by intros [HT' _].
Qed.

Lemma MarshalJSON_merges_lists_witness :
  ∃ kvs,
    encoded_members
      [ {| Type' := "AWS"; Identifiers := IStrings ["arn:a"] |};
        {| Type' := "Service"; Identifiers := IStr "s3" |};
        {| Type' := "AWS"; Identifiers := IStrings ["arn:c"; "arn:b"] |} ] kvs ∧
    ("AWS", JArr [JStr "arn:a"; JStr "arn:c"; JStr "arn:b"]) ∈ kvs ∧
    ("Service", JStr "s3") ∈ kvs.
Proof.
  destruct (MarshalJSON_merges_lists
    [ {| Type' := "AWS"; Identifiers := IStrings ["arn:a"] |};
      {| Type' := "Service"; Identifiers := IStr "s3" |};
      {| Type' := "AWS"; Identifiers := IStrings ["arn:c"; "arn:b"] |} ])
    as (kvs & He & _ & _ & Hm).
  - reflexivity.
  - repeat constructor.
  - intros H.
    apply string_then_list_cons in H as [(s & q & l & Hs & _)|H]; [discriminate Hs|].
    apply string_then_list_cons in H as [(s & q & l & _ & Hq & HT & _)|H].
    { apply list_elem_of_singleton in Hq as ->. discriminate HT. }
    apply string_then_list_cons in H as [(s & q & l & Hs & _)|H]; [discriminate Hs|].
    destruct H as (i & j & p & q & s & l & _ & Hp & _). by destruct i.
  - exists kvs. split; [exact He|].
    split; apply Hm; (split; [|reflexivity]).
    + left.
    + right. left.
Defined.

(** C6: the encoder yields the bare string "*" exactly for a set of one
    entry of type "AWS" or "*" whose identifiers are the string "*" or the
    one-element list ["*"]; the two sets of the specification are encoded
    as "*". *)
Theorem MarshalJSON_wildcard_iff :
  (∀ ps : IAMPolicyStatementPrincipalSet,
     (PrincipalSet.MarshalJSON ps).1 = Ok (JStr "*") ↔
     ∃ p, ps = [p] ∧ (Type' p = "AWS" ∨ Type' p = "*") ∧
          (Identifiers p = IStr "*" ∨ Identifiers p = IStrings ["*"])) ∧
  (PrincipalSet.MarshalJSON [ {| Type' := "AWS"; Identifiers := IStr "*" |} ]).1
    = Ok (JStr "*") ∧
  (PrincipalSet.MarshalJSON [ {| Type' := "*"; Identifiers := IStrings ["*"] |} ]).1
    = Ok (JStr "*").
Proof.
  split; [|split; reflexivity].
  intros ps. rewrite <-is_wildcard_spec.
  destruct (PrincipalSet.is_wildcard ps) eqn:Hw.
  - unfold PrincipalSet.MarshalJSON. rewrite Hw. done.
  - rewrite MarshalJSON_not_wildcard by done.
    destruct (PrincipalSet.group ∅ ps).1; split; done.
Qed.

(** ** [DeDupSids] *)

Lemma length_pos_iff (s : string) : Nat.ltb 0 (String.length s) = true ↔ s ≠ "".
Proof. destruct s; simpl; split; done. Qed.

Lemma DeDupSids_step_at (pre suf : list IAMPolicyStatement) s st l :
  l = (Z.of_nat (length (pre ++ [s]) + length suf) - 1)%Z →
  stmts st = Some <$> ((pre ++ [s]) ++ last_occurrences suf) →
  seen_all (sidsSeen st) suf →
  ∃ st', DeDupSids_step l st (length suf) = Ok st' ∧
    stmts st' = Some <$> (pre ++ last_occurrences (s :: suf)) ∧
    seen_all (sidsSeen st') (s :: suf).
Proof.
  intros -> Hst Hseen. unfold DeDupSids_step.
  rewrite length_app. simpl.
  replace (Z.of_nat (length pre + 1 + length suf) - 1 - Z.of_nat (length suf))%Z
    with (Z.of_nat (length pre)) by lia.
  destruct (Z.ltb_spec (Z.of_nat (length pre)) 0) as [?|_]; [lia|].
  rewrite Nat2Z.id.
  assert (stmts st !! length pre = Some (Some s)) as ->.
  { rewrite Hst, list_lookup_fmap, <-app_assoc, lookup_app_r by lia.
    by rewrite Nat.sub_diag. }
  assert (take (length pre) (stmts st) ++ drop (S (length pre)) (stmts st)
          = Some <$> (pre ++ last_occurrences suf)) as Hrm.
  { rewrite Hst, <-app_assoc, !fmap_app.
    rewrite take_app_length' by by rewrite length_fmap.
    f_equal. rewrite app_assoc.
    rewrite drop_app_length' by (rewrite length_app, !length_fmap; simpl; lia). done. }
  destruct (Nat.ltb 0 (String.length (Sid s))) eqn:Hlen.
  - apply length_pos_iff in Hlen.
    eexists. split; [done|]. simpl. split.
    + destruct (default false (sidsSeen st !! Sid s)) eqn:Hs.
      * apply Hseen in Hs. rewrite bool_decide_true by done. done.
      * rewrite bool_decide_false.
        { by rewrite Hst, <-app_assoc. }
        intros [_ Hin]. assert (default false (sidsSeen st !! Sid s) = true) as Ht
          by by apply Hseen. congruence.
    + intros sid. rewrite lookup_insert, fmap_cons, elem_of_cons.
      case_decide as Heq; simpl.
      * subst sid. split; auto.
      * rewrite (Hseen sid). split; [intros [??]; auto|].
        intros [? [?|?]]; [congruence|auto].
  - assert (Sid s = "") as Hs.
    { destruct (Sid s); [done|]. simpl in Hlen. discriminate. }
    exists st. split; [done|]. split.
    + simpl. rewrite bool_decide_false by (intros [? _]; done).
      by rewrite Hst, <-app_assoc.
    + intros sid. rewrite fmap_cons, elem_of_cons, (Hseen sid).
      split; [intros [??]; auto|]. intros [? [?|?]]; [congruence|auto].
Qed.

Lemma DeDupSids_loop_keeps_last (pre suf : list IAMPolicyStatement) st l :
  l = (Z.of_nat (length pre + length suf) - 1)%Z →
  stmts st = Some <$> (pre ++ last_occurrences suf) →
  seen_all (sidsSeen st) suf →
  ∃ st', DeDupSids_loop l st (seq (length suf) (length pre)) = Ok st' ∧
    stmts st' = Some <$> last_occurrences (pre ++ suf).
Proof.
  revert suf st. induction pre as [|s pre IH] using rev_ind; intros suf st Hl Hst Hseen.
  { exists st. done. }
  rewrite length_app, Nat.add_1_r. simpl.
  destruct (DeDupSids_step_at pre suf s st l) as (st1 & -> & Hst1 & Hseen1); auto.
  destruct (IH (s :: suf) st1) as (st' & Hloop & Hst'); auto.
  { rewrite Hl, length_app. simpl. lia. }
  exists st'. split; [done|]. by rewrite <-app_assoc.
Qed.

Lemma DeDupSids_on_statements (d : IAMPolicyDoc) (ss : list IAMPolicyStatement) :
  Statements d = Some (Some <$> ss) →
  DeDupSids d = Ok {| Version := Version d; Id := Id d;
                      Statements := Some (Some <$> last_occurrences ss) |}.
Proof.
  intros Hd. unfold DeDupSids. rewrite Hd, length_fmap.
  destruct (DeDupSids_loop_keeps_last ss []
              {| stmts := Some <$> ss; sidsSeen := ∅ |}
              (Z.of_nat (length ss) - 1)%Z) as (st' & Hloop & Hst').
  - simpl. f_equal. lia.
  - simpl. by rewrite app_nil_r.
  - intros sid. simpl. rewrite lookup_empty. simpl. split; [done|].
    intros [_ Hin]. by apply elem_of_nil in Hin.
  - simpl in Hloop. rewrite Hloop. simpl. rewrite app_nil_r in Hst'. by rewrite Hst'.
Qed.

Lemma last_occurrences_sublist (ss : list IAMPolicyStatement) :
  sublist (last_occurrences ss) ss.
Proof.
  induction ss as [|s ss IH]; simpl; [done|].
  case_bool_decide; by constructor.
Qed.

Lemma last_occurrences_empty_sid (ss : list IAMPolicyStatement) :
  filter (fun s => Sid s = "") (last_occurrences ss) = filter (fun s => Sid s = "") ss.
Proof.
  induction ss as [|s ss IH]; simpl; [done|].
  case_bool_decide as Hd.
  - rewrite filter_cons_False by by destruct Hd. done.
  - rewrite !filter_cons. by rewrite IH.
Qed.

Lemma last_occurrences_sids (ss : list IAMPolicyStatement) sid :
  sid ∈ Sid <$> last_occurrences ss ↔ sid ∈ Sid <$> ss.
Proof.
  induction ss as [|s ss IH]; [done|].
  rewrite fmap_cons, elem_of_cons. simpl last_occurrences.
  case_bool_decide as Hd; rewrite ?fmap_cons, ?elem_of_cons, IH.
  - split; [auto|]. intros [->|?]; [|done]. by destruct Hd.
  - done.
Qed.

Lemma filter_none {A} (P : A → Prop) `{∀ x, Decision (P x)} (l : list A) :
  (∀ x, x ∈ l → ¬ P x) → filter P l = [].
Proof.
  induction l as [|x l IH]; intros Hl; [done|].
  rewrite filter_cons_False by (apply Hl; left).
  apply IH. intros y Hy. apply Hl. by right.
Qed.

(** Of the statements that have a given sid, which is not empty, the last
    one survives and no other. *)
Lemma last_occurrences_last (ss : list IAMPolicyStatement) sid :
  sid ≠ "" → sid ∈ Sid <$> ss →
  ∃ pre s suf, ss = pre ++ s :: suf ∧ Sid s = sid ∧ (sid ∉ Sid <$> suf) ∧
    filter (fun x => Sid x = sid) (last_occurrences ss) = [s].
Proof.
  intros Hne. induction ss as [|s ss IH]; intros Hin.
  { by apply elem_of_nil in Hin. }
  destruct (decide (sid ∈ Sid <$> ss)) as [Hlater|Hlast].
  - destruct (IH Hlater) as (pre & s' & suf & -> & Hs' & Hsuf & Hf).
    exists (s :: pre), s', suf. split; [done|]. split; [done|]. split; [done|].
    simpl. case_bool_decide as Hd; [done|].
    rewrite filter_cons_False; [done|].
    intros Hs. apply Hd. rewrite Hs. done.
  - rewrite fmap_cons in Hin. apply elem_of_cons in Hin as [Hs|?]; [|done].
    exists [], s, ss. split; [done|]. split; [done|]. split; [done|].
    simpl. rewrite bool_decide_false by (intros [_ ?]; congruence).
    rewrite filter_cons_True by done. f_equal.
    apply filter_none. intros x Hx Hsx.
    apply Hlast. rewrite <-Hsx.
    apply list_elem_of_fmap_2. eapply elem_of_sublist; [exact Hx|].
    apply last_occurrences_sublist.
Qed.

(** Membership in a list that is written out. *)
Ltac in_list :=
  repeat first [apply list_elem_of_here | apply list_elem_of_further].
Ltac not_in_list H :=
  repeat (apply elem_of_cons in H as [H|H]; [congruence|]);
  by apply elem_of_nil in H.

Lemma doc_with_sids_statements (sids : list string) :
  Statements (doc_with_sids sids) = Some (Some <$> (statement_with_sid <$> sids)).
Proof. simpl. f_equal. by rewrite <-list_fmap_compose. Qed.

Lemma DeDupSids_doc_with_sids (sids sids' : list string) :
  last_occurrences (statement_with_sid <$> sids) = statement_with_sid <$> sids' →
  DeDupSids (doc_with_sids sids) = Ok (doc_with_sids sids').
Proof.
  intros Hl.
  rewrite (DeDupSids_on_statements _ _ (doc_with_sids_statements sids)), Hl.
  unfold doc_with_sids. simpl. by rewrite <-list_fmap_compose.
Qed.

(** C3: [DeDupSids] keeps the statements of [last_occurrences], in their
    order: every statement with an empty sid, and of the statements with
    a given sid the last one only.  The sids [A; B; A; C; B] become
    [A; C; B], and ["", "", X] stays as it is; a document without
    statements stays as it is. *)
Theorem DeDupSids_keeps_last_occurrence :
  (∀ (d : IAMPolicyDoc) (ss : list IAMPolicyStatement),
     Statements d = Some (Some <$> ss) →
     DeDupSids d = Ok {| Version := Version d; Id := Id d;
                         Statements := Some (Some <$> last_occurrences ss) |} ∧
     sublist (last_occurrences ss) ss ∧
     filter (fun s => Sid s = "") (last_occurrences ss)
       = filter (fun s => Sid s = "") ss ∧
     ∀ sid, sid ≠ "" → sid ∈ Sid <$> ss →
       ∃ pre s suf, ss = pre ++ s :: suf ∧ Sid s = sid ∧ (sid ∉ Sid <$> suf) ∧
         filter (fun x => Sid x = sid) (last_occurrences ss) = [s]) ∧
  (∀ A B C : string,
     A ≠ "" → B ≠ "" → C ≠ "" → A ≠ B → A ≠ C → B ≠ C →
     DeDupSids (doc_with_sids [A; B; A; C; B]) = Ok (doc_with_sids [A; C; B])) ∧
  (∀ X : string,
     DeDupSids (doc_with_sids [""; ""; X]) = Ok (doc_with_sids [""; ""; X])) ∧
  (∀ d : IAMPolicyDoc, Statements d = None → DeDupSids d = Ok d).
Proof.
  split; [|split; [|split]]; [| | |by intros d Hd; unfold DeDupSids; rewrite Hd].
  - intros d ss Hd. split; [by apply DeDupSids_on_statements|].
    split; [apply last_occurrences_sublist|].
    split; [apply last_occurrences_empty_sid|].
    apply last_occurrences_last.
  - intros A B C HA HB HC HAB HAC HBC. apply DeDupSids_doc_with_sids.
    cbn [fmap list_fmap last_occurrences Sid statement_with_sid].
    rewrite (bool_decide_true (A ≠ "" ∧ _)) by (split; [done|in_list]).
    rewrite (bool_decide_true (B ≠ "" ∧ _)) by (split; [done|in_list]).
    rewrite (bool_decide_false (A ≠ "" ∧ _)) by (intros [_ Hin]; not_in_list Hin).
    rewrite (bool_decide_false (C ≠ "" ∧ _)) by (intros [_ Hin]; not_in_list Hin).
    rewrite (bool_decide_false (B ≠ "" ∧ _)) by (intros [_ Hin]; not_in_list Hin).
    done.
  - intros X. apply DeDupSids_doc_with_sids.
    cbn [fmap list_fmap last_occurrences Sid statement_with_sid].
    rewrite !(bool_decide_false ("" ≠ "" ∧ _)) by (intros [? _]; done).
    rewrite (bool_decide_false (X ≠ "" ∧ _)) by (intros [_ Hin]; not_in_list Hin).
    done.
Qed.

Lemma DeDupSids_keeps_last_occurrence_witness :
  DeDupSids (doc_with_sids ["A"; "B"; "A"; "C"; "B"])
    = Ok (doc_with_sids ["A"; "C"; "B"]).
Proof.
  apply (proj1 (proj2 DeDupSids_keeps_last_occurrence) "A" "B" "C"); discriminate.
Defined.

(** ** A string and a list under one type *)

Lemma marshalled_string raw T s :
  (T, JStr s) ∈ sorted_members (marshal_any <$> <[T := IStr s]> raw).
Proof. by rewrite elem_of_sorted_members, lookup_fmap, lookup_insert_eq. Qed.

(** The loop has no error to return: it ends or it panics. *)
Lemma group_value_no_error msg raw key v e :
  (group_value msg raw key v).1 ≠ Err e.
Proof.
  destruct v; simpl; try done. unfold append_strings.
  destruct (raw !! key) as [w|]; [|by rewrite lookup_insert_eq].
  by destruct (raw !! key) as [[]|].
Qed.

Lemma group_no_error raw (ps : IAMPolicyStatementPrincipalSet) e :
  (PrincipalSet.group raw ps).1 ≠ Err e.
Proof.
  revert raw. induction ps as [|p ps IH]; intros raw; [done|].
  rewrite group_cons.
  pose proof (group_value_no_error PrincipalSet.panic_msg raw (Type' p) (Identifiers p)) as Hv.
  destruct (group_value _ raw (Type' p) (Identifiers p)).1 as [raw'|e'|x];
    [apply IH|by destruct (Hv e')|done].
Qed.

Lemma sorted_members_singleton {A} (k : string) (v : A) :
  sorted_members ({[k := v]} : gmap string A) = [(k, v)].
Proof. unfold sorted_members. by rewrite map_to_list_singleton. Qed.

(** C9: a principal set in which an entry of some type holds a string and
    a later entry of the same type holds a list makes the encoder panic
    (on the conversion [raw[p.Type].([]string)] when the two entries are
    all there is).  A string that comes after a list or a string of its
    type replaces it, without any error: the encoder returns, and the
    member of a type is the string of the last entry of that type that
    holds one. *)
Theorem MarshalJSON_string_then_list_panics :
  (∀ T s l,
     (PrincipalSet.MarshalJSON
        [ {| Type' := T; Identifiers := IStr s |};
          {| Type' := T; Identifiers := IStrings l |} ]).1
     = Panic (InterfaceConversion TString TStrings)) ∧
  (∀ (ps : IAMPolicyStatementPrincipalSet) i j p q s l,
     i < j → ps !! i = Some p → ps !! j = Some q →
     Type' p = Type' q → Identifiers p = IStr s → Identifiers q = IStrings l →
     is_Panic (PrincipalSet.MarshalJSON ps).1) ∧
  (∀ T l s,
     (PrincipalSet.MarshalJSON
        [ {| Type' := T; Identifiers := IStrings l |};
          {| Type' := T; Identifiers := IStr s |} ]).1
     = Ok (JObj [(T, JStr s)])) ∧
  (∀ T s' s,
     (PrincipalSet.MarshalJSON
        [ {| Type' := T; Identifiers := IStr s' |};
          {| Type' := T; Identifiers := IStr s |} ]).1
     = Ok (JObj [(T, JStr s)])) ∧
  (∀ (ps : IAMPolicyStatementPrincipalSet) T s,
     PrincipalSet.is_wildcard ps = false →
     Forall (fun p => supported (Identifiers p)) ps →
     ¬ string_then_list ps →
     last_string ps T = Some s →
     ∃ kvs, encoded_members ps kvs ∧ (T, JStr s) ∈ kvs ∧
       ∀ v, (T, v) ∈ kvs → v = JStr s).
Proof.
  split; [|split; [|split; [|split]]].
  - intros T s l. rewrite MarshalJSON_not_wildcard by done.
    rewrite !group_cons. simpl. unfold append_strings.
    by rewrite !lookup_insert_eq.
  - intros ps i j p q s l Hij Hp Hq HT Hs Hl.
    assert (PrincipalSet.is_wildcard ps = false) as Hw.
    { destruct ps as [|a [|b ps']]; [by destruct i| |done].
      destruct j as [|j]; [lia|]. simpl in Hq. by rewrite lookup_nil in Hq. }
    rewrite MarshalJSON_not_wildcard by done.
    rewrite <-(take_drop_middle ps i p Hp), group_app.
    destruct (PrincipalSet.group ∅ (take i ps)).1 as [raw|e|x] eqn:Hpre;
      [|by apply group_no_error in Hpre|done].
    rewrite group_cons, Hs. simpl.
    assert (is_Panic (PrincipalSet.group (<[Type' p := IStr s]> raw) (drop (S i) ps)).1)
      as Hpanic.
    { apply (group_string_then_list _ _ (Type' p) s q l); auto.
      - by rewrite lookup_insert_eq.
      - apply list_elem_of_lookup. exists (j - S i).
        rewrite lookup_drop. rewrite <-Hq. f_equal. lia. }
    by destruct (PrincipalSet.group _ (drop (S i) ps)).1.
  - intros T l s. rewrite MarshalJSON_not_wildcard by done.
    rewrite group_cons. cbn [Type' Identifiers].
    rewrite group_value_list;
      [|intros ?; by rewrite lookup_empty|intros ? H; by rewrite lookup_empty in H].
    rewrite group_cons. cbn [Type' Identifiers group_value fst PrincipalSet.group].
    unfold PrincipalSet.marshal_raw.
    rewrite insert_insert_eq, insert_empty, map_fmap_singleton.
    by rewrite sorted_members_singleton.
  - intros T s' s. rewrite MarshalJSON_not_wildcard by done.
    rewrite group_cons. cbn [Type' Identifiers group_value fst].
    rewrite group_cons. cbn [Type' Identifiers group_value fst PrincipalSet.group].
    unfold PrincipalSet.marshal_raw.
    rewrite insert_insert_eq, insert_empty, map_fmap_singleton.
    by rewrite sorted_members_singleton.
  - intros ps T s Hw Hs Hc Hlast.
    destruct (group_grouped ps ∅ Hs Hc) as (raw & Hg & Hlook).
    { intros s0 q Hr. by rewrite lookup_empty in Hr. }
    { intros T0 v Hr. by rewrite lookup_empty in Hr. }
    assert (raw !! T = Some (IStr s)) as HT.
    { rewrite Hlook, Hlast. rewrite decide_True; [done|].
      destruct (decide (T ∈ Type' <$> ps)) as [|Hn]; [done|].
      rewrite last_string_other in Hlast by done. discriminate Hlast. }
    exists (sorted_members (marshal_any <$> raw)). split; [|split].
    + unfold encoded_members. by rewrite MarshalJSON_not_wildcard, Hg.
    + by rewrite elem_of_sorted_members, lookup_fmap, HT.
    + intros v. rewrite elem_of_sorted_members, lookup_fmap, HT. by intros [= <-].
Qed.

Lemma MarshalJSON_string_then_list_panics_witness :
  is_Panic (PrincipalSet.MarshalJSON
              [ {| Type' := "AWS"; Identifiers := IStr "arn:a" |};
                {| Type' := "Service"; Identifiers := IStrings ["s3"] |};
                {| Type' := "AWS"; Identifiers := IStrings ["arn:b"] |} ]).1 ∧
  ∃ kvs,
    encoded_members
      [ {| Type' := "AWS"; Identifiers := IStrings ["arn:b"] |};
        {| Type' := "Service"; Identifiers := IStrings ["s3"] |};
        {| Type' := "AWS"; Identifiers := IStr "arn:a" |} ] kvs ∧
    ("AWS", JStr "arn:a") ∈ kvs.
Proof.
  split.
  - apply (proj1 (proj2 MarshalJSON_string_then_list_panics) _ 0 2
             {| Type' := "AWS"; Identifiers := IStr "arn:a" |}
             {| Type' := "AWS"; Identifiers := IStrings ["arn:b"] |} "arn:a" ["arn:b"]);
      [lia | reflexivity..].
  - destruct (proj2 (proj2 (proj2 (proj2 MarshalJSON_string_then_list_panics)))
      [ {| Type' := "AWS"; Identifiers := IStrings ["arn:b"] |};
        {| Type' := "Service"; Identifiers := IStrings ["s3"] |};
        {| Type' := "AWS"; Identifiers := IStr "arn:a" |} ] "AWS" "arn:a")
      as (kvs & He & Hin & _).
    + reflexivity.
    + repeat constructor.
    + intros H.
      apply string_then_list_cons in H as [(s & q & l & Hs & _)|H]; [discriminate Hs|].
      apply string_then_list_cons in H as [(s & q & l & Hs & _)|H]; [discriminate Hs|].
      apply string_then_list_cons in H as [(s & q & l & _ & Hq & _)|H];
        [by apply elem_of_nil in Hq|].
      destruct H as (i & j & p & q & s & l & _ & Hp & _). by destruct i.
    + reflexivity.
    + exists kvs. by split.
Defined.

(** ** What encoding does to the structure it is given *)

Lemma cs_group_condition_leaves raw c :
  (ConditionSet.group_condition raw c).2 = sort_condition c.
Proof.
  unfold ConditionSet.group_condition.
  pose proof (group_value_leaves ConditionSet.panic_msg
                (default ∅ (raw !! Test c)) (Variable' c) (Values c)) as Hl.
  destruct (group_value _ _ (Variable' c) (Values c)) as [[inner|e|x] vs];
    simpl in *; by subst vs.
Qed.

Lemma cs_group_leaves raw (cs : IAMPolicyStatementConditionSet) :
  ∃ k, (ConditionSet.group raw cs).2 = (sort_condition <$> take k cs) ++ drop k cs ∧
       (is_Ok (ConditionSet.group raw cs).1 → (length cs ≤ k)%nat).
Proof.
  revert raw. induction cs as [|c cs IH]; intros raw; simpl.
  { exists 0. split; [done|]. simpl; lia. }
  pose proof (cs_group_condition_leaves raw c) as Hl.
  destruct (ConditionSet.group_condition raw c) as [[raw'|e|x] c']; simpl in *; subst c'.
  - destruct (IH raw') as (k & Hk & Hok).
    destruct (ConditionSet.group raw' cs) as [r s]; simpl in *.
    exists (S k). split; [by rewrite Hk|]. intros H. specialize (Hok H). simpl. lia.
  - exists 1. split; [done|]. done.
  - exists 1. split; [done|]. done.
Qed.

Lemma sorted_prefix_all {A} (f : A → A) (l : list A) k :
  (length l ≤ k)%nat → (f <$> take k l) ++ drop k l = f <$> l.
Proof. intros Hk. by rewrite take_ge, drop_ge, app_nil_r by lia. Qed.

Lemma cs_MarshalJSON_split (cs : IAMPolicyStatementConditionSet) :
  (ConditionSet.MarshalJSON cs).2 = (ConditionSet.group ∅ cs).2 ∧
  (is_Ok (ConditionSet.MarshalJSON cs).1 → is_Ok (ConditionSet.group ∅ cs).1).
Proof.
  unfold ConditionSet.MarshalJSON.
  by destruct (ConditionSet.group ∅ cs) as [[raw|e|x] cs'].
Qed.

(** C7, counterexample: after the encoding of a principal set that holds
    the list ["a"; "b"], the set holds ["b"; "a"]. *)
Lemma MarshalJSON_reorders_identifiers :
  ¬ encoding_leaves_untouched
      [ {| Type' := "AWS"; Identifiers := IStrings ["a"; "b"] |} ].
Proof. unfold encoding_leaves_untouched. vm_compute. discriminate. Qed.

(** C7, amended: the encoders of principal sets and of condition sets
    sort in place, in descending order, the lists of the entries they
    visit, a prefix of the set, and leave every other value as it is;
    after an encoding that returns, every list of the set is sorted: it
    holds the elements it held, in descending order.
    [iamPolicyDecodeConfigStringList] leaves its argument as it is. *)
Theorem encoders_sort_lists_in_place :
  (∀ ps : IAMPolicyStatementPrincipalSet,
     (∃ k, (PrincipalSet.MarshalJSON ps).2 = (sort_principal <$> take k ps) ++ drop k ps) ∧
     (is_Ok (PrincipalSet.MarshalJSON ps).1 →
      (PrincipalSet.MarshalJSON ps).2 = sort_principal <$> ps)) ∧
  (∀ cs : IAMPolicyStatementConditionSet,
     (∃ k, (ConditionSet.MarshalJSON cs).2 = (sort_condition <$> take k cs) ++ drop k cs) ∧
     (is_Ok (ConditionSet.MarshalJSON cs).1 →
      (ConditionSet.MarshalJSON cs).2 = sort_condition <$> cs)) ∧
  (∀ lI : list iface, (iamPolicyDecodeConfigStringList lI).2 = lI) ∧
  (∀ l : list string,
     sort_in_place (IStrings l) = IStrings (sort_desc l) ∧
     sort_desc l ≡ₚ l ∧ Sorted str_ge (sort_desc l)) ∧
  (∀ v : iface, ¬ holds_strings v → sort_in_place v = v).
Proof.
  split; [|split; [|split; [|split]]].
  - intros ps. rewrite MarshalJSON_leaves.
    destruct (PrincipalSet.is_wildcard ps) eqn:Hw.
    + split; [by exists 0|]. intros _.
      apply is_wildcard_spec in Hw as (p & -> & _ & Hi).
      destruct p as [T ids]. simpl in Hi. by destruct Hi as [-> | ->].
    + destruct (group_leaves ∅ ps) as (k & Hk & Hok).
      split; [by exists k|]. intros H.
      rewrite Hk. apply sorted_prefix_all, Hok.
      rewrite MarshalJSON_not_wildcard in H by done.
      by destruct (PrincipalSet.group ∅ ps).1.
  - intros cs. destruct (cs_MarshalJSON_split cs) as [-> Hok'].
    destruct (cs_group_leaves ∅ cs) as (k & Hk & Hok).
    split; [by exists k|]. intros H.
    rewrite Hk. by apply sorted_prefix_all, Hok, Hok'.
  - intros lI. unfold iamPolicyDecodeConfigStringList.
    by destruct lI as [|? [|? ?]].
  - intros l. split; [done|]. split; [apply sort_desc_perm|apply sort_desc_sorted].
  - intros v Hv. destruct v; try done. destruct Hv. by eexists.
Qed.

Lemma encoders_sort_lists_in_place_witness :
  (PrincipalSet.MarshalJSON
     [ {| Type' := "AWS"; Identifiers := IStrings ["a"; "b"] |} ]).2
  = sort_principal <$> [ {| Type' := "AWS"; Identifiers := IStrings ["a"; "b"] |} ].
Proof.
  apply (proj2 (proj1 encoders_sort_lists_in_place
                  [ {| Type' := "AWS"; Identifiers := IStrings ["a"; "b"] |} ])).
  vm_compute. exact I.
Defined.

(** ** Which members an encoded statement has *)

Lemma omitempty_string_keys name s k :
  k ∈ (omitempty_string name s).*1 ↔ k = name ∧ s ≠ "".
Proof.
  unfold omitempty_string. destruct (String.eqb_spec s "") as [->|Hs]; simpl.
  - rewrite elem_of_nil. split; [done|]. by intros [_ ?].
  - rewrite list_elem_of_singleton. split; [done|]. by intros [? _].
Qed.

Lemma omitempty_iface_keys name v f k :
  omitempty_iface name v = Ok f → k ∈ f.*1 ↔ k = name ∧ v ≠ INil.
Proof.
  unfold omitempty_iface. intros Hf.
  assert (v = INil ∧ f = [] ∨ v ≠ INil ∧ ∃ j, f = [(name, j)]) as [[-> ->]|[Hv [j ->]]].
  { destruct v; try (left; split; [done|congruence]); right; (split; [done|]);
      destruct (json_Marshal _) as [j| |]; simpl in Hf; try done;
      injection Hf as <-; by eexists. }
  - rewrite elem_of_nil. split; [done|]. by intros [_ ?].
  - simpl. rewrite list_elem_of_singleton. split; [done|]. by intros [? _].
Qed.

Lemma omitempty_set_keys {A} (M : list A → outcome json * list A) name set f k :
  (omitempty_set M name set).1 = Ok f → k ∈ f.*1 ↔ k = name ∧ set ≠ [].
Proof.
  unfold omitempty_set. destruct set as [|a set].
  - intros [= <-]. rewrite elem_of_nil. split; [done|]. by intros [_ ?].
  - destruct (M (a :: set)) as [[j|e|x] set']; simpl; try done.
    intros [= <-]. simpl. rewrite list_elem_of_singleton. split; [done|]. by intros [? _].
Qed.

Lemma marshal_statement_members (s : IAMPolicyStatement) j :
  (marshal_statement s).1 = Ok j →
  ∃ a na r nr f1 f2 f3,
    omitempty_iface "Action" (Actions s) = Ok a ∧
    omitempty_iface "NotAction" (NotActions s) = Ok na ∧
    omitempty_iface "Resource" (Resources s) = Ok r ∧
    omitempty_iface "NotResource" (NotResources s) = Ok nr ∧
    (omitempty_set PrincipalSet.MarshalJSON "Principal" (Principals s)).1 = Ok f1 ∧
    (omitempty_set PrincipalSet.MarshalJSON "NotPrincipal" (NotPrincipals s)).1 = Ok f2 ∧
    (omitempty_set ConditionSet.MarshalJSON "Condition" (Conditions s)).1 = Ok f3 ∧
    j = JObj ([("Sid", JStr (Sid s))] ++
              omitempty_string "Effect" (Effect s) ++
              a ++ na ++ r ++ nr ++ f1 ++ f2 ++ f3).
Proof.
  unfold marshal_statement, marshal_head.
  destruct (omitempty_iface "Action" _) as [a|e|x]; simpl; try done.
  destruct (omitempty_iface "NotAction" _) as [na|e|x]; simpl; try done.
  destruct (omitempty_iface "Resource" _) as [r|e|x]; simpl; try done.
  destruct (omitempty_iface "NotResource" _) as [nr|e|x]; simpl; try done.
  destruct (omitempty_set _ "Principal" (Principals s)) as [[f1|e|x] ps]; simpl; try done.
  destruct (omitempty_set _ "NotPrincipal" (NotPrincipals s)) as [[f2|e|x] nps]; simpl; try done.
  destruct (omitempty_set _ "Condition" (Conditions s)) as [[f3|e|x] cs]; simpl; try done.
  intros [= <-]. exists a, na, r, nr, f1, f2, f3. repeat split; try done.
  by rewrite <-!app_assoc.
Qed.

Lemma statement_keys (s : IAMPolicyStatement) kvs k :
  (marshal_statement s).1 = Ok (JObj kvs) →
  k ∈ kvs.*1 ↔
    k = "Sid" ∨ (k = "Effect" ∧ Effect s ≠ "") ∨
    (k = "Action" ∧ Actions s ≠ INil) ∨ (k = "NotAction" ∧ NotActions s ≠ INil) ∨
    (k = "Resource" ∧ Resources s ≠ INil) ∨ (k = "NotResource" ∧ NotResources s ≠ INil) ∨
    (k = "Principal" ∧ Principals s ≠ []) ∨ (k = "NotPrincipal" ∧ NotPrincipals s ≠ []) ∨
    (k = "Condition" ∧ Conditions s ≠ []).
Proof.
  intros (a & na & r & nr & f1 & f2 & f3 & Ha & Hna & Hr & Hnr & H1 & H2 & H3 & [= ->])
    %marshal_statement_members.
  rewrite fmap_cons, elem_of_cons, !fmap_app, !elem_of_app.
  rewrite omitempty_string_keys.
  rewrite (omitempty_iface_keys _ _ _ k Ha), (omitempty_iface_keys _ _ _ k Hna),
    (omitempty_iface_keys _ _ _ k Hr), (omitempty_iface_keys _ _ _ k Hnr).
  rewrite (omitempty_set_keys _ _ _ _ k H1), (omitempty_set_keys _ _ _ _ k H2),
    (omitempty_set_keys _ _ _ _ k H3).
  done.
Qed.

Lemma Encode_members (d : IAMPolicyDoc) j :
  (Encode d).1 = Ok j →
  ∃ v, j = JObj (omitempty_string "Version" (Version d) ++
                 omitempty_string "Id" (Id d) ++ [("Statement", v)]).
Proof.
  unfold Encode. destruct (Statements d) as [l|]; simpl.
  - destruct (marshal_statements l) as [[js|e|x] l']; simpl; try done.
    intros [= <-]. eexists. by rewrite <-app_assoc.
  - intros [= <-]. eexists. by rewrite <-app_assoc.
Qed.

Lemma doc_keys (d : IAMPolicyDoc) kvs k :
  (Encode d).1 = Ok (JObj kvs) →
  k ∈ kvs.*1 ↔
    (k = "Version" ∧ Version d ≠ "") ∨ (k = "Id" ∧ Id d ≠ "") ∨ k = "Statement".
Proof.
  intros [v [= ->]]%Encode_members.
  rewrite !fmap_app, !elem_of_app, !omitempty_string_keys.
  simpl. rewrite list_elem_of_singleton. done.
Qed.

(** C8, counterexample: a statement whose sid is empty is encoded with
    the member ["Sid": ""]. *)
Lemma empty_sid_is_emitted : ¬ empty_sid_omitted zero_statement.
Proof.
  intros H. apply (H eq_refl [("Sid", JStr "")]); [reflexivity|]. by left.
Qed.

(** C8, amended: in an encoded statement "Sid" is always present, with
    the sid as its value even when it is empty; a field tagged
    [omitempty] is present exactly when it is not empty: "Effect" when
    the string is not empty, "Action", "NotAction", "Resource" and
    "NotResource" when the value is not nil, "Principal", "NotPrincipal"
    and "Condition" when the set has an entry.  In an encoded document
    "Version" and "Id" are present exactly when they are not empty, and
    "Statement" always. *)
Theorem omitempty_fields :
  (∀ (s : IAMPolicyStatement) kvs,
     (marshal_statement s).1 = Ok (JObj kvs) →
     ("Sid", JStr (Sid s)) ∈ kvs ∧
     ("Effect" ∈ kvs.*1 ↔ Effect s ≠ "") ∧
     ("Action" ∈ kvs.*1 ↔ Actions s ≠ INil) ∧
     ("NotAction" ∈ kvs.*1 ↔ NotActions s ≠ INil) ∧
     ("Resource" ∈ kvs.*1 ↔ Resources s ≠ INil) ∧
     ("NotResource" ∈ kvs.*1 ↔ NotResources s ≠ INil) ∧
     ("Principal" ∈ kvs.*1 ↔ Principals s ≠ []) ∧
     ("NotPrincipal" ∈ kvs.*1 ↔ NotPrincipals s ≠ []) ∧
     ("Condition" ∈ kvs.*1 ↔ Conditions s ≠ [])) ∧
  (∀ (d : IAMPolicyDoc) kvs,
     (Encode d).1 = Ok (JObj kvs) →
     ("Version" ∈ kvs.*1 ↔ Version d ≠ "") ∧
     ("Id" ∈ kvs.*1 ↔ Id d ≠ "") ∧
     "Statement" ∈ kvs.*1).
Proof.
  split.
  - intros s kvs Hs.
    pose proof (fun k => statement_keys s kvs k Hs) as Hk.
    split.
    { apply marshal_statement_members in Hs
        as (a & na & r & nr & f1 & f2 & f3 & _ & _ & _ & _ & _ & _ & _ & [= ->]).
      by left. }
    repeat split; try (intros H; apply Hk in H;
      repeat (destruct H as [H|H]); try discriminate H;
      destruct H as [H ?]; (discriminate H || assumption));
      intros H; apply Hk; auto 12.
  - intros d kvs Hd.
    pose proof (fun k => doc_keys d kvs k Hd) as Hk.
    repeat split; try (intros H; apply Hk in H;
      repeat (destruct H as [H|H]); try discriminate H;
      destruct H as [H ?]; (discriminate H || assumption));
      try (intros H; apply Hk; auto 12).
    apply Hk. auto.
Qed.

Lemma omitempty_fields_witness :
  ("Sid", JStr "") ∈ [("Sid", JStr ""); ("Effect", JStr "Allow")] ∧
  ("Effect" ∈ [("Sid", JStr ""); ("Effect", JStr "Allow")].*1 ↔ "Allow" ≠ "").
Proof.
  pose proof (proj1 omitempty_fields
    {| Sid := ""; Effect := "Allow"; Actions := INil; NotActions := INil;
       Resources := INil; NotResources := INil;
       Principals := []; NotPrincipals := []; Conditions := [] |}
    [("Sid", JStr ""); ("Effect", JStr "Allow")] eq_refl) as H.
  split; [apply H|apply H].
Defined.

(** ** Decoding *)

(** C4, counterexample: the statement [{"Action": 5}] is decoded. *)
Lemma action_number_is_accepted : ¬ action_rejected (JNum 5).
Proof.
  intros H. destruct (H (Ok (statement_with_actions (INum 5)))) as [e He].
  - by left.
  - discriminate He.
Qed.

(** C4, amended: decoding a statement whose "Action" member holds a
    JSON value succeeds whatever the shape of the value, provided that
    every number in it has a float64; the field receives the value as
    [encoding/json] decodes it into an [interface{}], the number 5 for
    [5] and the nearest float64 for a larger integer.  No shape is
    rejected.  The one error is that of [json.Unmarshal] for a number
    that has no float64. *)
Theorem action_decodes_any_value :
  (∀ v : json,
     numbers_fit v = true →
     DecodeStatement (JObj [("Action", v)])
     = [Ok (statement_with_actions (unmarshal_any v))]) ∧
  (∀ v : json,
     numbers_fit v = false →
     DecodeStatement (JObj [("Action", v)]) = [Err UnmarshalTypeError]) ∧
  DecodeStatement (JObj [("Action", JNum 5)])
    = [Ok (statement_with_actions (INum 5))] ∧
  DecodeStatement (JObj [("Action", JNum (2 ^ 53 + 1))])
    = [Ok (statement_with_actions (INum (2 ^ 53)))] ∧
  DecodeStatement (JObj [("Action", JNum (10 ^ 400))])
    = [Err UnmarshalTypeError] ∧
  (∀ (s : IAMPolicyStatement) (saved : option error) (v : json),
     numbers_fit v = true →
     decode_statement_field (s, saved) ("Action", v)
     = [Ok ({| Sid := Sid s; Effect := Effect s; Actions := unmarshal_any v;
               NotActions := NotActions s; Resources := Resources s;
               NotResources := NotResources s; Principals := Principals s;
               NotPrincipals := NotPrincipals s; Conditions := Conditions s |},
            saved)]).
Proof.
  assert (∀ (s : IAMPolicyStatement) (saved : option error) (v : json),
     numbers_fit v = true →
     decode_statement_field (s, saved) ("Action", v)
     = [Ok ({| Sid := Sid s; Effect := Effect s; Actions := unmarshal_any v;
               NotActions := NotActions s; Resources := Resources s;
               NotResources := NotResources s; Principals := Principals s;
               NotPrincipals := NotPrincipals s; Conditions := Conditions s |},
            saved)]) as Hfield.
  { intros s saved v Hv. cbn. unfold decode_iface. by rewrite Hv. }
  split; [|split; [|split; [|split; [|split]]]];
    [| |vm_compute; reflexivity..|exact Hfield].
  - intros v Hv. unfold DecodeStatement, decode_statement, decode_members.
    by rewrite (Hfield _ _ _ Hv).
  - intros v Hv. cbn. unfold decode_iface. rewrite Hv. by destruct v.
Qed.

Lemma action_decodes_any_value_witness :
  DecodeStatement (JObj [("Action", JArr [JStr "s3:GetObject"; JNum 5; JBool true])])
  = [Ok (statement_with_actions (IArr [IStr "s3:GetObject"; INum 5; IBool true]))].
Proof.
  apply (proj1 action_decodes_any_value
           (JArr [JStr "s3:GetObject"; JNum 5; JBool true])).
  reflexivity.
Defined.

(** Members are matched with the fields without regard to case. *)
Example DecodeStatement_ignores_case :
  DecodeStatement (JObj [("action", JStr "s3:GetObject")])
  = [Ok (statement_with_actions (IStr "s3:GetObject"))] ∧
  DecodeStatement (JObj [("ACTION", JNum (10 ^ 400))]) = [Err UnmarshalTypeError].
Proof. split; vm_compute; reflexivity. Qed.

(** A "Statement" member that comes again is decoded into the
    statements that are there: a field that it does not name keeps its
    value. *)
Example Decode_second_Statement :
  Decode (JObj [("Statement", JArr [JObj [("Sid", JStr "a"); ("Effect", JStr "Allow")];
                                    JObj [("Sid", JStr "c")]]);
                ("Statement", JArr [JObj [("Sid", JStr "b")]])])
  = [Ok {| Version := ""; Id := "";
           Statements :=
             Some [Some {| Sid := "b"; Effect := "Allow"; Actions := INil;
                           NotActions := INil; Resources := INil;
                           NotResources := INil; Principals := [];
                           NotPrincipals := []; Conditions := [] |}] |}].
Proof. vm_compute. reflexivity. Qed.

(** C1: a document whose statement names the principals ["a"; "b"] of
    type "AWS" is encoded, the encoding is decoded, in the one way there
    is, to a document whose identifiers are a [[]interface{}], and the
    encoder panics on that document. *)
Theorem Encode_Decode_Encode_panics :
  ∃ j d',
    (Encode (doc_with_principals
               [ {| Type' := "AWS"; Identifiers := IStrings ["a"; "b"] |} ])).1 = Ok j ∧
    Decode j = [Ok d'] ∧
    d' = doc_with_principals
           [ {| Type' := "AWS"; Identifiers := IArr [IStr "b"; IStr "a"] |} ] ∧
    (Encode d').1 = Panic (PanicMsg PrincipalSet.panic_msg).
Proof.
  eexists _, _. split; [vm_compute; reflexivity|].
  split; [vm_compute; reflexivity|].
  split; [reflexivity|]. vm_compute. reflexivity.
Qed.

(** ** The loops of [ConditionSet.UnmarshalJSON] *)

Lemma elem_of_mapM_list {A B} (f : A → list B) (l : list A) (k : list B) :
  k ∈ mapM f l ↔ Forall2 (fun x y => y ∈ f x) l k.
Proof.
  revert k. induction l as [|x l IH]; intros k; simpl.
  - rewrite list_elem_of_ret. split; [by intros ->|by inversion 1].
  - rewrite list_elem_of_bind. split.
    + intros (y & Hk & Hy). apply list_elem_of_bind in Hk as (k' & Hk & Hk').
      apply list_elem_of_ret in Hk as ->. constructor; [done|]. by apply IH.
    + inversion 1 as [|? y ? k' Hy Hk']; subst. exists y. split; [|done].
      apply list_elem_of_bind. exists k'. split; [by apply list_elem_of_ret|by apply IH].
Qed.

(** An order of visit goes through the tests of [data], each once, and
    through the variables of each test, each once. *)
Lemma visit_orders_spec data order :
  order ∈ ConditionSet.visit_orders data ↔
  ∃ tests, map_to_list data ≡ₚ tests ∧
    Forall2 (fun (tm : string * gmap string iface) (tv : string * list (string * iface)) =>
               tv.1 = tm.1 ∧ map_to_list tm.2 ≡ₚ tv.2) tests order.
Proof.
  unfold ConditionSet.visit_orders. rewrite list_elem_of_bind.
  split.
  - intros (tests & Ho & Ht). exists tests.
    split; [by apply permutations_Permutation|].
    apply elem_of_mapM_list in Ho. eapply Forall2_impl; [exact Ho|].
    intros tm tv (vars & -> & Hv)%list_elem_of_fmap. simpl.
    split; [done|]. by apply permutations_Permutation.
  - intros (tests & Ht & Ho). exists tests.
    split; [|by apply permutations_Permutation].
    apply elem_of_mapM_list. eapply Forall2_impl; [exact Ho|].
    intros tm [t vars] [Ht' Hv]. simpl in *. subst t.
    apply list_elem_of_fmap. exists vars. split; [done|].
    by apply permutations_Permutation.
Qed.

Lemma visit_orders_nonempty data : ConditionSet.visit_orders data ≠ [].
Proof.
  intros H.
  assert (((fun tm : string * gmap string iface => (tm.1, map_to_list tm.2))
             <$> map_to_list data) ∈ ConditionSet.visit_orders data) as Hin.
  { apply visit_orders_spec. exists (map_to_list data). split; [done|].
    apply Forall2_fmap_r, Forall_Forall2_diag, Forall_forall. by intros [t m] _. }
  rewrite H in Hin. by apply elem_of_nil in Hin.
Qed.

(** Along one order of visit. *)
Section visit_order.
Context (data : gmap string (gmap string iface)).
Context (order : list (string * list (string * iface))).
Hypothesis Horder : order ∈ ConditionSet.visit_orders data.

Lemma visit_orders_visited t vars :
  (t, vars) ∈ order →
  ∃ inner, data !! t = Some inner ∧ map_to_list inner ≡ₚ vars.
Proof.
  apply visit_orders_spec in Horder as (tests & Ht & Ho).
  intros (i & Hi)%list_elem_of_lookup.
  destruct (Forall2_lookup_r _ _ _ _ _ Ho Hi) as ([t' m] & Hm & Heq & Hv).
  simpl in *. subst t'. exists m. split; [|done].
  apply elem_of_map_to_list. rewrite Ht. apply list_elem_of_lookup. eauto.
Qed.

Lemma visit_orders_visits t inner :
  data !! t = Some inner →
  ∃ vars, (t, vars) ∈ order ∧ map_to_list inner ≡ₚ vars.
Proof.
  apply visit_orders_spec in Horder as (tests & Ht & Ho). intros Hd.
  apply elem_of_map_to_list in Hd. rewrite Ht in Hd.
  apply list_elem_of_lookup in Hd as (i & Hi).
  destruct (Forall2_lookup_l _ _ _ _ _ Ho Hi) as ([t' vars] & Hm & Heq & Hv).
  simpl in *. subst t'. exists vars. split; [|done].
  apply list_elem_of_lookup. eauto.
Qed.

End visit_order.

Lemma assert_strings_spec values l :
  ConditionSet.assert_strings values l =
    match strings_of l with
    | Some ss => Ok (values ++ ss)
    | None => Panic (bad_element l)
    end.
Proof.
  revert values. induction l as [|v l IH]; intros values; simpl.
  { by rewrite app_nil_r. }
  unfold strings_of, bad_element in *. simpl.
  destruct v; simpl; try done.
  rewrite IH. destruct (mapM as_string l); simpl; [|done].
  by rewrite <-app_assoc.
Qed.

Lemma visit_leaf_spec out t x v :
  (∀ l, v = IArr l → is_Some (strings_of l)) →
  ConditionSet.visit_leaf out t x v =
    Ok (out ++ entries_of_vars t [(x, v)]).
Proof.
  intros Hv. unfold entries_of_vars. destruct v; simpl; rewrite ?app_nil_r; try done.
  rewrite assert_strings_spec.
  destruct (Hv _ eq_refl) as [ss ->]. done.
Qed.

Lemma entries_of_vars_cons t xv vars :
  entries_of_vars t (xv :: vars) = entries_of_vars t [xv] ++ entries_of_vars t vars.
Proof. unfold entries_of_vars. simpl. by destruct (leaf_values xv.2). Qed.

Lemma visit_vars_spec out t vars :
  (∀ x l, (x, IArr l) ∈ vars → is_Some (strings_of l)) →
  ConditionSet.visit_vars out t vars = Ok (out ++ entries_of_vars t vars).
Proof.
  revert out. induction vars as [|[x v] vars IH]; intros out Hvars.
  { simpl. by rewrite app_nil_r. }
  rewrite entries_of_vars_cons. cbn [ConditionSet.visit_vars].
  rewrite visit_leaf_spec by (intros l ->; apply (Hvars x); left).
  cbn [mbind outcome_bind].
  rewrite IH by (intros y l Hy; apply (Hvars y); by right).
  by rewrite <-app_assoc.
Qed.

Lemma visit_tests_spec out (tests : list (string * list (string * iface))) :
  (∀ t vars x l, (t, vars) ∈ tests → (x, IArr l) ∈ vars → is_Some (strings_of l)) →
  ConditionSet.visit_tests out tests =
    Ok (out ++ (tests ≫= fun tv => entries_of_vars tv.1 tv.2)).
Proof.
  revert out. induction tests as [|[t vars] tests IH]; intros out Htests.
  { simpl. by rewrite app_nil_r. }
  cbn [ConditionSet.visit_tests].
  rewrite visit_vars_spec by (intros x l; apply (Htests t vars); left).
  cbn [mbind outcome_bind].
  rewrite IH by (intros t' vars' x l Ht; apply (Htests t' vars'); by right).
  by rewrite <-app_assoc.
Qed.

Lemma elem_of_entries_of_vars t vars c :
  c ∈ entries_of_vars t vars ↔
  Test c = t ∧ ∃ v, (Variable' c, v) ∈ vars ∧ leaf_values v = Some (Values c).
Proof.
  unfold entries_of_vars. rewrite list_elem_of_omap. split.
  - intros ([x v] & Hxv & Hc). simpl in Hc.
    destruct (leaf_values v) as [vals|] eqn:Hv; [|done].
    injection Hc as <-. simpl. eauto.
  - intros (<- & v & Hv & Hl). exists (Variable' c, v). split; [done|].
    simpl. rewrite Hl. by destruct c.
Qed.

(** ** The conditions that a run of the decoder makes *)

Lemma entries_of_vars_values t vars c :
  c ∈ entries_of_vars t vars → holds_strings (Values c).
Proof.
  intros (_ & v & _ & Hl)%elem_of_entries_of_vars.
  destruct v; simpl in Hl; try done.
  - injection Hl as <-. by eexists.
  - destruct (strings_of l); [|done]. injection Hl as <-. by eexists.
Qed.

Lemma entries_of_vars_pairs t (vars : list (string * iface)) :
  NoDup vars.*1 → NoDup (pair_of <$> entries_of_vars t vars).
Proof.
  induction vars as [|[x v] vars IH]; intros Hnd; [constructor|].
  rewrite fmap_cons in Hnd. apply NoDup_cons in Hnd as [Hx Hnd].
  rewrite entries_of_vars_cons. unfold entries_of_vars at 1. simpl.
  destruct (leaf_values v) as [vals|]; simpl; [|by apply IH].
  apply NoDup_cons. split; [|by apply IH].
  intros (c & Hp & (_ & w & Hw & _)%elem_of_entries_of_vars)%list_elem_of_fmap.
  injection Hp as _ Hp. apply Hx. apply list_elem_of_fmap.
  exists (Variable' c, w). by subst x.
Qed.

Lemma fmap_bind_list {A B C} (f : B → C) (g : A → list B) (l : list A) :
  f <$> (l ≫= g) = l ≫= (fun x => f <$> g x).
Proof.
  induction l as [|x l IH]; [done|].
  change (x :: l) with ([x] ++ l). rewrite !bind_app, fmap_app, IH.
  simpl. by rewrite !app_nil_r.
Qed.

(** Along one order of visit. *)
Section visited.
Context (data : gmap string (gmap string iface)).
Context (order : list (string * list (string * iface))).
Hypothesis Horder : order ∈ ConditionSet.visit_orders data.

Lemma visited_conditions c :
  c ∈ order ≫= (fun tv => entries_of_vars tv.1 tv.2) ↔
  ∃ inner v, data !! Test c = Some inner ∧ inner !! Variable' c = Some v ∧
             leaf_values v = Some (Values c).
Proof.
  rewrite list_elem_of_bind. split.
  - intros ([t vars] & (Ht & v & Hv & Hl)%elem_of_entries_of_vars & Hin).
    simpl in *. subst t.
    destruct (visit_orders_visited _ _ Horder _ _ Hin) as (inner & Hi & Hp).
    exists inner, v. split; [done|]. split; [|done].
    apply elem_of_map_to_list. by rewrite Hp.
  - intros (inner & v & Hi & Hv & Hl).
    destruct (visit_orders_visits _ _ Horder _ _ Hi) as (vars & Hin & Hp).
    exists (Test c, vars). split; [|done].
    apply elem_of_entries_of_vars. split; [done|]. exists v. split; [|done].
    rewrite <-Hp. by apply elem_of_map_to_list.
Qed.

Lemma visited_values c :
  c ∈ order ≫= (fun tv => entries_of_vars tv.1 tv.2) → holds_strings (Values c).
Proof.
  intros ([t vars] & Hc & _)%list_elem_of_bind. by eapply entries_of_vars_values.
Qed.

Lemma visited_tests_NoDup : NoDup order.*1.
Proof.
  apply visit_orders_spec in Horder as (tests & Ht & Ho).
  assert (order.*1 = tests.*1) as ->.
  { clear Ht. induction Ho as [|tm tv tests order [Heq _] _ IH]; [done|].
    rewrite !fmap_cons. by rewrite Heq, IH. }
  rewrite <-Ht. apply NoDup_fst_map_to_list.
Qed.

Lemma visited_pairs_NoDup :
  NoDup (pair_of <$> (order ≫= fun tv => entries_of_vars tv.1 tv.2)).
Proof.
  rewrite fmap_bind_list.
  apply NoDup_bind.
  - intros [t1 vars1] [t2 vars2] y H1 H2
      (c1 & -> & (Ht1 & _)%elem_of_entries_of_vars)%list_elem_of_fmap
      (c2 & Hp & (Ht2 & _)%elem_of_entries_of_vars)%list_elem_of_fmap.
    simpl in *. injection Hp as Hp _. subst t1 t2. rewrite Hp in *.
    destruct (visit_orders_visited _ _ Horder _ _ H1) as (i1 & Hi1 & Hp1).
    destruct (visit_orders_visited _ _ Horder _ _ H2) as (i2 & Hi2 & Hp2).
    f_equal.
    pose proof visited_tests_NoDup as Hnd.
    apply list_elem_of_lookup in H1 as (n1 & Hn1).
    apply list_elem_of_lookup in H2 as (n2 & Hn2).
    assert (n1 = n2) as ->.
    { apply (NoDup_lookup _ _ _ (Test c2) Hnd);
        rewrite list_lookup_fmap; [by rewrite Hn1|by rewrite Hn2]. }
    congruence.
  - intros [t vars] Hin. simpl.
    destruct (visit_orders_visited _ _ Horder _ _ Hin) as (inner & _ & Hp).
    apply entries_of_vars_pairs. rewrite <-Hp. apply NoDup_fst_map_to_list.
  - apply (NoDup_fmap_1 fst), visited_tests_NoDup.
Qed.

End visited.


(** C10, counterexample: in [{"t": {"a": 5, "b": [1]}}] the leaf of "a"
    is a number, and decoding panics on the array of "b", in whichever
    order the two variables are visited. *)
Lemma number_leaf_beside_bad_array_panics :
  ¬ other_leaves_skipped
      (JObj [("t", JObj [("a", JNum 5); ("b", JArr [JNum 1])])]).
Proof.
  intros H.
  apply (H _ eq_refl) with (r := Panic (InterfaceConversion TFloat64 TString)).
  - exists "t", (<["b" := IArr [INum 1]]> (<["a" := INum 5]> ∅)), "a", (INum 5).
    split; [vm_compute; reflexivity|]. split; [vm_compute; reflexivity|]. exact I.
  - vm_compute. left.
Qed.

(** C10, amended: when the two levels of objects are there, every
    number has a float64 and every leaf that is an array holds strings
    only, decoding returns a condition set, in whichever order the maps
    are visited: the set has exactly one condition for each leaf that is
    a string or an array, holding a list of strings, and none for a
    (test, variable) pair whose leaf is anything else, a number, a
    boolean, [null] or an object; no error is returned. *)
Theorem UnmarshalJSON_skips_other_leaves (b : json)
    (data : gmap string (gmap string iface)) :
  ConditionSet.unmarshal_data b = Ok data →
  arrays_hold_strings data →
  ConditionSet.UnmarshalJSON b ≠ [] ∧
  ∀ r, r ∈ ConditionSet.UnmarshalJSON b →
    ∃ out, r = Ok out ∧
      (∀ c, c ∈ out ↔
            ∃ inner v, data !! Test c = Some inner ∧ inner !! Variable' c = Some v ∧
                       leaf_values v = Some (Values c)) ∧
      NoDup (pair_of <$> out) ∧
      (∀ t inner x v,
         data !! t = Some inner → inner !! x = Some v →
         neither_string_nor_array v →
         ∀ c, c ∈ out → ¬ (Test c = t ∧ Variable' c = x)).
Proof.
  intros Hdata Harr. unfold ConditionSet.UnmarshalJSON. rewrite Hdata.
  split.
  { intros H%fmap_nil_inv. by apply visit_orders_nonempty in H. }
  intros r (order & -> & Horder)%list_elem_of_fmap.
  rewrite visit_tests_spec.
  2:{ intros t vars x l Ht Hx.
      destruct (visit_orders_visited _ _ Horder _ _ Ht) as (inner & Hi & Hp).
      apply (Harr t inner x l Hi).
      apply elem_of_map_to_list. by rewrite Hp. }
  eexists. split; [done|]. simpl.
  pose proof (visited_conditions data order Horder) as Hout.
  split; [exact Hout|]. split; [by apply (visited_pairs_NoDup data)|].
  intros t inner x v Hi Hv Hother c (inner' & v' & Hi' & Hv' & Hl)%Hout [Ht Hx].
  subst t x. rewrite Hi in Hi'. injection Hi' as <-.
  rewrite Hv in Hv'. injection Hv' as <-.
  by destruct v.
Qed.

Lemma UnmarshalJSON_skips_other_leaves_witness :
  ConditionSet.UnmarshalJSON
    (JObj [("StringEquals", JObj [("key", JStr "v"); ("other", JNum 5)])]) ≠ [] ∧
  Forall (fun r => ∃ out, r = Ok out ∧
            {| Test := "StringEquals"; Variable' := "key";
               Values := IStrings ["v"] |} ∈ out ∧
            NoDup (pair_of <$> out) ∧
            Forall (fun c => Variable' c ≠ "other") out)
    (ConditionSet.UnmarshalJSON
       (JObj [("StringEquals", JObj [("key", JStr "v"); ("other", JNum 5)])])).
Proof.
  destruct (UnmarshalJSON_skips_other_leaves
           (JObj [("StringEquals", JObj [("key", JStr "v"); ("other", JNum 5)])])
           (<["StringEquals" := <["other" := INum 5]> (<["key" := IStr "v"]> ∅)]> ∅))
    as [Hne Hall].
  - vm_compute. reflexivity.
  - intros t inner x l Ht Hx.
    apply lookup_insert_Some in Ht as [[<- <-]|[_ Ht]]; [|by rewrite lookup_empty in Ht].
    apply lookup_insert_Some in Hx as [[_ [=]]|[_ Hx]].
    apply lookup_insert_Some in Hx as [[_ [=]]|[_ Hx]].
    by rewrite lookup_empty in Hx.
  - split; [exact Hne|]. apply Forall_forall. intros r Hr.
    destruct (Hall r Hr) as (out & -> & Hmem & Hnd & Hskip).
    exists out. split; [done|]. split; [|split; [done|]].
    + apply Hmem. eexists _, (IStr "v"). split; [reflexivity|]. by split.
    + apply Forall_forall. intros c Hc Hx.
      apply (Hskip "StringEquals" _ "other" (INum 5) eq_refl eq_refl I c Hc).
      split; [|done].
      apply Hmem in Hc as (inner & v & Hi & _).
      destruct (decide (Test c = "StringEquals")) as [|Hn]; [done|].
      rewrite lookup_insert_ne in Hi by done. by rewrite lookup_empty in Hi.
Defined.

(** ** An array leaf that holds something else than strings *)

Lemma visit_leaf_result out t x v :
  ConditionSet.visit_leaf out t x v = Ok (out ++ entries_of_vars t [(x, v)]) ∨
  ∃ l, v = IArr l ∧ strings_of l = None ∧
       ConditionSet.visit_leaf out t x v = Panic (bad_element l).
Proof.
  unfold entries_of_vars. destruct v; simpl; rewrite ?app_nil_r; auto.
  rewrite assert_strings_spec. destruct (strings_of l) eqn:Hl; simpl; eauto.
Qed.

Lemma visit_vars_result out t vars :
  ConditionSet.visit_vars out t vars = Ok (out ++ entries_of_vars t vars) ∨
  ∃ x l, (x, IArr l) ∈ vars ∧ strings_of l = None ∧
         ConditionSet.visit_vars out t vars = Panic (bad_element l).
Proof.
  revert out. induction vars as [|[x v] vars IH]; intros out.
  { left. simpl. by rewrite app_nil_r. }
  rewrite entries_of_vars_cons. cbn [ConditionSet.visit_vars].
  destruct (visit_leaf_result out t x v) as [-> | (l & -> & Hl & ->)].
  - cbn [mbind outcome_bind]. rewrite app_assoc.
    destruct (IH (out ++ entries_of_vars t [(x, v)])) as [-> | (y & l & Hy & Hl & ->)];
      [by left|].
    right. exists y, l. split; [by right|done].
  - right. exists x, l. split; [by left|done].
Qed.

Lemma visit_tests_result out (tests : list (string * list (string * iface))) :
  ConditionSet.visit_tests out tests =
    Ok (out ++ (tests ≫= fun tv => entries_of_vars tv.1 tv.2)) ∨
  ∃ t vars x l, (t, vars) ∈ tests ∧ (x, IArr l) ∈ vars ∧ strings_of l = None ∧
                ConditionSet.visit_tests out tests = Panic (bad_element l).
Proof.
  revert out. induction tests as [|[t vars] tests IH]; intros out.
  { left. simpl. by rewrite app_nil_r. }
  cbn [ConditionSet.visit_tests].
  destruct (visit_vars_result out t vars) as [-> | (x & l & Hx & Hl & ->)].
  - cbn [mbind outcome_bind]. change ((t, vars) :: tests) with ([(t, vars)] ++ tests).
    rewrite bind_app, app_assoc. simpl. rewrite app_nil_r.
    destruct (IH (out ++ entries_of_vars t vars))
      as [-> | (t' & vars' & x & l & Ht & Hx & Hl & ->)]; [by left|].
    right. exists t', vars', x, l. split; [by right|done].
  - right. exists t, vars, x, l. split; [by left|done].
Qed.

Lemma visit_vars_bad out t vars x l out' :
  (x, IArr l) ∈ vars → strings_of l = None →
  ConditionSet.visit_vars out t vars ≠ Ok out'.
Proof.
  revert out. induction vars as [|[y v] vars IH]; intros out Hin Hl.
  { by apply elem_of_nil in Hin. }
  cbn [ConditionSet.visit_vars].
  apply elem_of_cons in Hin as [[= <- <-]|Hin].
  - simpl. by rewrite assert_strings_spec, Hl.
  - destruct (visit_leaf_result out t y v) as [-> | (l' & _ & _ & ->)]; [|done].
    by apply IH.
Qed.

Lemma visit_tests_bad out (tests : list (string * list (string * iface)))
    t vars x l out' :
  (t, vars) ∈ tests → (x, IArr l) ∈ vars → strings_of l = None →
  ConditionSet.visit_tests out tests ≠ Ok out'.
Proof.
  revert out. induction tests as [|[t' vars'] tests IH]; intros out Hin Hx Hl.
  { by apply elem_of_nil in Hin. }
  cbn [ConditionSet.visit_tests].
  apply elem_of_cons in Hin as [[= <- <-]|Hin].
  - pose proof (visit_vars_bad out t vars x l) as Hb.
    destruct (ConditionSet.visit_vars out t vars) as [o| |]; [|done..].
    by destruct (Hb o).
  - destruct (visit_vars_result out t' vars') as [-> | (y & l' & _ & _ & ->)]; [|done].
    by apply IH.
Qed.

(** The runs of the decoder on data in which an array holds an element
    that is not a string. *)
Lemma UnmarshalJSON_bad_array data t inner x l r :
  data !! t = Some inner → inner !! x = Some (IArr l) → strings_of l = None →
  r ∈ ConditionSet.visit_tests [] <$> ConditionSet.visit_orders data →
  ∃ t' inner' x' l',
    data !! t' = Some inner' ∧ inner' !! x' = Some (IArr l') ∧
    strings_of l' = None ∧ r = Panic (bad_element l').
Proof.
  intros Ht Hx Hl (order & -> & Horder)%list_elem_of_fmap.
  destruct (visit_orders_visits _ _ Horder _ _ Ht) as (vars & Hin & Hp).
  destruct (visit_tests_result [] order)
    as [Hok | (t' & vars' & x' & l' & Ht' & Hx' & Hl' & ->)].
  - exfalso. eapply (visit_tests_bad [] order t vars x l); [exact Hin| |done|exact Hok].
    rewrite <-Hp. by apply elem_of_map_to_list.
  - destruct (visit_orders_visited _ _ Horder _ _ Ht') as (inner' & Hi' & Hp').
    exists t', inner', x', l'. split; [done|]. split; [|done].
    apply elem_of_map_to_list. by rewrite Hp'.
Qed.

(** C5: decoding the condition set
    [{"StringEquals": {"key": [1, 2]}}] panics on [v.(string)], alone and
    as the "Condition" member of a statement; no error is returned.  So
    does the decoding of every condition set in which an array holds an
    element that is not a string, in whichever order the maps are
    visited: the panic is that of the conversion of the first such
    element of one of these arrays. *)
Theorem UnmarshalJSON_number_in_array_panics :
  ConditionSet.UnmarshalJSON
    (JObj [("StringEquals", JObj [("key", JArr [JNum 1; JNum 2])])])
  = [Panic (InterfaceConversion TFloat64 TString)] ∧
  DecodeStatement
    (JObj [("Condition",
            JObj [("StringEquals", JObj [("key", JArr [JNum 1; JNum 2])])])])
  = [Panic (InterfaceConversion TFloat64 TString)] ∧
  (∀ b data t inner x l,
     ConditionSet.unmarshal_data b = Ok data →
     data !! t = Some inner → inner !! x = Some (IArr l) → strings_of l = None →
     ConditionSet.UnmarshalJSON b ≠ [] ∧
     ∀ r, r ∈ ConditionSet.UnmarshalJSON b →
       ∃ t' inner' x' l',
         data !! t' = Some inner' ∧ inner' !! x' = Some (IArr l') ∧
         strings_of l' = None ∧ r = Panic (bad_element l')).
Proof.
  split; [vm_compute; reflexivity|]. split; [vm_compute; reflexivity|].
  intros b data t inner x l Hdata Ht Hx Hl.
  unfold ConditionSet.UnmarshalJSON. rewrite Hdata. split.
  { intros H%fmap_nil_inv. by apply visit_orders_nonempty in H. }
  intros r. by apply (UnmarshalJSON_bad_array data t inner x l).
Qed.

Lemma UnmarshalJSON_number_in_array_panics_witness :
  ConditionSet.UnmarshalJSON
    (JObj [("t", JObj [("a", JStr "v"); ("b", JArr [JStr "w"; JBool true])])]) ≠ [] ∧
  Forall (fun r => r = Panic (InterfaceConversion TBool TString))
    (ConditionSet.UnmarshalJSON
       (JObj [("t", JObj [("a", JStr "v"); ("b", JArr [JStr "w"; JBool true])])])).
Proof.
  destruct (proj2 (proj2 UnmarshalJSON_number_in_array_panics)
           (JObj [("t", JObj [("a", JStr "v"); ("b", JArr [JStr "w"; JBool true])])])
           (<["t" := <["b" := IArr [IStr "w"; IBool true]]> (<["a" := IStr "v"]> ∅)]> ∅)
           "t" (<["b" := IArr [IStr "w"; IBool true]]> (<["a" := IStr "v"]> ∅))
           "b" [IStr "w"; IBool true]) as [Hne Hall];
    [vm_compute; reflexivity..|].
  split; [exact Hne|]. apply Forall_forall. intros r Hr.
  destruct (Hall r Hr) as (t' & inner' & x' & l' & Ht' & Hx' & Hl' & ->).
  apply lookup_insert_Some in Ht' as [[_ <-]|[_ Ht']]; [|by rewrite lookup_empty in Ht'].
  apply lookup_insert_Some in Hx' as [[_ [= <-]]|[_ Hx']]; [reflexivity|].
  apply lookup_insert_Some in Hx' as [[_ [=]]|[_ Hx']].
  by rewrite lookup_empty in Hx'.
Defined.

(** The other way in which a document may fail to come back: two lists
    of one (test, variable) pair are merged without being sorted as a
    whole, and the decoded list is sorted by the next encoding. *)
Example conditions_reencoded_differently :
  let cs := [ {| Test := "StringEquals"; Variable' := "k"; Values := IStrings ["a"; "c"] |};
              {| Test := "StringEquals"; Variable' := "k"; Values := IStrings ["b"] |} ] in
  ∃ j cs',
    (ConditionSet.MarshalJSON cs).1 = Ok j ∧
    ConditionSet.UnmarshalJSON j = [Ok cs'] ∧
    (ConditionSet.MarshalJSON cs').1 ≠ Ok j.
Proof.
  eexists _, _. split; [vm_compute; reflexivity|].
  split; [vm_compute; reflexivity|]. vm_compute. discriminate.
Qed.

(** * Further properties *)

(** ** [iamPolicyDecodeConfigStringList] *)

Lemma strings_of_strings (ss : list string) : strings_of (IStr <$> ss) = Some ss.
Proof. unfold strings_of. by apply mapM_fmap_Some. Qed.

Lemma strings_of_Some (lI : list iface) ss :
  strings_of lI = Some ss → lI = IStr <$> ss.
Proof.
  unfold strings_of. intros H. symmetry.
  apply (mapM_fmap_Some_inv as_string IStr _ _ H).
  intros v y Hv. destruct v; simpl in Hv; congruence.
Qed.

Lemma strings_of_None (lI : list iface) :
  strings_of lI = None ↔ ∃ v, v ∈ lI ∧ ∀ s, v ≠ IStr s.
Proof.
  unfold strings_of. rewrite mapM_None, Exists_exists. split.
  - intros (v & Hv & Hs). exists v. split; [done|]. intros s ->. done.
  - intros (v & Hv & Hs). exists v. split; [done|]. destruct v; try done.
    by destruct (Hs s).
Qed.

(** The loop that fills [ret]: the cells before [i] are kept, the cells
    from [i] on receive the strings of [lI]. *)
Lemma fill_strings_spec (lI : list iface) ret i :
  length ret = i + length lI →
  fill_strings ret i lI =
    match strings_of lI with
    | Some ss => Ok (take i ret ++ ss)
    | None => Panic (bad_element lI)
    end.
Proof.
  revert ret i. induction lI as [|v lI IH]; intros ret i Hlen; simpl in *.
  { rewrite app_nil_r, take_ge by lia. done. }
  unfold strings_of, bad_element in *. simpl.
  destruct v; simpl; try done.
  rewrite IH by (rewrite length_insert; lia).
  destruct (mapM as_string lI) as [ss|]; simpl; [|done].
  rewrite (take_S_r _ _ s) by (apply list_lookup_insert_eq; lia).
  rewrite take_insert_ge by lia. by rewrite <-app_assoc.
Qed.

Lemma iamPolicyDecodeConfigStringList_spec (lI : list iface) :
  (iamPolicyDecodeConfigStringList lI).1 =
    match strings_of lI with
    | Some ss => Ok (string_or_list ss)
    | None => Panic (bad_element lI)
    end.
Proof.
  unfold iamPolicyDecodeConfigStringList.
  assert (∀ l : list iface,
    (ret ← fill_strings (replicate (length l) "") 0 l; Ok (IStrings (sort_desc ret)))
    = match strings_of l with
      | Some ss => Ok (IStrings (sort_desc ss))
      | None => Panic (bad_element l)
      end) as Hfill.
  { intros l. rewrite fill_strings_spec by by rewrite length_replicate.
    by destruct (strings_of l). }
  destruct lI as [|v [|w lI]].
  - exact (Hfill []).
  - by destruct v.
  - etrans; [exact (Hfill (v :: w :: lI))|]. destruct (strings_of (v :: w :: lI)) as [ss|] eqn:Hss; [|done].
    apply strings_of_Some in Hss. by destruct ss as [|? [|? ?]].
Qed.

Lemma strings_of_Permutation (lI lI' : list iface) :
  lI ≡ₚ lI' →
  match strings_of lI, strings_of lI' with
  | Some ss, Some ss' => ss ≡ₚ ss'
  | None, None => True
  | _, _ => False
  end.
Proof.
  unfold strings_of. induction 1 as [|v l l' _ IH|v w l|l1 l2 l3 _ IH1 _ IH2]; simpl.
  - done.
  - destruct (as_string v); simpl; [|done].
    destruct (mapM as_string l), (mapM as_string l'); simpl; try done.
    by constructor.
  - destruct (as_string v), (as_string w); simpl; try done;
      destruct (mapM as_string l); simpl; try done.
    constructor.
  - destruct (mapM as_string l1), (mapM as_string l2), (mapM as_string l3);
      try done. by etrans.
Qed.

Lemma string_or_list_Permutation (ss ss' : list string) :
  ss ≡ₚ ss' → string_or_list ss = string_or_list ss'.
Proof.
  intros Hp. destruct ss as [|s [|t ss]].
  - by apply Permutation_nil_l in Hp as ->.
  - by apply Permutation_singleton_l in Hp as ->.
  - pose proof (Permutation_length Hp) as Hl.
    destruct ss' as [|s' [|t' ss']]; simpl in Hl; try lia.
    simpl. f_equal. by apply sort_desc_proper.
Qed.

Lemma sorted_is_sort_desc (l : list string) : Sorted str_ge l → sort_desc l = l.
Proof. intros Hs. symmetry. by apply sort_desc_unique. Qed.

Lemma built_from_config_cases (v : iface) :
  built_from_config v →
  (∃ s, v = IStr s) ∨ (∃ l, v = IStrings l ∧ Sorted str_ge l).
Proof.
  intros [lI H]. rewrite iamPolicyDecodeConfigStringList_spec in H.
  destruct (strings_of lI) as [ss|]; [|done]. injection H as <-.
  destruct ss as [|s [|t ss]]; simpl; eauto using sort_desc_sorted.
Qed.

Lemma built_from_config_sorted (v : iface) :
  built_from_config v → sort_in_place v = v.
Proof.
  intros [[s ->]|(l & -> & Hs)]%built_from_config_cases; [done|].
  simpl. by rewrite sorted_is_sort_desc.
Qed.

(** X1: from a slice of strings [iamPolicyDecodeConfigStringList]
    returns the string itself when there is exactly one, and otherwise
    the list of the strings in descending order (the empty list for the
    empty slice). *)
Theorem iamPolicyDecodeConfigStringList_of_strings :
  (∀ s : string, (iamPolicyDecodeConfigStringList [IStr s]).1 = Ok (IStr s)) ∧
  (∀ ss : list string,
     length ss ≠ 1 →
     (iamPolicyDecodeConfigStringList (IStr <$> ss)).1 = Ok (IStrings (sort_desc ss))) ∧
  (iamPolicyDecodeConfigStringList []).1 = Ok (IStrings []).
Proof.
  split; [done|]. split; [|done].
  intros ss Hlen. rewrite iamPolicyDecodeConfigStringList_spec, strings_of_strings.
  by destruct ss as [|s [|t ss]].
Qed.

Lemma iamPolicyDecodeConfigStringList_of_strings_witness :
  (iamPolicyDecodeConfigStringList (IStr <$> ["s3:GetObject"; "s3:PutObject"])).1
  = Ok (IStrings (sort_desc ["s3:GetObject"; "s3:PutObject"])).
Proof.
  apply (proj1 (proj2 iamPolicyDecodeConfigStringList_of_strings)). simpl. lia.
Defined.

(** X2: [iamPolicyDecodeConfigStringList] panics, on the conversion
    [vI.(string)], exactly when an element of its argument is not a
    string, and the panic names the type of the first such element; it
    has no error to return. *)
Theorem iamPolicyDecodeConfigStringList_panics_iff (lI : list iface) :
  (is_Panic (iamPolicyDecodeConfigStringList lI).1 ↔
   ∃ v, v ∈ lI ∧ ∀ s, v ≠ IStr s) ∧
  (∀ x, (iamPolicyDecodeConfigStringList lI).1 = Panic x → x = bad_element lI) ∧
  (is_Ok (iamPolicyDecodeConfigStringList lI).1 ↔ ∃ ss, lI = IStr <$> ss) ∧
  (∀ e, (iamPolicyDecodeConfigStringList lI).1 ≠ Err e).
Proof.
  rewrite iamPolicyDecodeConfigStringList_spec, <-strings_of_None.
  destruct (strings_of lI) as [ss|] eqn:Hss.
  - split; [split; done|]. split; [done|]. split; [|done].
    split; [|done]. intros _. exists ss. by apply strings_of_Some.
  - split; [split; done|]. split; [by intros x [= <-]|]. split; [|done].
    split; [done|]. intros [ss ->]. by rewrite strings_of_strings in Hss.
Qed.

(** X3: whether [iamPolicyDecodeConfigStringList] returns, and what it
    returns, does not depend on the order of the elements of its
    argument.  The panic does: it names the type of the first element
    that is not a string. *)
Theorem iamPolicyDecodeConfigStringList_order (lI lI' : list iface) :
  lI ≡ₚ lI' →
  (∀ v, (iamPolicyDecodeConfigStringList lI).1 = Ok v ↔
        (iamPolicyDecodeConfigStringList lI').1 = Ok v) ∧
  (is_Panic (iamPolicyDecodeConfigStringList lI).1 ↔
   is_Panic (iamPolicyDecodeConfigStringList lI').1).
Proof.
  intros Hp. rewrite !iamPolicyDecodeConfigStringList_spec.
  pose proof (strings_of_Permutation _ _ Hp) as H.
  destruct (strings_of lI) as [ss|], (strings_of lI') as [ss'|]; try done.
  rewrite (string_or_list_Permutation ss ss') by done. done.
Qed.

Lemma iamPolicyDecodeConfigStringList_order_witness :
  (iamPolicyDecodeConfigStringList [IStr "c"; IStr "a"; IStr "b"]).1
  = Ok (IStrings ["c"; "b"; "a"]) ∧
  is_Panic (iamPolicyDecodeConfigStringList [IBool true; INum 1]).1.
Proof.
  split.
  - apply (proj1 (iamPolicyDecodeConfigStringList_order
                    [IStr "a"; IStr "c"; IStr "b"] [IStr "c"; IStr "a"; IStr "b"]
                    (perm_swap _ _ _))).
    vm_compute. reflexivity.
  - apply (proj2 (iamPolicyDecodeConfigStringList_order
                    [INum 1; IBool true] [IBool true; INum 1] (perm_swap _ _ _))).
    exact I.
Defined.

(** The panics of two orders of the same elements may differ. *)
Example iamPolicyDecodeConfigStringList_panic_order :
  (iamPolicyDecodeConfigStringList [INum 1; IBool true]).1
  = Panic (InterfaceConversion TFloat64 TString) ∧
  (iamPolicyDecodeConfigStringList [IBool true; INum 1]).1
  = Panic (InterfaceConversion TBool TString).
Proof. split; reflexivity. Qed.

Lemma sorted_prefix_fixed {A} (f : A → A) (l : list A) k :
  Forall (fun x => f x = x) l → (f <$> take k l) ++ drop k l = l.
Proof.
  intros Hl. rewrite <-(take_drop k l) at 3. f_equal.
  rewrite <-(list_fmap_id (take k l)) at 2.
  apply list_fmap_ext. intros i x Hx.
  apply (proj1 (Forall_forall _ _) Hl). apply lookup_take_Some in Hx as [Hx _].
  apply list_elem_of_lookup. eauto.
Qed.

(** X4: the encoders leave as it is a principal set or a condition set
    whose identifiers or values were all built by
    [iamPolicyDecodeConfigStringList], whether they return or panic: the
    lists are in descending order already. *)
Theorem encoders_keep_sets_built_from_config :
  (∀ ps : IAMPolicyStatementPrincipalSet,
     (∀ p, p ∈ ps → built_from_config (Identifiers p)) →
     (PrincipalSet.MarshalJSON ps).2 = ps) ∧
  (∀ cs : IAMPolicyStatementConditionSet,
     (∀ c, c ∈ cs → built_from_config (Values c)) →
     (ConditionSet.MarshalJSON cs).2 = cs).
Proof.
  split.
  - intros ps Hps. rewrite MarshalJSON_leaves.
    destruct (PrincipalSet.is_wildcard ps); [done|].
    destruct (group_leaves ∅ ps) as (k & -> & _).
    apply sorted_prefix_fixed, Forall_forall. intros [T ids] Hp.
    unfold sort_principal. simpl. f_equal.
    apply built_from_config_sorted, (Hps _ Hp).
  - intros cs Hcs. destruct (cs_MarshalJSON_split cs) as [-> _].
    destruct (cs_group_leaves ∅ cs) as (k & -> & _).
    apply sorted_prefix_fixed, Forall_forall. intros [t x vs] Hc.
    unfold sort_condition. simpl. f_equal.
    apply built_from_config_sorted, (Hcs _ Hc).
Qed.

Lemma encoders_keep_sets_built_from_config_witness :
  (PrincipalSet.MarshalJSON
     [ {| Type' := "AWS"; Identifiers := IStrings ["b"; "a"] |} ]).2
  = [ {| Type' := "AWS"; Identifiers := IStrings ["b"; "a"] |} ].
Proof.
  apply (proj1 encoders_keep_sets_built_from_config).
  intros p Hp. apply list_elem_of_singleton in Hp as ->.
  exists [IStr "a"; IStr "b"]. vm_compute. reflexivity.
Defined.

(** ** [DeDupSids] on any document *)

Lemma DeDupSids_loop_app l st (r1 r2 : list nat) :
  DeDupSids_loop l st (r1 ++ r2) = st' ← DeDupSids_loop l st r1; DeDupSids_loop l st' r2.
Proof.
  revert st. induction r1 as [|i r1 IH]; intros st; [done|].
  simpl. destruct (DeDupSids_step l st i) as [st1|e|x]; simpl; [apply IH|done..].
Qed.

(** One turn of the loop on a statement that is there, whatever comes
    before it in the slice. *)
Lemma DeDupSids_step_some (pre : list (option IAMPolicyStatement)) s suf st l :
  l = (Z.of_nat (length pre + 1 + length suf) - 1)%Z →
  stmts st = pre ++ [Some s] ++ (Some <$> last_occurrences suf) →
  seen_all (sidsSeen st) suf →
  ∃ st', DeDupSids_step l st (length suf) = Ok st' ∧
    stmts st' = pre ++ (Some <$> last_occurrences (s :: suf)) ∧
    seen_all (sidsSeen st') (s :: suf).
Proof.
  intros -> Hst Hseen. unfold DeDupSids_step.
  replace (Z.of_nat (length pre + 1 + length suf) - 1 - Z.of_nat (length suf))%Z
    with (Z.of_nat (length pre)) by lia.
  destruct (Z.ltb_spec (Z.of_nat (length pre)) 0) as [?|_]; [lia|].
  rewrite Nat2Z.id.
  assert (stmts st !! length pre = Some (Some s)) as ->.
  { rewrite Hst, lookup_app_r by lia. by rewrite Nat.sub_diag. }
  assert (take (length pre) (stmts st) ++ drop (S (length pre)) (stmts st)
          = pre ++ (Some <$> last_occurrences suf)) as Hrm.
  { rewrite Hst. rewrite take_app_length. f_equal.
    rewrite app_assoc, drop_app_length' by (rewrite length_app; simpl; lia). done. }
  destruct (Nat.ltb 0 (String.length (Sid s))) eqn:Hlen.
  - apply length_pos_iff in Hlen.
    eexists. split; [done|]. simpl. split.
    + destruct (default false (sidsSeen st !! Sid s)) eqn:Hs.
      * apply Hseen in Hs. rewrite bool_decide_true by done. done.
      * rewrite bool_decide_false; [by rewrite Hst|].
        intros [_ Hin]. assert (default false (sidsSeen st !! Sid s) = true) as Ht
          by by apply Hseen. congruence.
    + intros sid. rewrite lookup_insert, fmap_cons, elem_of_cons.
      case_decide as Heq; simpl.
      * subst sid. split; auto.
      * rewrite (Hseen sid). split; [intros [??]; auto|].
        intros [? [?|?]]; [congruence|auto].
  - assert (Sid s = "") as Hs.
    { destruct (Sid s); [done|]. simpl in Hlen. discriminate. }
    exists st. split; [done|]. split.
    + simpl. rewrite bool_decide_false by (intros [? _]; done). by rewrite Hst.
    + intros sid. rewrite fmap_cons, elem_of_cons, (Hseen sid).
      split; [intros [??]; auto|]. intros [? [?|?]]; [congruence|auto].
Qed.

(** The turns that visit the statements [mid], all of them there. *)
Lemma DeDupSids_loop_some (pre : list (option IAMPolicyStatement)) mid suf st l :
  l = (Z.of_nat (length pre + length mid + length suf) - 1)%Z →
  stmts st = pre ++ (Some <$> mid) ++ (Some <$> last_occurrences suf) →
  seen_all (sidsSeen st) suf →
  ∃ st', DeDupSids_loop l st (seq (length suf) (length mid)) = Ok st' ∧
    stmts st' = pre ++ (Some <$> last_occurrences (mid ++ suf)) ∧
    seen_all (sidsSeen st') (mid ++ suf).
Proof.
  revert suf st. induction mid as [|s mid IH] using rev_ind; intros suf st Hl Hst Hseen.
  { exists st. done. }
  rewrite length_app, Nat.add_1_r. simpl.
  destruct (DeDupSids_step_some (pre ++ (Some <$> mid)) s suf st l)
    as (st1 & -> & Hst1 & Hseen1); auto.
  { rewrite Hl, !length_app, length_fmap. simpl. lia. }
  { rewrite Hst, fmap_app, <-!app_assoc. done. }
  destruct (IH (s :: suf) st1) as (st' & Hloop & Hst' & Hseen'); auto.
  { rewrite Hl, length_app. simpl. lia. }
  { by rewrite Hst1, <-app_assoc. }
  exists st'. by rewrite <-app_assoc.
Qed.

(** A slice of pointers has no nil pointer, or it has a last one. *)
Lemma last_nil_pointer {A} (l : list (option A)) :
  (∃ ss, l = Some <$> ss) ∨ (∃ pre suf, l = pre ++ None :: (Some <$> suf)).
Proof.
  induction l as [|[a|] l [[ss ->]|(pre & suf & ->)]].
  - left. by exists [].
  - left. by exists (a :: ss).
  - right. by exists (Some a :: pre), suf.
  - right. by exists [], ss.
  - right. by exists (None :: pre), suf.
Qed.

Lemma DeDupSids_nil_pointer (d : IAMPolicyDoc) pre suf :
  Statements d = Some (pre ++ None :: (Some <$> suf)) →
  DeDupSids d = Panic NilDereference.
Proof.
  intros Hd. unfold DeDupSids. rewrite Hd.
  rewrite length_app. simpl. rewrite length_fmap.
  replace (length pre + S (length suf)) with (length suf + S (length pre)) by lia.
  rewrite seq_app, DeDupSids_loop_app. simpl.
  destruct (DeDupSids_loop_some (pre ++ [None]) suf []
              {| stmts := pre ++ None :: (Some <$> suf); sidsSeen := ∅ |}
              (Z.of_nat (length suf + S (length pre)) - 1)%Z)
    as (st1 & Hloop & Hst1 & _).
  - rewrite length_app. simpl. f_equal. lia.
  - simpl. by rewrite app_nil_r, <-app_assoc.
  - intros sid. simpl. rewrite lookup_empty. simpl. split; [done|].
    intros [_ Hin]. by apply elem_of_nil in Hin.
  - simpl in Hloop. rewrite Hloop. simpl.
    unfold DeDupSids_step.
    replace (Z.of_nat (length suf + S (length pre)) - 1 - Z.of_nat (length suf))%Z
      with (Z.of_nat (length pre)) by lia.
    destruct (Z.ltb_spec (Z.of_nat (length pre)) 0) as [?|_]; [lia|].
    rewrite Nat2Z.id, Hst1, <-app_assoc, lookup_app_r by lia.
    by rewrite Nat.sub_diag.
Qed.

Lemma has_nil_statement_spec (d : IAMPolicyDoc) :
  has_nil_statement d ↔ ∃ pre suf, Statements d = Some (pre ++ None :: (Some <$> suf)).
Proof.
  split.
  - intros (l & Hl & Hnil).
    destruct (last_nil_pointer l) as [[ss ->]|(pre & suf & ->)]; [|eauto].
    apply list_elem_of_fmap in Hnil as (? & ? & ?). done.
  - intros (pre & suf & Hd). eexists. split; [done|].
    apply elem_of_app. right. left.
Qed.

(** What [DeDupSids] returns, case by case. *)
Lemma DeDupSids_cases (d : IAMPolicyDoc) :
  (Statements d = None ∧ DeDupSids d = Ok d) ∨
  (∃ ss, Statements d = Some (Some <$> ss) ∧
         DeDupSids d = Ok {| Version := Version d; Id := Id d;
                             Statements := Some (Some <$> last_occurrences ss) |}) ∨
  (has_nil_statement d ∧ DeDupSids d = Panic NilDereference).
Proof.
  destruct (Statements d) as [l|] eqn:Hd.
  - right. destruct (last_nil_pointer l) as [[ss ->]|(pre & suf & ->)].
    + left. exists ss. split; [done|]. by apply DeDupSids_on_statements.
    + right. split; [apply has_nil_statement_spec; eauto|].
      by apply (DeDupSids_nil_pointer d pre suf).
  - left. split; [done|]. unfold DeDupSids. by rewrite Hd.
Qed.

Lemma omap_id_Some {A} (ss : list A) : omap id (Some <$> ss) = ss.
Proof. induction ss as [|s ss IH]; [done|]. simpl. f_equal. exact IH. Qed.

Lemma last_occurrences_NoDup (ss : list IAMPolicyStatement) :
  NoDup (nonempty (Sid <$> last_occurrences ss)).
Proof.
  unfold nonempty. induction ss as [|s ss IH]; simpl; [constructor|].
  case_bool_decide as Hd; [done|].
  rewrite fmap_cons. destruct (decide (Sid s = "")) as [Hs|Hs].
  - by rewrite filter_cons_False by (intros ?; done).
  - rewrite filter_cons_True by done. constructor; [|done].
    rewrite list_elem_of_filter, last_occurrences_sids. intros [_ Hin].
    apply Hd. done.
Qed.

Lemma last_occurrences_fixed (ss : list IAMPolicyStatement) :
  last_occurrences ss = ss ↔ NoDup (nonempty (Sid <$> ss)).
Proof.
  split.
  { intros H. rewrite <-H. apply last_occurrences_NoDup. }
  unfold nonempty. induction ss as [|s ss IH]; [done|].
  rewrite fmap_cons. simpl. intros Hnd.
  destruct (decide (Sid s = "")) as [Hs|Hs].
  - rewrite filter_cons_False in Hnd by (intros ?; done).
    rewrite bool_decide_false by (intros [? _]; done). by rewrite IH.
  - rewrite filter_cons_True in Hnd by done.
    apply NoDup_cons in Hnd as [Hnin Hnd].
    rewrite bool_decide_false; [by rewrite IH|].
    intros [_ Hin]. apply Hnin, list_elem_of_filter. done.
Qed.

Lemma last_occurrences_idemp (ss : list IAMPolicyStatement) :
  last_occurrences (last_occurrences ss) = last_occurrences ss.
Proof. apply last_occurrences_fixed, last_occurrences_NoDup. Qed.

Lemma has_nil_statement_some (d : IAMPolicyDoc) (ss : list IAMPolicyStatement) :
  Statements d = Some (Some <$> ss) → ¬ has_nil_statement d.
Proof.
  intros Hd (l & Hl & Hnil). rewrite Hd in Hl. injection Hl as <-.
  apply list_elem_of_fmap in Hnil as (? & ? & ?). done.
Qed.

Lemma has_nil_statement_none (d : IAMPolicyDoc) :
  Statements d = None → ¬ has_nil_statement d.
Proof. intros Hd (l & Hl & _). congruence. Qed.

(** X5: [DeDupSids] returns exactly when no statement pointer of the
    document is nil, and panics on the nil pointer otherwise; removing
    elements of the slice during the scan never takes an index out of
    range. *)
Theorem DeDupSids_returns_iff (d : IAMPolicyDoc) :
  (is_Ok (DeDupSids d) ↔ ¬ has_nil_statement d) ∧
  (DeDupSids d = Panic NilDereference ↔ has_nil_statement d) ∧
  DeDupSids d ≠ Panic IndexOutOfRange ∧
  (∀ e, DeDupSids d ≠ Err e).
Proof.
  destruct (DeDupSids_cases d) as [[Hd ->]|[(ss & Hd & ->)|[Hnil ->]]].
  - pose proof (has_nil_statement_none d Hd). repeat split; try done.
  - pose proof (has_nil_statement_some d ss Hd). repeat split; try done.
  - repeat split; try done.
Qed.

(** X6: [DeDupSids] is idempotent: applied to the document it returned,
    it returns that document. *)
Theorem DeDupSids_idempotent (d d' : IAMPolicyDoc) :
  DeDupSids d = Ok d' → DeDupSids d' = Ok d'.
Proof.
  destruct (DeDupSids_cases d) as [[Hd ->]|[(ss & Hd & ->)|[Hnil ->]]]; [| |done].
  - intros [= <-]. unfold DeDupSids. by rewrite Hd.
  - intros [= <-].
    rewrite (DeDupSids_on_statements _ (last_occurrences ss)) by done.
    simpl. by rewrite last_occurrences_idemp.
Qed.

Lemma DeDupSids_idempotent_witness :
  DeDupSids (doc_with_sids ["A"; "B"]) = Ok (doc_with_sids ["A"; "B"]).
Proof.
  apply (DeDupSids_idempotent (doc_with_sids ["A"; "B"; "A"; "B"])).
  vm_compute. reflexivity.
Defined.

(** X7: in the document that [DeDupSids] returns no two statements have
    the same sid, unless it is empty; every sid of the document it was
    given still occurs, and no other; [Version] and [Id] are kept. *)
Theorem DeDupSids_unique_sids (d d' : IAMPolicyDoc) :
  DeDupSids d = Ok d' →
  NoDup (nonempty (doc_sids d')) ∧
  (∀ sid, sid ∈ doc_sids d' ↔ sid ∈ doc_sids d) ∧
  Version d' = Version d ∧ Id d' = Id d.
Proof.
  destruct (DeDupSids_cases d) as [[Hd ->]|[(ss & Hd & ->)|[Hnil ->]]]; [| |done].
  - intros [= <-]. unfold doc_sids. rewrite Hd. repeat split; try done. constructor.
  - intros [= <-]. unfold doc_sids. rewrite Hd. cbn [Statements Version Id].
    rewrite !omap_id_Some.
    split; [apply last_occurrences_NoDup|]. split; [|done].
    intros sid. apply last_occurrences_sids.
Qed.

Lemma DeDupSids_unique_sids_witness :
  NoDup (nonempty (doc_sids (doc_with_sids [""; "A"; ""; "B"]))).
Proof.
  apply (DeDupSids_unique_sids (doc_with_sids ["A"; ""; "B"; "A"; ""; "B"])).
  vm_compute. reflexivity.
Defined.

(** X8: [DeDupSids] returns the document it was given exactly when no
    statement pointer is nil and the sids that are not empty are pairwise
    distinct. *)
Theorem DeDupSids_fixed_iff (d : IAMPolicyDoc) :
  DeDupSids d = Ok d ↔ ¬ has_nil_statement d ∧ NoDup (nonempty (doc_sids d)).
Proof.
  destruct (DeDupSids_cases d) as [[Hd ->]|[(ss & Hd & ->)|[Hnil ->]]].
  - pose proof (has_nil_statement_none d Hd). unfold doc_sids. rewrite Hd.
    split; [|done]. intros _. split; [done|]. constructor.
  - pose proof (has_nil_statement_some d ss Hd) as Hn.
    unfold doc_sids. rewrite Hd, omap_id_Some. rewrite <-last_occurrences_fixed.
    split.
    + intros [= Heq]. split; [done|]. destruct d as [v i st]. simpl in *.
      rewrite Hd in Heq. injection Heq as Heq.
      by apply (inj (fmap Some)) in Heq.
    + intros [_ ->]. destruct d as [v i st]. simpl in *. by rewrite Hd.
  - split; [done|]. by intros [? _].
Qed.

(** ** Principal sets whose entries have distinct types *)

Lemma group_value_fresh msg raw key v :
  raw !! key = None →
  (group_value msg raw key v).1 =
    if decide (supported v) then Ok (<[key := sort_in_place v]> raw)
    else Panic (PanicMsg msg).
Proof.
  intros Hk. destruct v; simpl; try done.
  rewrite Hk. unfold append_strings. rewrite lookup_insert_eq.
  by rewrite insert_insert_eq.
Qed.

Lemma group_distinct (ps : IAMPolicyStatementPrincipalSet) raw :
  NoDup (Type' <$> ps) →
  (∀ p, p ∈ ps → raw !! Type' p = None) →
  (PrincipalSet.group raw ps).1 =
    if decide (Forall (fun p => supported (Identifiers p)) ps)
    then Ok (entry_map ps ∪ raw)
    else Panic (PanicMsg PrincipalSet.panic_msg).
Proof.
  revert raw. induction ps as [|p ps IH]; intros raw Hnd Hraw.
  { cbn [PrincipalSet.group fst]. case_decide as H; [|destruct H; constructor].
    unfold entry_map. simpl. by rewrite (left_id_L ∅ (∪)). }
  rewrite fmap_cons in Hnd. apply NoDup_cons in Hnd as [Hp Hnd].
  rewrite group_cons, group_value_fresh by (apply Hraw; left).
  destruct (decide (supported (Identifiers p))) as [Hs|Hs].
  - rewrite IH; [|done|].
    2:{ intros q Hq. rewrite lookup_insert_ne; [apply Hraw; by right|].
        intros Heq. apply Hp. rewrite Heq. by apply list_elem_of_fmap_2. }
    destruct (decide (Forall (fun p => supported (Identifiers p)) ps)) as [Ha|Ha].
    + rewrite decide_True by by constructor.
      f_equal. unfold entry_map. rewrite fmap_cons. simpl.
      rewrite <-insert_union_l. symmetry. apply insert_union_r.
      apply not_elem_of_list_to_map_1. rewrite <-list_fmap_compose. done.
    + rewrite decide_False; [done|]. by intros [_ ?]%Forall_cons.
  - rewrite decide_False; [done|]. by intros [? _]%Forall_cons.
Qed.

Lemma same_identifiers_sorted v w :
  same_identifiers v w → sort_in_place v = sort_in_place w.
Proof.
  destruct v, w; simpl; try done; try (intros [= ->]; done).
  intros Hp. f_equal. by apply sort_desc_proper.
Qed.

Lemma same_identifiers_supported v w :
  same_identifiers v w → supported v ↔ supported w.
Proof. destruct v, w; simpl; try done; by intros [= ->]. Qed.

Lemma same_principals_entry_map ps ps' :
  NoDup (Type' <$> ps) → same_principals ps ps' → entry_map ps = entry_map ps'.
Proof.
  intros Hnd (ps'' & Hp & Hf). unfold entry_map.
  assert (((fun p => (Type' p, sort_in_place (Identifiers p))) <$> ps'')
          = ((fun p => (Type' p, sort_in_place (Identifiers p))) <$> ps')) as <-.
  { clear Hp. induction Hf as [|p q l l' [HT Hi] _ IH]; [done|].
    rewrite !fmap_cons, IH, HT. do 2 f_equal. by apply same_identifiers_sorted. }
  apply list_to_map_proper; [|by rewrite Hp].
  by rewrite <-list_fmap_compose.
Qed.

Lemma same_principals_types ps ps' :
  same_principals ps ps' → Type' <$> ps ≡ₚ Type' <$> ps'.
Proof.
  intros (ps'' & Hp & Hf). rewrite Hp. clear Hp.
  induction Hf as [|p q l l' [HT _] _ IH]; [done|].
  by rewrite !fmap_cons, IH, HT.
Qed.

Lemma same_principals_supported ps ps' :
  same_principals ps ps' →
  Forall (fun p => supported (Identifiers p)) ps ↔
  Forall (fun p => supported (Identifiers p)) ps'.
Proof.
  intros (ps'' & Hp & Hf). rewrite Hp. clear Hp.
  induction Hf as [|p q l l' [_ Hi] _ IH]; [done|].
  rewrite !Forall_cons, IH. by rewrite (same_identifiers_supported _ _ Hi).
Qed.

Lemma same_principals_wildcard ps ps' :
  same_principals ps ps' →
  PrincipalSet.is_wildcard ps = PrincipalSet.is_wildcard ps'.
Proof.
  intros (ps'' & Hp & Hf).
  pose proof (Permutation_length Hp) as Hl1.
  pose proof (Forall2_length _ _ _ Hf) as Hl2.
  destruct ps as [|p [|? ?]], ps'' as [|p'' [|? ?]], ps' as [|q [|? ?]];
    simpl in Hl1, Hl2; try lia; try done.
  apply Permutation_singleton_l in Hp as [= <-].
  apply Forall2_cons_1 in Hf as [[HT Hi] _]. simpl. rewrite HT. f_equal.
  destruct (Identifiers p) as [| | |s|l| | |], (Identifiers q) as [| | |s'|l'| | |];
    simpl in Hi; try done; try (by injection Hi as ->).
  destruct l as [|a [|? ?]].
  - apply Permutation_nil_l in Hi. by subst.
  - apply Permutation_singleton_l in Hi. by subst.
  - pose proof (Permutation_length Hi) as Hl.
    by destruct l' as [|? [|? ?]]; simpl in Hl; try lia.
Qed.

(** X9: two principal sets whose entries have distinct types and that
    differ only in the order of their entries and in the order of the
    identifiers inside their lists have the same encoding. *)
Theorem MarshalJSON_same_principals (ps ps' : IAMPolicyStatementPrincipalSet) :
  NoDup (Type' <$> ps) → same_principals ps ps' →
  (PrincipalSet.MarshalJSON ps).1 = (PrincipalSet.MarshalJSON ps').1.
Proof.
  intros Hnd Hsame.
  pose proof (same_principals_wildcard _ _ Hsame) as Hw.
  destruct (PrincipalSet.is_wildcard ps) eqn:Hw1.
  { unfold PrincipalSet.MarshalJSON. by rewrite Hw1, <-Hw. }
  rewrite !MarshalJSON_not_wildcard by congruence.
  assert (NoDup (Type' <$> ps')) as Hnd'.
  { by rewrite <-(same_principals_types _ _ Hsame). }
  rewrite !group_distinct by (done || by intros; rewrite lookup_empty).
  rewrite (same_principals_entry_map _ _ Hnd Hsame).
  destruct (decide (Forall _ ps)) as [Ha|Ha], (decide (Forall _ ps')) as [Ha'|Ha'];
    try done.
  - destruct Ha'. by apply (same_principals_supported _ _ Hsame).
  - destruct Ha. by apply (same_principals_supported _ _ Hsame).
Qed.

Lemma MarshalJSON_same_principals_witness :
  (PrincipalSet.MarshalJSON
     [ {| Type' := "AWS"; Identifiers := IStrings ["a"; "b"] |};
       {| Type' := "Service"; Identifiers := IStr "s3" |} ]).1
  = (PrincipalSet.MarshalJSON
       [ {| Type' := "Service"; Identifiers := IStr "s3" |};
         {| Type' := "AWS"; Identifiers := IStrings ["b"; "a"] |} ]).1.
Proof.
  apply MarshalJSON_same_principals.
  - simpl. apply NoDup_cons. split; [intros H; not_in_list H|apply NoDup_singleton].
  - exists [ {| Type' := "Service"; Identifiers := IStr "s3" |};
             {| Type' := "AWS"; Identifiers := IStrings ["a"; "b"] |} ].
    split; [apply perm_swap|].
    constructor; [by split|]. constructor; [|constructor].
    split; [done|]. simpl. apply perm_swap.
Defined.

Lemma elem_of_entry_map (ps : IAMPolicyStatementPrincipalSet) T x :
  NoDup (Type' <$> ps) →
  entry_map ps !! T = Some x ↔
  ∃ p, p ∈ ps ∧ Type' p = T ∧ x = sort_in_place (Identifiers p).
Proof.
  intros Hnd. unfold entry_map.
  rewrite <-elem_of_list_to_map by by rewrite <-list_fmap_compose.
  rewrite list_elem_of_fmap. split.
  - intros (p & [= -> ->] & Hp). eauto.
  - intros (p & Hp & <- & ->). eauto.
Qed.

(** X10: for a principal set whose entries have distinct types (the
    wildcard set apart), the encoder returns an object when every entry
    holds a string or a list of strings, with one member per entry: the
    string, or the list in descending order; and it panics with its
    message when some entry holds anything else. *)
Theorem MarshalJSON_distinct_types (ps : IAMPolicyStatementPrincipalSet) :
  NoDup (Type' <$> ps) → PrincipalSet.is_wildcard ps = false →
  (Forall (fun p => supported (Identifiers p)) ps →
   ∃ kvs, (PrincipalSet.MarshalJSON ps).1 = Ok (JObj kvs) ∧
     length kvs = length ps ∧
     ∀ T v, (T, v) ∈ kvs ↔
       ∃ p, p ∈ ps ∧ Type' p = T ∧ v = marshal_any (sort_in_place (Identifiers p))) ∧
  (¬ Forall (fun p => supported (Identifiers p)) ps →
   (PrincipalSet.MarshalJSON ps).1 = Panic (PanicMsg PrincipalSet.panic_msg)).
Proof.
  intros Hnd Hw. rewrite MarshalJSON_not_wildcard by done.
  rewrite group_distinct by (done || by intros; rewrite lookup_empty).
  rewrite (right_id_L ∅ (∪)). split; intros Hs.
  - rewrite decide_True by done. eexists. split; [done|]. split.
    + rewrite sorted_members_perm, length_map_to_list, map_size_fmap.
      unfold entry_map. rewrite map_size_list_to_map by by rewrite <-list_fmap_compose.
      by rewrite length_fmap.
    + intros T v. rewrite elem_of_sorted_members, lookup_fmap, fmap_Some.
      split.
      * intros (x & (p & Hp & HT & ->)%elem_of_entry_map & ->); eauto.
      * intros (p & Hp & HT & ->). eexists. split; [|done].
        apply elem_of_entry_map; eauto.
  - by rewrite decide_False.
Qed.

Lemma MarshalJSON_distinct_types_witness :
  (PrincipalSet.MarshalJSON
     [ {| Type' := "AWS"; Identifiers := IStrings ["a"; "b"] |};
       {| Type' := "Service"; Identifiers := IArr [IStr "s3"] |} ]).1
  = Panic (PanicMsg PrincipalSet.panic_msg).
Proof.
  apply MarshalJSON_distinct_types.
  - simpl. apply NoDup_cons. split; [intros H; not_in_list H|apply NoDup_singleton].
  - reflexivity.
  - intros H. apply Forall_cons in H as [_ H]. apply Forall_cons in H as [H _].
    exact H.
Defined.

(** ** When the encoder of principal sets returns *)


Lemma group_unsupported (ps : IAMPolicyStatementPrincipalSet) raw q :
  q ∈ ps → ¬ supported (Identifiers q) → is_Panic (PrincipalSet.group raw ps).1.
Proof.
  revert raw. induction ps as [|p ps IH]; intros raw Hq Hs.
  { by apply elem_of_nil in Hq. }
  rewrite group_cons.
  pose proof (group_value_no_error PrincipalSet.panic_msg raw (Type' p) (Identifiers p))
    as Hne.
  destruct (group_value _ raw (Type' p) (Identifiers p)).1 as [raw'|e|x] eqn:Hv;
    [|by destruct (Hne e)|done].
  apply elem_of_cons in Hq as [->|Hq]; [|by apply IH].
  by destruct (Identifiers p).
Qed.

Lemma group_string_then_list_panics (ps : IAMPolicyStatementPrincipalSet) raw :
  string_then_list ps → is_Panic (PrincipalSet.group raw ps).1.
Proof.
  revert raw. induction ps as [|p ps IH]; intros raw.
  { intros (i & j & p' & q & s & l & _ & Hp & _). by destruct i. }
  intros [(s & q & l & Hs & Hq & HT & Hl)|Hrest]%string_then_list_cons;
    rewrite group_cons.
  - rewrite Hs. simpl.
    apply (group_string_then_list _ _ (Type' p) s q l); auto.
    by rewrite lookup_insert_eq.
  - pose proof (group_value_no_error PrincipalSet.panic_msg raw (Type' p) (Identifiers p))
      as Hne.
    destruct (group_value _ raw (Type' p) (Identifiers p)).1 as [raw'|e|x];
      [by apply IH|by destruct (Hne e)|done].
Qed.

Lemma group_value_list_returns msg raw key l :
  (∀ v, raw !! key = Some v → holds_strings v) →
  ∃ cur, (group_value msg raw key (IStrings l)).1 =
           Ok (<[key := IStrings (cur ++ sort_desc l)]> raw).
Proof.
  intros Hraw. simpl. unfold append_strings.
  destruct (raw !! key) as [v|] eqn:Hk.
  - destruct (Hraw _ eq_refl) as [cur ->]. exists cur. by rewrite Hk.
  - exists []. rewrite lookup_insert_eq. by rewrite insert_insert_eq.
Qed.

(** The loop runs to its end when every entry is supported, no string
    is followed by a list of its type, and no list comes for a type
    under which [raw] holds a string. *)
Lemma group_returns (ps : IAMPolicyStatementPrincipalSet) raw :
  Forall (fun p => supported (Identifiers p)) ps →
  ¬ string_then_list ps →
  (∀ T v q, raw !! T = Some v → ¬ holds_strings v →
            q ∈ ps → Type' q = T → ¬ holds_strings (Identifiers q)) →
  is_Ok (PrincipalSet.group raw ps).1.
Proof.
  revert raw. induction ps as [|p ps IH]; intros raw Hs Hc Hraw; [done|].
  apply Forall_cons in Hs as [Hp Hs]. rewrite group_cons.
  assert (¬ string_then_list ps) as Hc'.
  { intros H. apply Hc, string_then_list_cons. by right. }
  destruct (Identifiers p) as [| | |s|l| | |] eqn:Hi; try done.
  - (* a string *)
    simpl. apply IH; [done..|].
    intros T v q. rewrite lookup_insert. case_decide as HT.
    + subst T. intros [= <-] _ Hq HTq [l Hl].
      apply Hc, string_then_list_cons. left. exists s, q, l. done.
    + intros Hv Hnl Hq. apply (Hraw T v q Hv Hnl). by right.
  - (* a list *)
    destruct (group_value_list_returns PrincipalSet.panic_msg raw (Type' p) l)
      as [cur ->].
    { intros v Hv. destruct v as [| | | |l'| | |]; try (by eexists);
        destruct (Hraw (Type' p) _ p Hv); try (by left); try done;
        try (by intros [? ?]); rewrite Hi; by eexists. }
    apply IH; [done..|].
    intros T v q. rewrite lookup_insert. case_decide as HT.
    + intros [= <-] Hnl. destruct Hnl. by eexists.
    + intros Hv Hnl Hq. apply (Hraw T v q Hv Hnl). by right.
Qed.

Lemma ps_MarshalJSON_no_error (ps : IAMPolicyStatementPrincipalSet) e :
  (PrincipalSet.MarshalJSON ps).1 ≠ Err e.
Proof.
  destruct (PrincipalSet.is_wildcard ps) eqn:Hw.
  - unfold PrincipalSet.MarshalJSON. by rewrite Hw.
  - rewrite MarshalJSON_not_wildcard by done.
    pose proof (group_no_error ∅ ps) as Hne.
    destruct (PrincipalSet.group ∅ ps).1 as [raw|e'|x]; [done| |done].
    by destruct (Hne e').
Qed.

Lemma ps_MarshalJSON_Ok_iff (ps : IAMPolicyStatementPrincipalSet) :
  is_Ok (PrincipalSet.MarshalJSON ps).1 ↔
  Forall (fun p => supported (Identifiers p)) ps ∧ ¬ string_then_list ps.
Proof.
  destruct (PrincipalSet.is_wildcard ps) eqn:Hw.
  - unfold PrincipalSet.MarshalJSON. rewrite Hw. simpl. split; [intros _|done].
    apply is_wildcard_spec in Hw as (p & -> & _ & Hi). split.
    + constructor; [|constructor]. by destruct Hi as [-> | ->].
    + intros (i & j & p' & q & s & l & Hij & Hp & Hq & _).
      destruct j as [|j]; [lia|]. simpl in Hq. by rewrite lookup_nil in Hq.
  - rewrite MarshalJSON_not_wildcard by done. split.
    + intros Hok. split.
      * apply Forall_forall. intros q Hq.
        destruct (decide (supported (Identifiers q))) as [|Hs]; [done|].
        pose proof (group_unsupported ps ∅ q Hq Hs) as Hp.
        by destruct (PrincipalSet.group ∅ ps).1.
      * intros Hc. pose proof (group_string_then_list_panics ps ∅ Hc) as Hp.
        by destruct (PrincipalSet.group ∅ ps).1.
    + intros [Hs Hc].
      pose proof (group_returns ps ∅ Hs Hc) as Hok.
      destruct (PrincipalSet.group ∅ ps).1; [done|apply Hok..];
        intros T v q Hv; by rewrite lookup_empty in Hv.
Qed.

(** A call that returns no error panics exactly when it does not
    return. *)
Lemma is_Panic_iff {A} (r : outcome A) (P : Prop) :
  (∀ e, r ≠ Err e) → (is_Ok r ↔ P) → (is_Panic r ↔ ¬ P).
Proof.
  intros Hne Hiff. rewrite <-Hiff. destruct r as [a|e|x]; simpl.
  - split; [done|]. by intros [].
  - by destruct (Hne e).
  - split; [|done]. intros _ [].
Qed.

(** X11: the encoder of principal sets returns exactly when every entry
    holds a string or a list of strings and no entry that holds a string
    is followed by an entry of the same type that holds a list; in every
    other case it panics. *)
Theorem MarshalJSON_returns_iff (ps : IAMPolicyStatementPrincipalSet) :
  (is_Ok (PrincipalSet.MarshalJSON ps).1 ↔
   Forall (fun p => supported (Identifiers p)) ps ∧ ¬ string_then_list ps) ∧
  (is_Panic (PrincipalSet.MarshalJSON ps).1 ↔
   ¬ (Forall (fun p => supported (Identifiers p)) ps ∧ ¬ string_then_list ps)).
Proof.
  split; [apply ps_MarshalJSON_Ok_iff|].
  apply is_Panic_iff; [apply ps_MarshalJSON_no_error|apply ps_MarshalJSON_Ok_iff].
Qed.

(** ** The decoder of principal sets *)

Lemma members_to_map_snoc {A} (kvs : list (string * A)) k v :
  members_to_map (kvs ++ [(k, v)]) = <[k := v]> (members_to_map kvs).
Proof. unfold members_to_map. by rewrite fold_left_app. Qed.

(** A name has the value of its last member. *)
Lemma lookup_members_to_map {A} (kvs : list (string * A)) k v :
  members_to_map kvs !! k = Some v ↔
  ∃ pre post, kvs = pre ++ (k, v) :: post ∧ k ∉ post.*1.
Proof.
  induction kvs as [|[k' v'] kvs IH] using rev_ind.
  { split; [done|]. intros (pre & post & H & _). by destruct pre. }
  rewrite members_to_map_snoc, lookup_insert. case_decide as Hk.
  - subst k'. split.
    + intros [= ->]. exists kvs, []. split; [done|]. apply not_elem_of_nil.
    + intros (pre & post & H & Hpost).
      destruct post as [|kv post _] using rev_ind.
      * apply app_inj_tail in H as [_ [= ->]]. done.
      * rewrite app_comm_cons, app_assoc in H. apply app_inj_tail in H as [_ <-].
        destruct Hpost. rewrite fmap_app. apply elem_of_app. right. by left.
  - rewrite IH. split.
    + intros (pre & post & -> & Hpost). exists pre, (post ++ [(k', v')]).
      split; [by rewrite <-app_assoc|].
      rewrite fmap_app, elem_of_app. intros [?|Hin]; [done|].
      apply list_elem_of_singleton in Hin. done.
    + intros (pre & post & H & Hpost).
      destruct post as [|kv post _] using rev_ind.
      * apply app_inj_tail in H as [_ [= <- _]]. done.
      * rewrite app_comm_cons, app_assoc in H. apply app_inj_tail in H as [-> <-].
        exists pre, post. split; [done|].
        intros Hin. apply Hpost. rewrite fmap_app. apply elem_of_app. by left.
Qed.

Lemma map_is_fmap {A B} (f : A → B) (l : list A) : map f l = f <$> l.
Proof. induction l as [|x l IH]; [done|]. simpl. by rewrite IH. Qed.

Lemma unmarshal_any_not_strings (j : json) l : unmarshal_any j ≠ IStrings l.
Proof. destruct j; try done. simpl. by destruct (float64_of n). Qed.

Lemma unmarshal_any_string (j : json) s : unmarshal_any j = IStr s ↔ j = JStr s.
Proof.
  destruct j; simpl; try (split; congruence).
  destruct (float64_of n); split; congruence.
Qed.

Lemma lookup_decoded_members (kvs : list (string * json)) T v :
  decoded_members kvs !! T = Some v ↔
  ∃ pre j post, kvs = pre ++ (T, j) :: post ∧ (T ∉ post.*1) ∧ v = unmarshal_any j.
Proof.
  unfold decoded_members. rewrite map_is_fmap, lookup_members_to_map. split.
  - intros (pre & post & H & Hpost).
    apply fmap_app_inv in H as (pre' & kvs' & Hpre & H & ->).
    symmetry in H. apply fmap_cons_inv in H as ([T' j] & post' & [= <- ->] & -> & ->).
    exists pre', j, post'. split; [done|]. split; [|done].
    by rewrite <-list_fmap_compose in Hpost.
  - intros (pre & j & post & -> & Hpost & ->).
    exists ((fun kv : string * json => (kv.1, unmarshal_any kv.2)) <$> pre),
      ((fun kv : string * json => (kv.1, unmarshal_any kv.2)) <$> post).
    split; [by rewrite fmap_app|]. by rewrite <-list_fmap_compose.
Qed.

(** What the decoder returns for an object, along any order of visit. *)
Lemma UnmarshalJSON_object (kvs : list (string * json)) r :
  numbers_fit (JObj kvs) = true →
  r ∈ PrincipalSet.UnmarshalJSON (JObj kvs) ↔
  ∃ visit, map_to_list (decoded_members kvs) ≡ₚ visit ∧ r = Ok (principal_of <$> visit).
Proof.
  intros Hfit. unfold PrincipalSet.UnmarshalJSON. rewrite Hfit.
  cbn [unmarshal_any]. rewrite list_elem_of_fmap.
  split.
  - intros (visit & -> & Hv). exists visit.
    split; [by apply permutations_Permutation|reflexivity].
  - intros (visit & Hv & ->). exists visit.
    split; [reflexivity|by apply permutations_Permutation].
Qed.

Lemma UnmarshalJSON_other (b : json) :
  numbers_fit b = true → (∀ s, b ≠ JStr s) → (∀ kvs, b ≠ JObj kvs) →
  PrincipalSet.UnmarshalJSON b = [Err UnsupportedDataType].
Proof.
  intros Hfit Hs Ho. unfold PrincipalSet.UnmarshalJSON. rewrite Hfit.
  destruct b; try done; [|by destruct (Hs s)|by destruct (Ho kvs)].
  cbn [unmarshal_any]. by destruct (float64_of n).
Qed.

Lemma visited_types (data : gmap string iface) visit :
  map_to_list data ≡ₚ visit → NoDup (Type' <$> (principal_of <$> visit)).
Proof.
  intros Hp. rewrite <-list_fmap_compose, <-Hp. apply NoDup_fst_map_to_list.
Qed.

Lemma visited_entry (data : gmap string iface) visit T v :
  map_to_list data ≡ₚ visit →
  (∃ p, p ∈ principal_of <$> visit ∧ Type' p = T ∧ Identifiers p = v) ↔
  data !! T = Some v.
Proof.
  intros Hp. rewrite <-elem_of_map_to_list, Hp. split.
  - intros (p & ([T' v'] & -> & Hin)%list_elem_of_fmap & <- & <-). done.
  - intros Hin. exists (principal_of (T, v)). split; [|done].
    by apply list_elem_of_fmap_2.
Qed.

Lemma json_shape (b : json) :
  (∃ s, b = JStr s) ∨ (∃ kvs, b = JObj kvs) ∨
  ((∀ s, b ≠ JStr s) ∧ (∀ kvs, b ≠ JObj kvs)).
Proof. destruct b; eauto; right; right; by split. Qed.

(** X12: the decoder of principal sets never panics.  When a number of
    the JSON value has no float64 it returns the error of
    [json.Unmarshal].  Otherwise a JSON string, whatever it is, gives
    the one principal of type "*" and identifiers ["*"]; an object
    gives, in some order, one principal per distinct member name, with
    the decoded value of the last member of that name as its
    identifiers; any other JSON value gives the error of the
    decoder. *)
Theorem UnmarshalJSON_principals (b : json) :
  PrincipalSet.UnmarshalJSON b ≠ [] ∧
  (∀ r, r ∈ PrincipalSet.UnmarshalJSON b → ¬ is_Panic r) ∧
  (numbers_fit b = false →
   PrincipalSet.UnmarshalJSON b = [Err UnmarshalTypeError]) ∧
  (∀ s, b = JStr s →
     PrincipalSet.UnmarshalJSON b
     = [Ok [ {| Type' := "*"; Identifiers := IStrings ["*"] |} ]]) ∧
  (∀ kvs r, b = JObj kvs → numbers_fit b = true →
     r ∈ PrincipalSet.UnmarshalJSON b →
     ∃ ps, r = Ok ps ∧ NoDup (Type' <$> ps) ∧
       ∀ T v, (∃ p, p ∈ ps ∧ Type' p = T ∧ Identifiers p = v) ↔
              ∃ pre j post, kvs = pre ++ (T, j) :: post ∧ (T ∉ post.*1) ∧
                            v = unmarshal_any j) ∧
  (numbers_fit b = true → (∀ s, b ≠ JStr s) → (∀ kvs, b ≠ JObj kvs) →
     PrincipalSet.UnmarshalJSON b = [Err UnsupportedDataType]).
Proof.
  assert (numbers_fit b = false →
          PrincipalSet.UnmarshalJSON b = [Err UnmarshalTypeError]) as Hbad.
  { intros Hfit. unfold PrincipalSet.UnmarshalJSON. by rewrite Hfit. }
  assert (∀ r, r ∈ PrincipalSet.UnmarshalJSON b → ¬ is_Panic r) as Hnp.
  { intros r Hr. destruct (numbers_fit b) eqn:Hfit.
    - destruct (json_shape b) as [[s ->]|[[kvs ->]|[Hs Ho]]].
      + apply list_elem_of_singleton in Hr as ->. exact (fun H => H).
      + apply UnmarshalJSON_object in Hr as (visit & _ & ->); [|done].
        exact (fun H => H).
      + rewrite UnmarshalJSON_other in Hr by done.
        apply list_elem_of_singleton in Hr as ->. exact (fun H => H).
    - rewrite Hbad in Hr by done.
      apply list_elem_of_singleton in Hr as ->. exact (fun H => H). }
  split; [|split; [done|split; [done|split; [|split]]]].
  - destruct (numbers_fit b) eqn:Hfit; [|by rewrite Hbad].
    destruct (json_shape b) as [[s ->]|[[kvs ->]|[Hs Ho]]]; [done| |].
    + intros H.
      assert (Ok (principal_of <$> map_to_list (decoded_members kvs))
              ∈ PrincipalSet.UnmarshalJSON (JObj kvs)) as Hin.
      { apply UnmarshalJSON_object; [done|]. by eexists. }
      rewrite H in Hin. by apply elem_of_nil in Hin.
    + by rewrite UnmarshalJSON_other.
  - by intros s ->.
  - intros kvs r -> Hfit (visit & Hp & ->)%UnmarshalJSON_object; [|done].
    eexists. split; [done|]. split; [by eapply visited_types|].
    intros T v. rewrite (visited_entry _ _ _ _ Hp). apply lookup_decoded_members.
  - apply UnmarshalJSON_other.
Qed.

Lemma UnmarshalJSON_principals_witness :
  PrincipalSet.UnmarshalJSON (JArr [JStr "*"]) = [Err UnsupportedDataType] ∧
  PrincipalSet.UnmarshalJSON (JObj [("AWS", JNum (10 ^ 400))])
  = [Err UnmarshalTypeError].
Proof.
  split.
  - apply (proj2 (proj2 (proj2 (proj2 (proj2
             (UnmarshalJSON_principals (JArr [JStr "*"]))))))).
    + reflexivity.
    + discriminate.
    + discriminate.
  - apply (proj1 (proj2 (proj2
             (UnmarshalJSON_principals (JObj [("AWS", JNum (10 ^ 400))]))))).
    vm_compute. reflexivity.
Defined.

(** ** Decoding a principal set and encoding it again *)

Section decoded_principals.
Context (kvs : list (string * json)) (visit : list (string * iface)).
Hypothesis Hvisit : map_to_list (decoded_members kvs) ≡ₚ visit.

Lemma decoded_not_strings T v :
  decoded_members kvs !! T = Some v → sort_in_place v = v.
Proof.
  intros (pre & j & post & _ & _ & ->)%lookup_decoded_members.
  destruct j; try done. simpl. by destruct (float64_of n).
Qed.

Lemma decoded_list_to_map : list_to_map visit = decoded_members kvs.
Proof.
  rewrite <-(list_to_map_to_list (decoded_members kvs)).
  symmetry. apply list_to_map_proper; [apply NoDup_fst_map_to_list|done].
Qed.

Lemma decoded_entry_map : entry_map (principal_of <$> visit) = decoded_members kvs.
Proof.
  unfold entry_map. rewrite <-list_fmap_compose.
  rewrite <-decoded_list_to_map. f_equal.
  rewrite <-(list_fmap_id visit) at 2.
  apply list_fmap_ext. intros i [T v] Hi. simpl. f_equal.
  apply (decoded_not_strings T).
  apply elem_of_map_to_list. rewrite Hvisit. apply list_elem_of_lookup. eauto.
Qed.

Lemma decoded_supported :
  Forall (fun p => supported (Identifiers p)) (principal_of <$> visit) ↔
  ∀ T v, decoded_members kvs !! T = Some v → ∃ s, v = IStr s.
Proof.
  rewrite Forall_forall. split.
  - intros Hs T v Hv.
    pose proof Hv as (pre & j & post & _ & _ & Hj)%lookup_decoded_members.
    apply (visited_entry _ _ _ _ Hvisit) in Hv as (p & Hp & _ & <-).
    specialize (Hs p Hp). rewrite Hj in *.
    destruct j; try done; [|by eexists]. simpl in Hs. by destruct (float64_of n).
  - intros Hd p Hp.
    assert (decoded_members kvs !! Type' p = Some (Identifiers p)) as Hv.
    { apply (visited_entry _ _ _ _ Hvisit). eauto. }
    destruct (Hd _ _ Hv) as [s ->]. done.
Qed.

End decoded_principals.

Lemma decoded_wildcard (kvs : list (string * json)) (visit : list (string * iface)) :
  map_to_list (decoded_members kvs) ≡ₚ visit →
  PrincipalSet.is_wildcard (principal_of <$> visit) = true ↔
  ∃ T, (T = "AWS" ∨ T = "*") ∧ decoded_members kvs = {[T := IStr "*"]}.
Proof.
  intros Hvisit. rewrite is_wildcard_spec. split.
  - intros (p & Hp & HT & Hi). exists (Type' p). split; [done|].
    pose proof (decoded_list_to_map kvs visit Hvisit) as Hlm.
    destruct visit as [|[T v] [|? ?]]; try done. injection Hp as <-. simpl in *.
    rewrite <-Hlm, insert_empty.
    destruct Hi as [-> | ->]; [done|].
    assert (decoded_members kvs !! T = Some (IStrings ["*"])) as Hv.
    { apply elem_of_map_to_list. rewrite Hvisit. left. }
    apply lookup_decoded_members in Hv as (pre & j & post & _ & _ & Hj).
    symmetry in Hj. by apply unmarshal_any_not_strings in Hj.
  - intros (T & HT & Hd). rewrite Hd, map_to_list_singleton in Hvisit.
    apply Permutation_singleton_l in Hvisit. subst visit.
    exists (principal_of (T, IStr "*")). split; [done|]. split; [done|]. by left.
Qed.


Lemma decoded_strings_encode (kvs : list (string * json)) r :
  numbers_fit (JObj kvs) = true →
  (∀ T v, decoded_members kvs !! T = Some v → ∃ s, v = IStr s) →
  r ∈ PrincipalSet.UnmarshalJSON (JObj kvs) →
  ∃ ps, r = Ok ps ∧
    (PrincipalSet.is_wildcard ps = true ↔
     ∃ T, (T = "AWS" ∨ T = "*") ∧ decoded_members kvs = {[T := IStr "*"]}) ∧
    (PrincipalSet.is_wildcard ps = true →
     (PrincipalSet.MarshalJSON ps).1 = Ok (JStr "*")) ∧
    (PrincipalSet.is_wildcard ps = false →
     ∃ kvs', (PrincipalSet.MarshalJSON ps).1 = Ok (JObj kvs') ∧
       Sorted key_le kvs' ∧ NoDup kvs'.*1 ∧
       ∀ T j, (T, j) ∈ kvs' ↔
         ∃ pre s post, kvs = pre ++ (T, JStr s) :: post ∧ (T ∉ post.*1) ∧ j = JStr s).
Proof.
  intros Hfit Hstr (visit & Hp & ->)%UnmarshalJSON_object; [|done].
  eexists. split; [done|]. split; [by apply decoded_wildcard|].
  split.
  { intros Hw. unfold PrincipalSet.MarshalJSON. by rewrite Hw. }
  intros Hw. rewrite MarshalJSON_not_wildcard by done.
  rewrite group_distinct;
    [|by eapply visited_types|by intros; rewrite lookup_empty].
  rewrite decide_True by by apply (decoded_supported kvs).
  rewrite (right_id_L ∅ (∪)), (decoded_entry_map kvs) by done.
  eexists. split; [done|].
  split; [apply sorted_members_sorted|]. split; [apply NoDup_sorted_members|].
  intros T j. rewrite elem_of_sorted_members, lookup_fmap, fmap_Some. split.
  - intros (v & Hv & ->). destruct (Hstr _ _ Hv) as [s ->].
    apply lookup_decoded_members in Hv as (pre & j & post & -> & Hpost & Hj).
    symmetry in Hj. apply unmarshal_any_string in Hj as ->. eauto 6.
  - intros (pre & s & post & -> & Hpost & ->). exists (IStr s). split; [|done].
    apply lookup_decoded_members. eauto 6.
Qed.


(** X13: when the last member of every name of a JSON object is a JSON
    string, every principal set the object decodes to is encoded, and to
    the same JSON whatever the order of visit: the string "*" when the
    object is [{"AWS": "*"}] or [{"*": "*"}], and otherwise the object of
    the same names and strings, sorted by name.  The object decodes to
    a set unless one of its numbers has no float64. *)
Theorem UnmarshalJSON_MarshalJSON_strings (kvs : list (string * json)) r :
  (∀ T v, decoded_members kvs !! T = Some v → ∃ s, v = IStr s) →
  r ∈ PrincipalSet.UnmarshalJSON (JObj kvs) →
  (numbers_fit (JObj kvs) = true → is_Ok r) ∧
  ∀ ps, r = Ok ps →
    (PrincipalSet.is_wildcard ps = true ↔
     ∃ T, (T = "AWS" ∨ T = "*") ∧ decoded_members kvs = {[T := IStr "*"]}) ∧
    (PrincipalSet.is_wildcard ps = true →
     (PrincipalSet.MarshalJSON ps).1 = Ok (JStr "*")) ∧
    (PrincipalSet.is_wildcard ps = false →
     ∃ kvs', (PrincipalSet.MarshalJSON ps).1 = Ok (JObj kvs') ∧
       Sorted key_le kvs' ∧ NoDup kvs'.*1 ∧
       ∀ T j, (T, j) ∈ kvs' ↔
         ∃ pre s post, kvs = pre ++ (T, JStr s) :: post ∧ (T ∉ post.*1) ∧ j = JStr s).
Proof.
  intros Hstr Hr. destruct (numbers_fit (JObj kvs)) eqn:Hfit.
  - destruct (decoded_strings_encode kvs r Hfit Hstr Hr) as (ps & -> & H).
    split; [done|]. by intros ps' [= <-].
  - unfold PrincipalSet.UnmarshalJSON in Hr. rewrite Hfit in Hr.
    apply list_elem_of_singleton in Hr as ->. split; [done|]. by intros ps [=].
Qed.

Lemma UnmarshalJSON_MarshalJSON_strings_witness :
  (PrincipalSet.MarshalJSON [ {| Type' := "*"; Identifiers := IStr "*" |} ]).1
  = Ok (JStr "*").
Proof.
  destruct (UnmarshalJSON_MarshalJSON_strings [("*", JStr "*")]
              (Ok [ {| Type' := "*"; Identifiers := IStr "*" |} ])) as [_ H].
  - intros T v Hv. unfold decoded_members, members_to_map in Hv. simpl in Hv.
    apply lookup_insert_Some in Hv as [[_ <-]|[_ Hv]]; [by eexists|].
    by rewrite lookup_empty in Hv.
  - vm_compute. left.
  - destruct (H _ eq_refl) as (_ & Hw & _). by apply Hw.
Defined.

Lemma decoded_other_panics (kvs : list (string * json)) r T v :
  numbers_fit (JObj kvs) = true →
  decoded_members kvs !! T = Some v → (∀ s, v ≠ IStr s) →
  r ∈ PrincipalSet.UnmarshalJSON (JObj kvs) →
  ∃ ps, r = Ok ps ∧
    (PrincipalSet.MarshalJSON ps).1 = Panic (PanicMsg PrincipalSet.panic_msg).
Proof.
  intros Hfit Hv Hns (visit & Hp & ->)%UnmarshalJSON_object; [|done].
  eexists. split; [done|].
  assert (PrincipalSet.is_wildcard (principal_of <$> visit) = false) as Hw.
  { destruct (PrincipalSet.is_wildcard _) eqn:Hw; [|done].
    apply (decoded_wildcard kvs visit Hp) in Hw as (T' & _ & Hd).
    rewrite Hd in Hv. apply lookup_singleton_Some in Hv as [_ <-]. by destruct (Hns "*"). }
  rewrite MarshalJSON_not_wildcard by done.
  rewrite group_distinct;
    [|by eapply visited_types|by intros; rewrite lookup_empty].
  rewrite decide_False; [done|].
  intros Hs. pose proof (proj1 (decoded_supported kvs visit Hp) Hs) as Hs'.
  destruct (Hs' _ _ Hv) as [s ->]. by destruct (Hns s).
Qed.


(** X14: when the last member of some name of a JSON object is not a
    JSON string (an array of strings, for one), the encoder panics with
    its message on every principal set the object decodes to.  The
    object decodes to a set unless one of its numbers has no float64. *)
Theorem UnmarshalJSON_MarshalJSON_other (kvs : list (string * json)) r T v :
  decoded_members kvs !! T = Some v → (∀ s, v ≠ IStr s) →
  r ∈ PrincipalSet.UnmarshalJSON (JObj kvs) →
  (numbers_fit (JObj kvs) = true → is_Ok r) ∧
  ∀ ps, r = Ok ps →
    (PrincipalSet.MarshalJSON ps).1 = Panic (PanicMsg PrincipalSet.panic_msg).
Proof.
  intros Hv Hns Hr. destruct (numbers_fit (JObj kvs)) eqn:Hfit.
  - destruct (decoded_other_panics kvs r T v Hfit Hv Hns Hr) as (ps & -> & H).
    split; [done|]. by intros ps' [= <-].
  - unfold PrincipalSet.UnmarshalJSON in Hr. rewrite Hfit in Hr.
    apply list_elem_of_singleton in Hr as ->. split; [done|]. by intros ps [=].
Qed.

Lemma UnmarshalJSON_MarshalJSON_other_witness :
  (PrincipalSet.MarshalJSON
     [ {| Type' := "AWS"; Identifiers := IArr [IStr "b"; IStr "a"] |} ]).1
  = Panic (PanicMsg PrincipalSet.panic_msg).
Proof.
  destruct (UnmarshalJSON_MarshalJSON_other
              [("AWS", JArr [JStr "b"; JStr "a"])]
              (Ok [ {| Type' := "AWS"; Identifiers := IArr [IStr "b"; IStr "a"] |} ])
              "AWS" (IArr [IStr "b"; IStr "a"])) as [_ H].
  - vm_compute. reflexivity.
  - discriminate.
  - vm_compute. left.
  - by apply H.
Defined.

(** ** The loop of [ConditionSet.MarshalJSON] on lists *)

Lemma at_pair_insert raw t x v t' x' :
  at_pair (<[t := <[x := v]> (default ∅ (raw !! t))]> raw) t' x' =
    if decide ((t, x) = (t', x')) then Some v else at_pair raw t' x'.
Proof.
  unfold at_pair. destruct (decide (t = t')) as [<-|Ht].
  - rewrite lookup_insert_eq. cbn [mbind option_bind].
    destruct (decide (x = x')) as [<-|Hx].
    + rewrite lookup_insert_eq. by rewrite decide_True.
    + rewrite lookup_insert_ne by done. rewrite decide_False by congruence.
      by destruct (raw !! t).
  - rewrite lookup_insert_ne by done. by rewrite decide_False by congruence.
Qed.

Lemma cs_group_cons raw c (cs : IAMPolicyStatementConditionSet) :
  (ConditionSet.group raw (c :: cs)).1 =
    match (ConditionSet.group_condition raw c).1 with
    | Ok raw' => (ConditionSet.group raw' cs).1
    | Err e => Err e
    | Panic x => Panic x
    end.
Proof.
  cbn [ConditionSet.group].
  destruct (ConditionSet.group_condition raw c) as [[raw'|e|x] c']; [|done..].
  cbn [fst]. by destruct (ConditionSet.group raw' cs).
Qed.

Lemma cs_group_condition_result raw c :
  (ConditionSet.group_condition raw c).1 =
    match (group_value ConditionSet.panic_msg (default ∅ (raw !! Test c))
             (Variable' c) (Values c)).1 with
    | Ok inner' => Ok (<[Test c := inner']> raw)
    | Err e => Err e
    | Panic x => Panic x
    end.
Proof.
  unfold ConditionSet.group_condition.
  by destruct (group_value _ _ (Variable' c) (Values c)) as [[inner|e|x] vs].
Qed.

Lemma cs_group_condition_list raw c l :
  Values c = IStrings l →
  (∀ v, at_pair raw (Test c) (Variable' c) = Some v → holds_strings v) →
  ∃ cur,
    (at_pair raw (Test c) (Variable' c) = Some (IStrings cur) ∨
     at_pair raw (Test c) (Variable' c) = None ∧ cur = []) ∧
    (ConditionSet.group_condition raw c).1 =
      Ok (<[Test c := <[Variable' c := IStrings (cur ++ sort_desc l)]>
                        (default ∅ (raw !! Test c))]> raw).
Proof.
  intros Hl Hraw. rewrite cs_group_condition_result, Hl.
  assert (at_pair raw (Test c) (Variable' c) =
          default ∅ (raw !! Test c) !! Variable' c) as Hat.
  { unfold at_pair. by destruct (raw !! Test c). }
  rewrite Hat in *. cbn [group_value fst]. unfold append_strings.
  destruct (default ∅ (raw !! Test c) !! Variable' c) as [v|] eqn:Hk.
  - destruct (Hraw _ eq_refl) as [cur ->]. exists cur. rewrite Hk. eauto.
  - exists []. rewrite lookup_insert_eq. split; [eauto|].
    by rewrite insert_insert_eq.
Qed.

Lemma cs_group_lists (cs : IAMPolicyStatementConditionSet) raw :
  (∀ c, c ∈ cs → holds_strings (Values c)) →
  (∀ t x v, at_pair raw t x = Some v → holds_strings v) →
  ∃ raw', (ConditionSet.group raw cs).1 = Ok raw' ∧
    (∀ t x v, at_pair raw' t x = Some v → holds_strings v) ∧
    (∀ t, is_Some (raw' !! t) ↔ is_Some (raw !! t) ∨ t ∈ Test <$> cs) ∧
    ∀ t x, at_pair raw' t x =
           if decide (is_Some (at_pair raw t x) ∨ (t, x) ∈ pair_of <$> cs)
           then Some (IStrings (strings_at_pair raw t x ++ merged_values cs t x))
           else None.
Proof.
  revert raw. induction cs as [|c cs IH]; intros raw Hcs Hraw.
  { exists raw. split; [done|]. split; [done|]. split.
    - intros t. split; [auto|]. intros [?|H]; [done|]. by apply elem_of_nil in H.
    - intros t x. simpl. unfold strings_at_pair. case_decide as Hd.
      + destruct Hd as [[v Hv]|Hd]; [|by apply elem_of_nil in Hd].
        rewrite Hv. destruct (Hraw _ _ _ Hv) as [l ->]. by rewrite app_nil_r.
      + destruct (at_pair raw t x) eqn:E; [|done]. exfalso. apply Hd. eauto. }
  destruct (Hcs c) as [l Hl]; [left|].
  destruct (cs_group_condition_list raw c l Hl (Hraw _ _)) as (cur & Hcur & Hgc).
  set (raw1 := <[Test c := <[Variable' c := IStrings (cur ++ sort_desc l)]>
                             (default ∅ (raw !! Test c))]> raw) in *.
  assert (∀ t x v, at_pair raw1 t x = Some v → holds_strings v) as Hraw1.
  { intros t x v. unfold raw1. rewrite at_pair_insert. case_decide.
    - intros [= <-]. by eexists.
    - apply Hraw. }
  destruct (IH raw1) as (raw' & Hg & Hraw' & Hdom & Hlook); [|done|].
  { intros q Hq. apply Hcs. by right. }
  exists raw'. split; [|split; [done|split]].
  - by rewrite cs_group_cons, Hgc.
  - intros t. rewrite Hdom, fmap_cons, elem_of_cons. unfold raw1.
    destruct (decide (Test c = t)) as [<-|Ht].
    + rewrite lookup_insert_eq. split; [auto|]. intros _. left. by eexists.
    + rewrite lookup_insert_ne by done. split; [intros [?|?]; auto|].
      intros [?|[?|?]]; auto. by subst t.
  - intros t x. rewrite Hlook. unfold strings_at_pair, raw1.
    rewrite at_pair_insert. cbn [merged_values flat_map]. fold (merged_values cs t x).
    rewrite Hl, fmap_cons. change (pair_of c) with (Test c, Variable' c).
    destruct (decide ((Test c, Variable' c) = (t, x))) as [Hp|Hp].
    + injection Hp as <- <-.
      rewrite decide_True by (left; eauto).
      rewrite decide_True by (right; left).
      destruct Hcur as [Hc|[Hc ->]]; rewrite Hc; by rewrite <-?app_assoc.
    + assert (is_Some (at_pair raw t x) ∨ (t, x) ∈ pair_of <$> cs ↔
              is_Some (at_pair raw t x) ∨
              (t, x) ∈ (Test c, Variable' c) :: (pair_of <$> cs)) as Hiff.
      { rewrite elem_of_cons. split; [intros [?|?]; auto|].
        intros [?|[?|?]]; auto. by destruct Hp. }
      destruct (decide (is_Some (at_pair raw t x) ∨ (t, x) ∈ pair_of <$> cs))
        as [H1|H1].
      * rewrite decide_True by by apply Hiff. done.
      * rewrite decide_False by by rewrite <-Hiff. done.
Qed.

Lemma cs_MarshalJSON_result (cs : IAMPolicyStatementConditionSet) :
  (ConditionSet.MarshalJSON cs).1 =
    match (ConditionSet.group ∅ cs).1 with
    | Ok raw => Ok (ConditionSet.marshal_raw raw)
    | Err e => Err e
    | Panic x => Panic x
    end.
Proof.
  unfold ConditionSet.MarshalJSON.
  by destruct (ConditionSet.group ∅ cs) as [[raw|e|x] cs'].
Qed.

(** The loop, from the empty map. *)
Lemma cs_group_empty_lists (cs : IAMPolicyStatementConditionSet) :
  (∀ c, c ∈ cs → holds_strings (Values c)) →
  ∃ raw, (ConditionSet.group ∅ cs).1 = Ok raw ∧
    (∀ t, is_Some (raw !! t) ↔ t ∈ Test <$> cs) ∧
    ∀ t x, at_pair raw t x =
           if decide ((t, x) ∈ pair_of <$> cs)
           then Some (IStrings (merged_values cs t x))
           else None.
Proof.
  intros Hcs.
  destruct (cs_group_lists cs ∅ Hcs) as (raw & Hg & _ & Hdom & Hlook).
  { intros t x v. unfold at_pair. by rewrite lookup_empty. }
  exists raw. split; [done|]. split.
  - intros t. rewrite Hdom, lookup_empty. split; [|auto].
    intros [[? [=]]|?]; done.
  - intros t x. rewrite Hlook. unfold strings_at_pair, at_pair.
    rewrite lookup_empty. cbn [mbind option_bind].
    destruct (decide ((t, x) ∈ pair_of <$> cs)) as [H1|H1].
    + by rewrite decide_True by by right.
    + rewrite decide_False; [done|]. intros [[? [=]]|?]; done.
Qed.

(** X15: a condition set all of whose values are lists of strings is
    encoded as the nested map that has the tests of the set, under each
    test the variables that occur with it, and under a test and a
    variable the lists of the conditions of that pair, each one sorted
    in descending order, one after the other in the order of the
    entries. *)
Theorem ConditionSet_MarshalJSON_merges_values (cs : IAMPolicyStatementConditionSet) :
  (∀ c, c ∈ cs → holds_strings (Values c)) →
  ∃ raw, (ConditionSet.MarshalJSON cs).1 = Ok (ConditionSet.marshal_raw raw) ∧
    (∀ t, is_Some (raw !! t) ↔ t ∈ Test <$> cs) ∧
    ∀ t x, at_pair raw t x =
           if decide ((t, x) ∈ pair_of <$> cs)
           then Some (IStrings (merged_values cs t x))
           else None.
Proof.
  intros Hcs.
  destruct (cs_group_empty_lists cs Hcs) as (raw & Hg & Hdom & Hlook).
  exists raw. split; [|by split].
  rewrite cs_MarshalJSON_result. by rewrite Hg.
Qed.

Lemma ConditionSet_MarshalJSON_merges_values_witness :
  ∃ raw,
    (ConditionSet.MarshalJSON
       [ {| Test := "StringEquals"; Variable' := "k"; Values := IStrings ["a"; "c"] |};
         {| Test := "StringLike"; Variable' := "k"; Values := IStrings ["z"] |};
         {| Test := "StringEquals"; Variable' := "k"; Values := IStrings ["b"] |} ]).1
    = Ok (ConditionSet.marshal_raw raw) ∧
    at_pair raw "StringEquals" "k" = Some (IStrings ["c"; "a"; "b"]) ∧
    at_pair raw "StringLike" "k" = Some (IStrings ["z"]) ∧
    at_pair raw "StringLike" "j" = None.
Proof.
  destruct (ConditionSet_MarshalJSON_merges_values
    [ {| Test := "StringEquals"; Variable' := "k"; Values := IStrings ["a"; "c"] |};
      {| Test := "StringLike"; Variable' := "k"; Values := IStrings ["z"] |};
      {| Test := "StringEquals"; Variable' := "k"; Values := IStrings ["b"] |} ])
    as (raw & Hr & _ & Hlook).
  { intros c Hc. repeat (apply elem_of_cons in Hc as [->|Hc]; [by eexists|]).
    by apply elem_of_nil in Hc. }
  exists raw. split; [exact Hr|]. rewrite !Hlook. repeat split.
Defined.

(** ** The condition sets that [ConditionSet.UnmarshalJSON] returns *)

Lemma unmarshal_maps_two_levels (b : json) :
  (two_levels b → is_Ok (ConditionSet.unmarshal_maps b)) ∧
  (¬ two_levels b → ConditionSet.unmarshal_maps b = Err UnmarshalTypeError).
Proof.
  destruct b as [| | | | |kvs]; simpl; try (split; [done|tauto]).
  destruct (mapM _ kvs) as [kms|] eqn:Hm.
  - split; [done|]. intros Hn. destruct Hn.
    assert (is_Some (mapM (fun kv : string * json =>
              (fun m => (kv.1, m)) <$> ConditionSet.unmarshal_inner kv.2) kvs)) as Hs
      by (rewrite Hm; eauto).
    apply mapM_is_Some in Hs. eapply Forall_impl; [exact Hs|].
    intros [k j] [x Hx]. simpl in *. by destruct j.
  - split; [|done]. intros Hf. exfalso.
    assert (is_Some (mapM (fun kv : string * json =>
              (fun m => (kv.1, m)) <$> ConditionSet.unmarshal_inner kv.2) kvs)) as [? Hs].
    { apply mapM_is_Some. eapply Forall_impl; [exact Hf|].
      intros [k j] Hj. simpl in *. destruct j; try done; by eexists. }
    congruence.
Qed.

Lemma unmarshal_data_two_levels (b : json) :
  (two_levels b ∧ numbers_fit b = true → is_Ok (ConditionSet.unmarshal_data b)) ∧
  (¬ (two_levels b ∧ numbers_fit b = true) →
   ConditionSet.unmarshal_data b = Err UnmarshalTypeError).
Proof.
  destruct (unmarshal_maps_two_levels b) as [Hok Herr].
  unfold ConditionSet.unmarshal_data.
  destruct (numbers_fit b); [|split; [by intros [_ ?]|done]].
  split; [by intros [? _]; apply Hok|].
  intros Hn. apply Herr. intros Ht. by apply Hn.
Qed.

(** X16: the decoder of condition sets returns an error exactly when the
    JSON value is not an object (or [null]) of objects (or [null]), or
    holds a number that has no float64; the error is that of
    [json.Unmarshal].  Otherwise every run, in whichever order the maps
    are visited, panics on [v.(string)] or returns a set in which every
    condition holds a list of strings and no two conditions have the
    same test and variable. *)
Theorem ConditionSet_UnmarshalJSON_conditions (b : json) :
  (¬ (two_levels b ∧ numbers_fit b = true) →
   ConditionSet.UnmarshalJSON b = [Err UnmarshalTypeError]) ∧
  (two_levels b ∧ numbers_fit b = true →
   ConditionSet.UnmarshalJSON b ≠ [] ∧
   ∀ r, r ∈ ConditionSet.UnmarshalJSON b →
     (∃ l, r = Panic (bad_element l)) ∨
     ∃ out, r = Ok out ∧
       Forall (fun c => holds_strings (Values c)) out ∧
       NoDup (pair_of <$> out)).
Proof.
  destruct (unmarshal_data_two_levels b) as [Hok Herr].
  unfold ConditionSet.UnmarshalJSON. split.
  - intros Hn. by rewrite (Herr Hn).
  - intros Ht. specialize (Hok Ht).
    destruct (ConditionSet.unmarshal_data b) as [data|e|x]; try done.
    split.
    { intros H%fmap_nil_inv. by apply visit_orders_nonempty in H. }
    intros r (order & -> & Horder)%list_elem_of_fmap.
    destruct (visit_tests_result [] order)
      as [-> | (t' & vars' & x' & l' & _ & _ & _ & ->)]; [|left; by eexists].
    right. eexists. split; [done|]. simpl. split.
    + apply Forall_forall. intros c. apply visited_values.
    + by apply (visited_pairs_NoDup data).
Qed.

Lemma ConditionSet_UnmarshalJSON_conditions_witness :
  ConditionSet.UnmarshalJSON (JObj [("t", JObj [("a", JNum (10 ^ 400))])])
  = [Err UnmarshalTypeError] ∧
  ConditionSet.UnmarshalJSON (JObj [("t", JStr "a")]) = [Err UnmarshalTypeError].
Proof.
  split.
  - apply (proj1 (ConditionSet_UnmarshalJSON_conditions
                    (JObj [("t", JObj [("a", JNum (10 ^ 400))])]))).
    intros [_ H]. vm_compute in H. discriminate H.
  - apply (proj1 (ConditionSet_UnmarshalJSON_conditions (JObj [("t", JStr "a")]))).
    intros [H _]. apply Forall_cons in H as [H _]. exact H.
Defined.

(** ** Decoding a condition set and encoding it again *)

Lemma at_pair_Some (raw : gmap string (gmap string iface)) t x v :
  at_pair raw t x = Some v ↔ ∃ inner, raw !! t = Some inner ∧ inner !! x = Some v.
Proof.
  unfold at_pair. destruct (raw !! t) as [inner|]; simpl.
  - split; [eauto|]. by intros (? & [= <-] & ?).
  - split; [done|]. by intros (? & [=] & _).
Qed.

Lemma at_pair_reencoded data t x :
  at_pair (reencoded data) t x = at_pair data t x ≫= reencoded_leaf.
Proof.
  unfold at_pair, reencoded. rewrite lookup_omap.
  destruct (data !! t) as [inner|]; [|done]. cbn [mbind option_bind].
  unfold reencoded_test. case_decide as Hs; cbn [mbind option_bind].
  - apply map_size_empty_iff in Hs. by rewrite <-lookup_omap, Hs, lookup_empty.
  - by rewrite lookup_omap.
Qed.

Lemma reencoded_nonempty data t :
  is_Some (reencoded data !! t) → ∃ x, is_Some (at_pair (reencoded data) t x).
Proof.
  intros [m Hm]. pose proof Hm as Hm'. unfold reencoded in Hm'.
  rewrite lookup_omap in Hm'.
  destruct (data !! t) as [inner|]; [|done]. cbn [mbind option_bind] in Hm'.
  unfold reencoded_test in Hm'. case_decide as Hs; [done|]. injection Hm' as Hm'.
  destruct (map_choose m) as (x & v & Hx).
  { intros ->. apply Hs. rewrite Hm'. apply map_size_empty. }
  exists x, v. apply at_pair_Some. eauto.
Qed.

(** Two nested maps without empty inner maps that hold the same values
    are the same. *)
Lemma nested_map_eq (m1 m2 : gmap string (gmap string iface)) :
  (∀ t, is_Some (m1 !! t) → ∃ x, is_Some (at_pair m1 t x)) →
  (∀ t, is_Some (m2 !! t) → ∃ x, is_Some (at_pair m2 t x)) →
  (∀ t x, at_pair m1 t x = at_pair m2 t x) →
  m1 = m2.
Proof.
  intros H1 H2 Heq. apply map_eq. intros t.
  destruct (m1 !! t) as [i1|] eqn:E1, (m2 !! t) as [i2|] eqn:E2; [| | |done].
  - f_equal. apply map_eq. intros x. specialize (Heq t x).
    unfold at_pair in Heq. by rewrite E1, E2 in Heq.
  - destruct (H1 t) as [x [v Hv]]; [by rewrite E1|].
    rewrite Heq in Hv. unfold at_pair in Hv. by rewrite E2 in Hv.
  - destruct (H2 t) as [x [v Hv]]; [by rewrite E2|].
    rewrite <-Heq in Hv. unfold at_pair in Hv. by rewrite E1 in Hv.
Qed.

Lemma merged_values_nil (cs : IAMPolicyStatementConditionSet) t x :
  (t, x) ∉ pair_of <$> cs → merged_values cs t x = [].
Proof.
  induction cs as [|c cs IH]; [done|]. rewrite fmap_cons, not_elem_of_cons.
  intros [Hc Hcs]. cbn [merged_values flat_map]. fold (merged_values cs t x).
  rewrite decide_False by congruence. by apply IH.
Qed.

Lemma merged_values_NoDup (cs : IAMPolicyStatementConditionSet) c l :
  NoDup (pair_of <$> cs) → c ∈ cs → Values c = IStrings l →
  merged_values cs (Test c) (Variable' c) = sort_desc l.
Proof.
  induction cs as [|c' cs IH]; intros Hnd Hc Hl; [by apply elem_of_nil in Hc|].
  rewrite fmap_cons in Hnd. apply NoDup_cons in Hnd as [Hc' Hnd].
  cbn [merged_values flat_map].
  fold (merged_values cs (Test c) (Variable' c)).
  apply elem_of_cons in Hc as [<-|Hc].
  - rewrite decide_True by done. rewrite Hl.
    rewrite merged_values_nil by exact Hc'. by rewrite app_nil_r.
  - rewrite decide_False; [by apply IH|].
    intros Hp. apply Hc'. rewrite Hp. apply list_elem_of_fmap. by exists c.
Qed.

(** The encoding of the set that a run of the decoder returns. *)
Lemma decoded_conditions_encode data order :
  order ∈ ConditionSet.visit_orders data →
  (ConditionSet.MarshalJSON (order ≫= fun tv => entries_of_vars tv.1 tv.2)).1 =
    Ok (ConditionSet.marshal_raw (reencoded data)).
Proof.
  intros Horder.
  set (out := order ≫= fun tv => entries_of_vars tv.1 tv.2).
  destruct (cs_group_empty_lists out) as (raw & Hg & Hdom & Hlook).
  { intros c. apply visited_values. }
  rewrite cs_MarshalJSON_result, Hg.
  do 2 f_equal. apply nested_map_eq.
  - intros t (c & -> & Hc)%Hdom%list_elem_of_fmap. exists (Variable' c).
    rewrite Hlook. rewrite decide_True; [by eexists|].
    apply list_elem_of_fmap. by exists c.
  - apply reencoded_nonempty.
  - intros t x. rewrite Hlook, at_pair_reencoded.
    destruct (at_pair data t x ≫= leaf_values) as [vals|] eqn:Hv.
    + apply bind_Some in Hv as (v & Hat & Hv).
      apply at_pair_Some in Hat as (inner & Hi & Hx).
      assert ({| Test := t; Variable' := x; Values := vals |} ∈ out) as Hc.
      { apply (visited_conditions data order Horder). exists inner, v. done. }
      destruct (visited_values order _ Hc) as [l Hl]. simpl in Hl. subst vals.
      rewrite decide_True
        by (apply list_elem_of_fmap; eexists; split; [|exact Hc]; done).
      pose proof (merged_values_NoDup out _ l
                    (visited_pairs_NoDup data order Horder) Hc eq_refl) as Hm.
      simpl in Hm. rewrite Hm.
      assert (at_pair data t x = Some v) as -> by (apply at_pair_Some; eauto).
      cbn [mbind option_bind]. unfold reencoded_leaf. by rewrite Hv.
    + rewrite decide_False.
      * destruct (at_pair data t x) as [v|]; [|done]. cbn [mbind option_bind] in *.
        unfold reencoded_leaf. by rewrite Hv.
      * intros (c & Hp & Hc)%list_elem_of_fmap. injection Hp as -> ->.
        apply (visited_conditions data order Horder) in Hc
          as (inner & v & Hi & Hx & Hl).
        assert (at_pair data (Test c) (Variable' c) = Some v) as Hat
          by (apply at_pair_Some; eauto).
        rewrite Hat in Hv. cbn [mbind option_bind] in Hv. congruence.
Qed.

Lemma UnmarshalJSON_returns b data :
  ConditionSet.unmarshal_data b = Ok data →
  arrays_hold_strings data →
  ConditionSet.UnmarshalJSON b ≠ [] ∧
  ∀ r, r ∈ ConditionSet.UnmarshalJSON b →
    ∃ order, order ∈ ConditionSet.visit_orders data ∧
      r = Ok (order ≫= fun tv => entries_of_vars tv.1 tv.2).
Proof.
  intros Hdata Harr. unfold ConditionSet.UnmarshalJSON. rewrite Hdata.
  split.
  { intros H%fmap_nil_inv. by apply visit_orders_nonempty in H. }
  intros r (order & -> & Horder)%list_elem_of_fmap.
  exists order. split; [done|].
  rewrite visit_tests_spec; [done|].
  intros t vars x l Ht Hx.
  destruct (visit_orders_visited _ _ Horder _ _ Ht) as (inner & Hi & Hp).
  apply (Harr t inner x l Hi).
  apply elem_of_map_to_list. by rewrite Hp.
Qed.

(** X17: when decoding a condition set returns, encoding what it
    returned gives the same JSON value in whichever order the maps were
    visited: the nested map that holds, under a test and a variable, a
    list of one string for a leaf that was a string, the descending list
    for a leaf that was an array, and nothing for any other leaf; a test
    without such a leaf is absent. *)
Theorem ConditionSet_UnmarshalJSON_MarshalJSON (b : json)
    (data : gmap string (gmap string iface)) :
  ConditionSet.unmarshal_data b = Ok data →
  arrays_hold_strings data →
  (ConditionSet.UnmarshalJSON b ≠ [] ∧
   ∀ r, r ∈ ConditionSet.UnmarshalJSON b →
     ∃ out, r = Ok out ∧
       (ConditionSet.MarshalJSON out).1 =
         Ok (ConditionSet.marshal_raw (reencoded data))) ∧
  (∀ t x, at_pair (reencoded data) t x = at_pair data t x ≫= reencoded_leaf) ∧
  (∀ t, is_Some (reencoded data !! t) ↔
        ∃ x, is_Some (at_pair data t x ≫= reencoded_leaf)).
Proof.
  intros Hdata Harr.
  destruct (UnmarshalJSON_returns b data Hdata Harr) as [Hne Hall].
  split; [split; [done|]|split].
  - intros r (order & Horder & ->)%Hall. eexists. split; [done|].
    by apply decoded_conditions_encode.
  - apply at_pair_reencoded.
  - intros t. split.
    + intros (x & Hx)%reencoded_nonempty. exists x. by rewrite <-at_pair_reencoded.
    + intros (x & [v Hx]). rewrite <-at_pair_reencoded in Hx.
      apply at_pair_Some in Hx as (inner & -> & _). by eexists.
Qed.

Lemma ConditionSet_UnmarshalJSON_MarshalJSON_witness :
  Forall (fun r => ∃ out, r = Ok out ∧
            (ConditionSet.MarshalJSON out).1 =
              Ok (JObj [("t", JObj [("a", JArr [JStr "v"]);
                                    ("b", JArr [JStr "z"; JStr "w"])])]))
    (ConditionSet.UnmarshalJSON
       (JObj [("t", JObj [("a", JStr "v"); ("b", JArr [JStr "w"; JStr "z"]);
                          ("c", JNum 5)]);
              ("u", JObj [("d", JBool true)])])).
Proof.
  destruct (ConditionSet_UnmarshalJSON_MarshalJSON
           (JObj [("t", JObj [("a", JStr "v"); ("b", JArr [JStr "w"; JStr "z"]);
                              ("c", JNum 5)]);
                  ("u", JObj [("d", JBool true)])])
           (<["u" := <["d" := IBool true]> ∅]>
              (<["t" := <["c" := INum 5]>
                          (<["b" := IArr [IStr "w"; IStr "z"]]>
                             (<["a" := IStr "v"]> ∅))]> ∅))) as [[_ Hall] _].
  - vm_compute. reflexivity.
  - intros t inner x l Ht Hx.
    apply lookup_insert_Some in Ht as [[<- <-]|[_ Ht]].
    { apply lookup_insert_Some in Hx as [[_ [=]]|[_ Hx]].
      by rewrite lookup_empty in Hx. }
    apply lookup_insert_Some in Ht as [[<- <-]|[_ Ht]]; [|by rewrite lookup_empty in Ht].
    apply lookup_insert_Some in Hx as [[_ [=]]|[_ Hx]].
    apply lookup_insert_Some in Hx as [[_ [= <-]]|[_ Hx]]; [by eexists|].
    apply lookup_insert_Some in Hx as [[_ [=]]|[_ Hx]].
    by rewrite lookup_empty in Hx.
  - apply Forall_forall. intros r Hr.
    destruct (Hall r Hr) as (out & -> & Hm). exists out. split; [done|].
    rewrite Hm. vm_compute. reflexivity.
Defined.

(** ** Reading back what the encoder of condition sets wrote *)

Lemma lookup_members_to_map_NoDup {A} (kvs : list (string * A)) k v :
  NoDup kvs.*1 → members_to_map kvs !! k = Some v ↔ (k, v) ∈ kvs.
Proof.
  intros Hnd. rewrite lookup_members_to_map. split.
  - intros (pre & post & -> & _). apply elem_of_app. right. by left.
  - intros (pre & post & ->)%list_elem_of_split. exists pre, post. split; [done|].
    rewrite fmap_app, fmap_cons in Hnd.
    apply NoDup_app in Hnd as (_ & _ & Hnd). by apply NoDup_cons in Hnd as [? _].
Qed.

(** The map read from the members written for a map. *)
Lemma members_to_map_sorted_members {A B} (f : A → B) (m : gmap string A) :
  members_to_map ((fun kv => (kv.1, f kv.2)) <$> sorted_members m) = f <$> m.
Proof.
  apply map_eq. intros k. apply option_eq. intros v.
  rewrite lookup_members_to_map_NoDup.
  2:{ rewrite <-list_fmap_compose. apply NoDup_sorted_members. }
  rewrite list_elem_of_fmap, lookup_fmap, fmap_Some. split.
  - intros ([k' a] & [= -> ->] & Ha%elem_of_sorted_members). eauto.
  - intros (a & Ha & ->). exists (k, a). split; [done|].
    by apply elem_of_sorted_members.
Qed.

(** What the encoder writes for lists of strings holds no number. *)
Lemma numbers_fit_strings (raw : gmap string (gmap string iface)) :
  (∀ t x v, at_pair raw t x = Some v → holds_strings v) →
  numbers_fit (ConditionSet.marshal_raw raw) = true.
Proof.
  intros Hraw. unfold ConditionSet.marshal_raw. cbn [numbers_fit].
  apply Is_true_true, forallb_True, Forall_forall.
  intros [t j] Hj%elem_of_sorted_members.
  rewrite lookup_fmap in Hj. apply fmap_Some in Hj as (inner & Hi & ->).
  cbn [snd numbers_fit]. apply forallb_True, Forall_forall.
  intros [x j] Hx%elem_of_sorted_members.
  rewrite lookup_fmap in Hx. apply fmap_Some in Hx as (v & Hv & ->).
  destruct (Hraw t x v) as [l ->]; [apply at_pair_Some; eauto|].
  cbn [snd marshal_any numbers_fit]. apply Is_true_true. clear Hv.
  induction l as [|s l IH]; [done|]. exact IH.
Qed.

Lemma unmarshal_data_marshal_raw (raw : gmap string (gmap string iface)) :
  numbers_fit (ConditionSet.marshal_raw raw) = true →
  ConditionSet.unmarshal_data (ConditionSet.marshal_raw raw) = Ok (read_back raw).
Proof.
  intros Hfit. unfold ConditionSet.unmarshal_data. rewrite Hfit.
  unfold ConditionSet.marshal_raw, ConditionSet.unmarshal_maps.
  set (g := fun inner : gmap string iface =>
              JObj (sorted_members (marshal_any <$> inner))).
  set (h := fun j : json => default ∅ (ConditionSet.unmarshal_inner j)).
  rewrite (mapM_Some_2 _ _ ((fun kv => (kv.1, h kv.2)) <$> sorted_members (g <$> raw))).
  2:{ apply Forall2_fmap_r, Forall_Forall2_diag, Forall_forall.
      intros [k j] Hk%elem_of_sorted_members.
      rewrite lookup_fmap in Hk. apply fmap_Some in Hk as (inner & _ & ->).
      reflexivity. }
  rewrite members_to_map_sorted_members, <-map_fmap_compose.
  f_equal. unfold read_back. apply map_fmap_ext. intros t inner _.
  unfold h, g, compose. cbn [ConditionSet.unmarshal_inner default].
  rewrite map_is_fmap. apply members_to_map_sorted_members.
Qed.

Lemma reencoded_values data t x v :
  at_pair (reencoded data) t x = Some v → ∃ l, v = IStrings (sort_desc l).
Proof.
  rewrite at_pair_reencoded. intros (w & _ & Hw)%bind_Some.
  unfold reencoded_leaf in Hw. apply fmap_Some in Hw as (vals & Hl & ->).
  destruct w; simpl in Hl; try done.
  - injection Hl as <-. by eexists.
  - destruct (strings_of l); [|done]. injection Hl as <-. by eexists.
Qed.

Lemma at_pair_read_back raw t x :
  at_pair (read_back raw) t x =
    (fun v => unmarshal_any (marshal_any v)) <$> at_pair raw t x.
Proof.
  unfold at_pair, read_back. rewrite lookup_fmap.
  destruct (raw !! t) as [inner|]; [|done]. cbn [fmap option_fmap option_map mbind option_bind].
  rewrite !lookup_fmap. by destruct (inner !! x).
Qed.

Lemma read_back_strings (l : list string) :
  unmarshal_any (marshal_any (IStrings l)) = IArr (IStr <$> l).
Proof.
  cbn [marshal_any unmarshal_any]. f_equal.
  induction l as [|s l IH]; [done|]. cbn [map]. rewrite IH. reflexivity.
Qed.

Lemma read_back_arrays data :
  arrays_hold_strings (read_back (reencoded data)).
Proof.
  intros t inner x l Ht Hx.
  assert (at_pair (read_back (reencoded data)) t x = Some (IArr l)) as Hat
    by (apply at_pair_Some; eauto).
  rewrite at_pair_read_back in Hat. apply fmap_Some in Hat as (v & Hv & Hl).
  apply reencoded_values in Hv as [l' ->]. rewrite read_back_strings in Hl.
  injection Hl as ->. rewrite strings_of_strings. by eexists.
Qed.

Lemma numbers_fit_reencoded data :
  numbers_fit (ConditionSet.marshal_raw (reencoded data)) = true.
Proof.
  apply numbers_fit_strings. intros t x v [l ->]%reencoded_values. by eexists.
Qed.

(** What the encoder builds from a set decoded from its own output is
    what it had built. *)
Lemma reencoded_read_back data :
  reencoded (read_back (reencoded data)) = reencoded data.
Proof.
  assert (∀ t x, at_pair (reencoded (read_back (reencoded data))) t x =
                 at_pair (reencoded data) t x) as Hat.
  { intros t x. rewrite (at_pair_reencoded (read_back _)), at_pair_read_back.
    destruct (at_pair (reencoded data) t x) as [v|] eqn:Hv; [|done].
    destruct (reencoded_values _ _ _ _ Hv) as [l ->].
    cbn [fmap option_fmap option_map mbind option_bind].
    rewrite read_back_strings. unfold reencoded_leaf. cbn [leaf_values].
    rewrite strings_of_strings. simpl. by rewrite sort_desc_idemp. }
  apply nested_map_eq; [apply reencoded_nonempty..|exact Hat].
Qed.

(** X18: for condition sets, decoding and encoding is stable: when
    decoding returns, the encoding of what it returned decodes in turn,
    in whichever order the maps are visited, to a set that is encoded
    to the same JSON value. *)
Theorem ConditionSet_encoding_stable (b : json)
    (data : gmap string (gmap string iface)) :
  ConditionSet.unmarshal_data b = Ok data →
  arrays_hold_strings data →
  ∀ r, r ∈ ConditionSet.UnmarshalJSON b →
    ∃ out j, r = Ok out ∧ (ConditionSet.MarshalJSON out).1 = Ok j ∧
      ConditionSet.UnmarshalJSON j ≠ [] ∧
      ∀ r', r' ∈ ConditionSet.UnmarshalJSON j →
        ∃ out', r' = Ok out' ∧ (ConditionSet.MarshalJSON out').1 = Ok j.
Proof.
  intros Hdata Harr r Hr.
  destruct (UnmarshalJSON_returns b data Hdata Harr) as [_ Hall].
  destruct (Hall r Hr) as (order & Horder & ->).
  eexists _, _. split; [done|].
  split; [by apply decoded_conditions_encode|].
  destruct (UnmarshalJSON_returns _ _
              (unmarshal_data_marshal_raw (reencoded data) (numbers_fit_reencoded data))
              (read_back_arrays data)) as [Hne Hall'].
  split; [done|].
  intros r' (order' & Horder' & ->)%Hall'. eexists. split; [done|].
  rewrite (decoded_conditions_encode _ _ Horder'). by rewrite reencoded_read_back.
Qed.

Lemma ConditionSet_encoding_stable_witness :
  Forall (fun r => ∃ out j, r = Ok out ∧ (ConditionSet.MarshalJSON out).1 = Ok j ∧
            ConditionSet.UnmarshalJSON j ≠ [] ∧
            Forall (fun r' => ∃ out', r' = Ok out' ∧
                                (ConditionSet.MarshalJSON out').1 = Ok j)
              (ConditionSet.UnmarshalJSON j))
    (ConditionSet.UnmarshalJSON
       (JObj [("t", JObj [("a", JStr "v"); ("b", JArr [JStr "w"; JStr "z"])])])).
Proof.
  apply Forall_forall. intros r Hr.
  destruct (ConditionSet_encoding_stable
           (JObj [("t", JObj [("a", JStr "v"); ("b", JArr [JStr "w"; JStr "z"])])])
           (<["t" := <["b" := IArr [IStr "w"; IStr "z"]]> (<["a" := IStr "v"]> ∅)]> ∅))
    with (r := r) as (out & j & Ho & Hj & Hne & Hall).
  - vm_compute. reflexivity.
  - intros t inner x l Ht Hx.
    apply lookup_insert_Some in Ht as [[<- <-]|[_ Ht]]; [|by rewrite lookup_empty in Ht].
    apply lookup_insert_Some in Hx as [[_ [= <-]]|[_ Hx]]; [by eexists|].
    apply lookup_insert_Some in Hx as [[_ [=]]|[_ Hx]].
    by rewrite lookup_empty in Hx.
  - exact Hr.
  - exists out, j. repeat split; try done. by apply Forall_forall.
Defined.

(** ** When the encoder of condition sets returns *)

(** One turn of the loop. *)
Lemma cs_group_condition_cases raw c :
  (ConditionSet.group_condition raw c).1 =
    match Values c with
    | IStr s => Ok (store_pair raw (Test c) (Variable' c) (IStr s))
    | IStrings l =>
        match at_pair raw (Test c) (Variable' c) with
        | None =>
            Ok (store_pair raw (Test c) (Variable' c) (IStrings (sort_desc l)))
        | Some (IStrings cur) =>
            Ok (store_pair raw (Test c) (Variable' c) (IStrings (cur ++ sort_desc l)))
        | Some v => Panic (InterfaceConversion (dyn_type_of v) TStrings)
        end
    | _ => Panic (PanicMsg ConditionSet.panic_msg)
    end.
Proof.
  rewrite cs_group_condition_result. unfold store_pair.
  assert (at_pair raw (Test c) (Variable' c) =
          default ∅ (raw !! Test c) !! Variable' c) as ->.
  { unfold at_pair. by destruct (raw !! Test c). }
  destruct (Values c) as [| | |s|l| | |]; try done.
  cbn [group_value fst]. unfold append_strings.
  destruct (default ∅ (raw !! Test c) !! Variable' c) as [v|] eqn:Hk.
  - rewrite Hk. by destruct v.
  - rewrite lookup_insert_eq. by rewrite insert_insert_eq.
Qed.

Lemma at_pair_store raw t x v t' x' :
  at_pair (store_pair raw t x v) t' x' =
    if decide ((t, x) = (t', x')) then Some v else at_pair raw t' x'.
Proof. apply at_pair_insert. Qed.

Lemma cs_group_no_error raw (cs : IAMPolicyStatementConditionSet) e :
  (ConditionSet.group raw cs).1 ≠ Err e.
Proof.
  revert raw. induction cs as [|c cs IH]; intros raw; [done|].
  rewrite cs_group_cons, cs_group_condition_cases.
  destruct (Values c) as [| | |s|l| | |]; try done; try apply IH.
  destruct (at_pair raw (Test c) (Variable' c)) as [[]|]; try done; apply IH.
Qed.

Lemma cs_group_unsupported (cs : IAMPolicyStatementConditionSet) raw q :
  q ∈ cs → ¬ supported (Values q) → is_Panic (ConditionSet.group raw cs).1.
Proof.
  revert raw. induction cs as [|c cs IH]; intros raw Hq Hs.
  { by apply elem_of_nil in Hq. }
  rewrite cs_group_cons, cs_group_condition_cases.
  apply elem_of_cons in Hq as [->|Hq].
  { by destruct (Values c). }
  destruct (Values c) as [| | |s|l| | |]; try done; [by apply IH|].
  destruct (at_pair raw (Test c) (Variable' c)) as [[]|]; try done; by apply IH.
Qed.

(** Once a string is stored under a test and a variable, a later list
    for the same test and variable makes the loop panic. *)
Lemma cs_group_string_then_list (cs : IAMPolicyStatementConditionSet) raw q s l :
  at_pair raw (Test q) (Variable' q) = Some (IStr s) →
  q ∈ cs → Values q = IStrings l →
  is_Panic (ConditionSet.group raw cs).1.
Proof.
  revert raw s. induction cs as [|c cs IH]; intros raw s Hraw Hq Hl.
  { by apply elem_of_nil in Hq. }
  rewrite cs_group_cons, cs_group_condition_cases.
  destruct (decide ((Test c, Variable' c) = (Test q, Variable' q))) as [Hp|Hp].
  - injection Hp as Ht Hx. rewrite Ht, Hx, Hraw.
    destruct (Values c) as [| | |s'|l'| | |] eqn:Hc; try done.
    apply elem_of_cons in Hq as [->|Hq]; [congruence|].
    apply (IH _ s'); [|done..]. rewrite at_pair_store. by rewrite decide_True.
  - apply elem_of_cons in Hq as [->|Hq]; [done|].
    destruct (Values c) as [| | |s'|l'| | |] eqn:Hc; try done.
    + apply (IH _ s); [|done..]. rewrite at_pair_store. by rewrite decide_False.
    + destruct (at_pair raw (Test c) (Variable' c)) as [[]|]; try done;
        (apply (IH _ s); [|done..]); rewrite at_pair_store; by rewrite decide_False.
Qed.

Lemma string_then_list_values_cons c (cs : IAMPolicyStatementConditionSet) :
  string_then_list_values (c :: cs) ↔
  (∃ s q l, Values c = IStr s ∧ q ∈ cs ∧ pair_of q = pair_of c ∧
            Values q = IStrings l) ∨
  string_then_list_values cs.
Proof.
  split.
  - intros (i & j & c' & q & s & l & Hij & Hc & Hq & HT & Hs & Hl).
    destruct j as [|j]; [lia|]. simpl in Hq. destruct i as [|i].
    + injection Hc as <-. left. exists s, q, l. split; [done|].
      split; [apply list_elem_of_lookup; eauto|]. done.
    + right. exists i, j, c', q, s, l. simpl in Hc. repeat split; try done. lia.
  - intros [(s & q & l & Hs & (j & Hq)%list_elem_of_lookup & HT & Hl)|
            (i & j & c' & q & s & l & Hij & Hc & Hq & HT & Hs & Hl)].
    + exists 0, (S j), c, q, s, l. repeat split; try done. lia.
    + exists (S i), (S j), c', q, s, l. repeat split; try done. lia.
Qed.

Lemma cs_group_string_then_list_panics (cs : IAMPolicyStatementConditionSet) raw :
  string_then_list_values cs → is_Panic (ConditionSet.group raw cs).1.
Proof.
  revert raw. induction cs as [|c cs IH]; intros raw.
  { intros (i & j & c' & q & s & l & _ & Hc & _). by destruct i. }
  intros [(s & q & l & Hs & Hq & HT & Hl)|Hrest]%string_then_list_values_cons;
    rewrite cs_group_cons, cs_group_condition_cases.
  - rewrite Hs. injection HT as Ht Hx.
    apply (cs_group_string_then_list cs _ q s l); [|done..].
    rewrite at_pair_store. by rewrite decide_True by congruence.
  - destruct (Values c) as [| | |s|l| | |]; try done; [by apply IH|].
    destruct (at_pair raw (Test c) (Variable' c)) as [[]|]; try done; by apply IH.
Qed.

(** The loop runs to its end when every entry is supported, no string
    is followed by a list for its test and variable, and no list comes
    for a test and a variable under which [raw] holds something else. *)
Lemma cs_group_returns (cs : IAMPolicyStatementConditionSet) raw :
  Forall (fun c => supported (Values c)) cs →
  ¬ string_then_list_values cs →
  (∀ v q, at_pair raw (Test q) (Variable' q) = Some v → ¬ holds_strings v →
          q ∈ cs → ¬ holds_strings (Values q)) →
  is_Ok (ConditionSet.group raw cs).1.
Proof.
  revert raw. induction cs as [|c cs IH]; intros raw Hs Hc Hraw; [done|].
  apply Forall_cons in Hs as [Hp Hs].
  rewrite cs_group_cons, cs_group_condition_cases.
  assert (¬ string_then_list_values cs) as Hc'.
  { intros H. apply Hc, string_then_list_values_cons. by right. }
  destruct (Values c) as [| | |s|l| | |] eqn:Hi; try done.
  - (* a string *)
    apply IH; [done..|].
    intros v q. rewrite at_pair_store. case_decide as HT.
    + intros [= <-] _ Hq [l Hl].
      apply Hc, string_then_list_values_cons. left. exists s, q, l.
      unfold pair_of. by rewrite HT.
    + intros Hv Hnl Hq. apply (Hraw v q Hv Hnl). by right.
  - (* a list *)
    assert (∀ l', is_Ok (ConditionSet.group
                           (store_pair raw (Test c) (Variable' c) (IStrings l')) cs).1)
      as Hok.
    { intros l'. apply IH; [done..|].
      intros v q. rewrite at_pair_store. case_decide as HT.
      - intros [= <-] Hnl. destruct Hnl. by eexists.
      - intros Hv Hnl Hq. apply (Hraw v q Hv Hnl). by right. }
    destruct (at_pair raw (Test c) (Variable' c)) as [v|] eqn:Hv; [|apply Hok].
    destruct v as [| | | |cur| | |]; try apply Hok;
      (destruct (Hraw _ c Hv); [by intros [? ?]|by left|rewrite Hi; by eexists]).
Qed.

Lemma cs_MarshalJSON_no_error (cs : IAMPolicyStatementConditionSet) e :
  (ConditionSet.MarshalJSON cs).1 ≠ Err e.
Proof.
  rewrite cs_MarshalJSON_result.
  pose proof (cs_group_no_error ∅ cs) as Hne.
  destruct (ConditionSet.group ∅ cs).1 as [raw|e'|x]; [done| |done].
  by destruct (Hne e').
Qed.

Lemma cs_MarshalJSON_Ok_iff (cs : IAMPolicyStatementConditionSet) :
  is_Ok (ConditionSet.MarshalJSON cs).1 ↔
  Forall (fun c => supported (Values c)) cs ∧ ¬ string_then_list_values cs.
Proof.
  rewrite cs_MarshalJSON_result.
  assert (is_Ok (ConditionSet.group ∅ cs).1 ↔
          Forall (fun c => supported (Values c)) cs ∧ ¬ string_then_list_values cs)
    as <-; [|by destruct (ConditionSet.group ∅ cs).1].
  split.
  - intros Hok. split.
    + apply Forall_forall. intros q Hq.
      destruct (decide (supported (Values q))) as [|Hs]; [done|].
      pose proof (cs_group_unsupported cs ∅ q Hq Hs) as Hp.
      by destruct (ConditionSet.group ∅ cs).1.
    + intros Hc. pose proof (cs_group_string_then_list_panics cs ∅ Hc) as Hp.
      by destruct (ConditionSet.group ∅ cs).1.
  - intros [Hs Hc]. apply cs_group_returns; [done..|].
    intros v q Hv. unfold at_pair in Hv. by rewrite lookup_empty in Hv.
Qed.

(** X19: the encoder of condition sets returns exactly when every
    condition holds a string or a list of strings and no condition that
    holds a string is followed by a condition of the same test and
    variable that holds a list; in every other case it panics.  It
    returns no error. *)
Theorem ConditionSet_MarshalJSON_returns_iff (cs : IAMPolicyStatementConditionSet) :
  (is_Ok (ConditionSet.MarshalJSON cs).1 ↔
   Forall (fun c => supported (Values c)) cs ∧ ¬ string_then_list_values cs) ∧
  (is_Panic (ConditionSet.MarshalJSON cs).1 ↔
   ¬ (Forall (fun c => supported (Values c)) cs ∧ ¬ string_then_list_values cs)).
Proof.
  split; [apply cs_MarshalJSON_Ok_iff|].
  apply is_Panic_iff; [apply cs_MarshalJSON_no_error|apply cs_MarshalJSON_Ok_iff].
Qed.

(** ** When the encoding of a document returns *)

Lemma omitempty_set_returns {A} (M : list A → outcome json * list A)
    (P : list A → Prop) name set :
  P [] → (∀ e, (M set).1 ≠ Err e) → (is_Ok (M set).1 ↔ P set) →
  (∀ e, (omitempty_set M name set).1 ≠ Err e) ∧
  (is_Ok (omitempty_set M name set).1 ↔ P set).
Proof.
  intros Hnil Hne Hiff. unfold omitempty_set. destruct set as [|a set]; [done|].
  rewrite <-Hiff. destruct (M (a :: set)) as [[j|e|x] set']; simpl in *; try done.
  by destruct (Hne e).
Qed.

Lemma encodable_principals_nil : encodable_principals [].
Proof.
  split; [constructor|]. intros (i & j & p & q & s & l & _ & Hp & _).
  by destruct i.
Qed.

Lemma encodable_conditions_nil : encodable_conditions [].
Proof.
  split; [constructor|]. intros (i & j & p & q & s & l & _ & Hp & _).
  by destruct i.
Qed.

Lemma omitempty_iface_returns name v :
  is_Ok (omitempty_iface name v) ↔ writable v.
Proof.
  unfold omitempty_iface, writable.
  destruct v; try done; by destruct (json_Marshal _).
Qed.

Lemma marshal_head_returns (s : IAMPolicyStatement) :
  is_Ok (marshal_head s) ↔ fields_writable s.
Proof.
  unfold marshal_head, fields_writable.
  rewrite <-(omitempty_iface_returns "Action"), <-(omitempty_iface_returns "NotAction"),
    <-(omitempty_iface_returns "Resource"), <-(omitempty_iface_returns "NotResource").
  destruct (omitempty_iface "Action" _); simpl; [|tauto..].
  destruct (omitempty_iface "NotAction" _); simpl; [|tauto..].
  destruct (omitempty_iface "Resource" _); simpl; [|tauto..].
  destruct (omitempty_iface "NotResource" _); simpl; tauto.
Qed.

Lemma marshal_statement_returns (s : IAMPolicyStatement) :
  (fields_writable s → ∀ e, (marshal_statement s).1 ≠ Err e) ∧
  (is_Ok (marshal_statement s).1 ↔ encodable_statement s).
Proof.
  destruct (omitempty_set_returns PrincipalSet.MarshalJSON encodable_principals
              "Principal" (Principals s) encodable_principals_nil
              (ps_MarshalJSON_no_error _) (ps_MarshalJSON_Ok_iff _)) as [Hn1 H1].
  destruct (omitempty_set_returns PrincipalSet.MarshalJSON encodable_principals
              "NotPrincipal" (NotPrincipals s) encodable_principals_nil
              (ps_MarshalJSON_no_error _) (ps_MarshalJSON_Ok_iff _)) as [Hn2 H2].
  destruct (omitempty_set_returns ConditionSet.MarshalJSON encodable_conditions
              "Condition" (Conditions s) encodable_conditions_nil
              (cs_MarshalJSON_no_error _) (cs_MarshalJSON_Ok_iff _)) as [Hn3 H3].
  unfold encodable_statement.
  rewrite <-marshal_head_returns, <-H1, <-H2, <-H3.
  unfold marshal_statement.
  destruct (marshal_head s) as [h|e|x]; simpl; [|split; [by intros []|tauto]..].
  destruct (omitempty_set _ "Principal" (Principals s)) as [[f1|e|x] ps];
    simpl in *; [|by destruct (Hn1 e)|split; [done|tauto]].
  destruct (omitempty_set _ "NotPrincipal" (NotPrincipals s)) as [[f2|e|x] nps];
    simpl in *; [|by destruct (Hn2 e)|split; [done|tauto]].
  destruct (omitempty_set _ "Condition" (Conditions s)) as [[f3|e|x] cs];
    simpl in *; [split; [done|tauto]|by destruct (Hn3 e)|split; [done|tauto]].
Qed.

Lemma marshal_statements_returns (l : list (option IAMPolicyStatement)) :
  (Forall fields_writable (omap id l) → ∀ e, (marshal_statements l).1 ≠ Err e) ∧
  (is_Ok (marshal_statements l).1 ↔ Forall encodable_statement (omap id l)).
Proof.
  induction l as [|p l [IHn IH]]; [done|].
  cbn [marshal_statements].
  destruct p as [s|]; cbn [marshal_statement_ptr].
  - destruct (marshal_statement_returns s) as [Hn Hs].
    change (omap id (Some s :: l)) with (s :: omap id l).
    rewrite !Forall_cons, <-Hs, <-IH.
    destruct (marshal_statement s) as [[j|e|x] s']; simpl in *.
    + destruct (marshal_statements l) as [[js|e|x] l']; simpl in *.
      * split; [done|tauto].
      * split; [|tauto]. intros [_ Hw]. by destruct (IHn Hw e).
      * split; [done|tauto].
    + split; [|tauto]. intros [Hw _]. by destruct (Hn Hw e).
    + split; [done|tauto].
  - change (omap id (None :: l)) with (omap id l). rewrite <-IH.
    destruct (marshal_statements l) as [[js|e|x] l']; simpl in *; [done| |done].
    split; [|done]. intros Hw. by destruct (IHn Hw e).
Qed.

(** X20: the encoding of a document returns exactly when, in every
    statement, the actions and resources hold values that [json.Marshal]
    writes, and the principals, the other principals and the conditions
    are sets that their encoder takes: every entry holds a string or a
    list of strings, and no string is followed by a list for the same
    type, or the same test and variable.  When the actions and
    resources are values that [json.Marshal] writes, no error is
    returned: the encoding returns or panics.  A nil statement pointer
    and an empty set never stand in the way. *)
Theorem Encode_returns_iff (d : IAMPolicyDoc) :
  (is_Ok (Encode d).1 ↔ Forall encodable_statement (doc_statements d)) ∧
  (Forall fields_writable (doc_statements d) →
   (∀ e, (Encode d).1 ≠ Err e) ∧
   (is_Panic (Encode d).1 ↔ ¬ Forall encodable_statement (doc_statements d))).
Proof.
  assert ((Forall fields_writable (doc_statements d) → ∀ e, (Encode d).1 ≠ Err e) ∧
          (is_Ok (Encode d).1 ↔ Forall encodable_statement (doc_statements d)))
    as [Hne Hiff].
  { unfold Encode, doc_statements. destruct (Statements d) as [l|]; [|done].
    destruct (marshal_statements_returns l) as [Hn <-].
    destruct (marshal_statements l) as [[js|e|x] l']; simpl in *; try done.
    split; [|done]. intros Hw. by destruct (Hn Hw e). }
  split; [done|]. intros Hw. split; [by apply Hne|].
  apply is_Panic_iff; [by apply Hne|done].
Qed.

Lemma Encode_returns_iff_witness :
  ¬ is_Ok (Encode {| Version := ""; Id := "";
                     Statements :=
                       Some [Some (statement_with_actions
                                     (IArr [IStr "a"; IOther (Err MarshalError)]))] |}).1.
Proof.
  intros H. apply (proj1 (Encode_returns_iff _)) in H.
  apply Forall_cons in H as [[[Hw _] _] _]. exact Hw.
Defined.
